(** * TreeFrog application server: pooled KVS connections, the thread
      dispatcher and the SQLite cache store

    A shallow embedding of
      - src/tkvsdatabasepool.cpp        (module [TKvsDatabasePool]),
      - src/tthreadapplicationserver.cpp (module [TThreadApplicationServer]),
      - src/tcachesqlitestore.cpp        (module [TCacheSQLiteStore]),
    followed by the properties established about them.

    Conventions.  C++ [int] and [qint64] values are [Z]; [uint] values are [Z]
    reduced modulo [2^32], and the sum of two [qint64] is reduced to the range
    of the type; a [double] is a binary64 [float].  A [TStack<T>] is a
    [list T] whose head is the top.
    An array allocated with [new T[n]] is a [list T] read with [!!!] and
    written with [<[ i := x ]>].  Calls that leave the process (opening or
    closing a backend connection, reading a settings file) are recorded in a
    trace of [Effect]s; what the outside world answers is an argument of the
    function that asks.  In [PoolWorld] a public operation of the pool is one
    step; [Interleaving] splits the operations of several threads at their
    accesses to the stacks, whose push and pop are atomic. *)

From Stdlib Require Import ZArith Lia Floats Uint63.
From stdpp Require Import base option list gmap strings pretty.

(** ** TStack *)

(** Modelled from the spec: the class template [TStack] (tstack.h) is not part
    of the sources.  The spec calls it the NamedStack primitive, "a
    thread-safe, capacity-less LIFO of resource identifiers"; [pop] reports
    whether an element was taken. *)
Module TStack.

Definition push {A : Type} (x : A) (s : list A) : list A := x :: s.

Definition pop {A : Type} (s : list A) : option (A * list A) :=
  match s with
  | [] => None
  | x :: rest => Some (x, rest)
  end.

End TStack.

(** ** TKvsDatabase *)

(** Modelled from the spec: the class [TKvsDatabase] (tkvsdatabase.cpp) is not
    part of the sources; only its use by the pool is.  A connection is
    "identified by a unique name (string) scoped to a type" and is either open
    or closed.  The class keeps a process-wide dictionary from connection name
    to driver; a [TKvsDatabase] object is a handle on one entry. *)
Module TKvsDatabase.

(** [enum Type { MongoDB = 0, Redis, TypeNum }] *)
Inductive Type_ : Set := MongoDB | Redis.

#[global] Instance Type_eq_dec : EqDecision Type_.
Proof. solve_decision. Defined.

Definition Type_to_int (type : Type_) : Z :=
  match type with
  | MongoDB => 0
  | Redis => 1
  end.

(** An entry of the dictionary: the key of the driver that serves the
    connection, and whether the driver is connected. *)
Record Data : Set := mkData { driverKey : string; opened : bool }.

(** A handle: the connection name and the driver it points to, [None] for the
    null driver of a default-constructed [TKvsDatabase()]. *)
Record t : Set := mkHandle { connectName : string; drv : option string }.

#[global] Instance Data_eq_dec : EqDecision Data.
Proof. solve_decision. Defined.

#[global] Instance t_eq_dec : EqDecision t.
Proof. solve_decision. Defined.

(** [TKvsDatabase()] *)
Definition invalid : t := mkHandle "" None.

Definition isValid (db : t) : bool :=
  match drv db with
  | Some _ => true
  | None => false
  end.

Definition connectionName (db : t) : string := connectName db.

Definition driverName (db : t) : string :=
  match drv db with
  | Some key => key
  | None => ""
  end.

(** The driver factory knows the two backends. *)
Definition createDriver (key : string) : option string :=
  if bool_decide (key = "MONGODB") || bool_decide (key = "REDIS")
  then Some key
  else None.

(** [TKvsDatabase::addDatabase(driver, connectionName)] *)
Definition addDatabase (driver name : string) (dict : gmap string Data)
  : t * gmap string Data :=
  match createDriver driver with
  | Some key => (mkHandle name (Some key), <[ name := mkData key false ]> dict)
  | None => (mkHandle name None, dict)
  end.

(** [TKvsDatabase::database(connectionName)] *)
Definition database (name : string) (dict : gmap string Data) : t :=
  match dict !! name with
  | Some d => mkHandle name (Some (driverKey d))
  | None => mkHandle name None
  end.

(** [db.isOpen()]: asks the driver the handle points to. *)
Definition isOpen (db : t) (dict : gmap string Data) : bool :=
  match drv db, dict !! connectName db with
  | Some _, Some d => opened d
  | _, _ => false
  end.

Definition setOpened (name : string) (b : bool) (dict : gmap string Data)
  : gmap string Data :=
  match dict !! name with
  | Some d => <[ name := mkData (driverKey d) b ]> dict
  | None => dict
  end.

(** [db.open()]: [connects] is whether the backend accepts the connection. *)
Definition open (db : t) (connects : bool) (dict : gmap string Data)
  : bool * gmap string Data :=
  match drv db with
  | Some _ =>
      if connects then (true, setOpened (connectName db) true dict)
      else (false, dict)
  | None => (false, dict)
  end.

(** [db.close()] *)
Definition close (db : t) (dict : gmap string Data) : gmap string Data :=
  match drv db with
  | Some _ => setOpened (connectName db) false dict
  | None => dict
  end.

(** [TKvsDatabase::removeDatabase(connectionName)]: the entry leaves the
    dictionary. *)
Definition removeDatabase (name : string) (dict : gmap string Data)
  : gmap string Data :=
  delete name dict.

End TKvsDatabase.

(** ** Shared vocabulary *)

(** What a call can end with: a value, or a thrown [RuntimeException]. *)
Inductive Outcome (A : Type) : Type :=
  | Returned (a : A)
  | RuntimeException (msg : string).
Arguments Returned {A} a.
Arguments RuntimeException {A} msg.

(** Calls that leave the pool. *)
Inductive Effect : Set :=
  | SettingsLookup (type : TKvsDatabase.Type_)
  | OpenAttempt (name : string)
  | CloseCall (name : string).

(** The part of [Tf::app()] the pool and the server read. *)
Record TWebApplication : Set := mkApp {
  isMongoDbAvailable : bool;
  isRedisAvailable : bool;
  maxNumberOfThreadsPerAppServer : Z
}.

(** [(uint)x]: conversion to a 32-bit unsigned integer. *)
Definition uint (x : Z) : Z := x mod 2 ^ 32.

(** ** TKvsDatabasePool (src/tkvsdatabasepool.cpp) *)

Module TKvsDatabasePool.
Import TKvsDatabase.

(** [KvsTypeHash]: a [QMap<QString, int>], kept sorted by key; the integers
    it stores are the enumerators. *)
Definition kvsTypeHash : list (string * Type_) :=
  [ ("MONGODB", MongoDB); ("REDIS", Redis) ].

(** [QMap::value(key, defaultValue)] *)
Fixpoint value (m : list (string * Type_)) (key : string) (defaultValue : Z) : Z :=
  match m with
  | [] => defaultValue
  | (k, v) :: rest =>
      if bool_decide (k = key) then Type_to_int v else value rest key defaultValue
  end.

(** [QMap::key(value)]: the first key with that value, or the empty string. *)
Fixpoint key (m : list (string * Type_)) (v : Z) : string :=
  match m with
  | [] => ""
  | (k, v') :: rest => if bool_decide (Type_to_int v' = v) then k else key rest v
  end.

(** [TKvsDatabasePool::driverName(type)] *)
Definition driverName (type : Type_) : string := key kvsTypeHash (Type_to_int type).

(** The enumerators that [(TKvsDatabase::Type)t] yields for
    [t = 0, ..., kvsTypeHash()->count() - 1]. *)
Definition types : list Type_ := [MongoDB; Redis].

(** Index of a type in the per-type arrays. *)
Definition slot (type : Type_) : nat := Z.to_nat (Type_to_int type).

(** [sprintf("%02d", n)] *)
Definition fmt_02d (n : Z) : string :=
  let s := pretty n in
  if (String.length s <? 2)%nat then "0" +:+ s else s.

(** [QString().sprintf(CONN_NAME_FORMAT, type, i)] with
    [CONN_NAME_FORMAT = "kvs%02d_%d"]. *)
Definition connName (type i : Z) : string :=
  "kvs" +:+ fmt_02d type +:+ "_" +:+ pretty i.

(** The members of the pool object, together with the dictionary of
    [TKvsDatabase] it works on.  [timer] is the interval in milliseconds of
    the running [QBasicTimer], [None] while it is stopped. *)
Record Pool : Type := mkPool {
  cachedDatabase : list (list string);
  lastCachedTime : list Z;
  availableNames : list (list string);
  timer : option Z;
  dict : gmap string Data
}.

Definition setCached (type : nat) (s : list string) (p : Pool) : Pool :=
  mkPool (<[ type := s ]> (cachedDatabase p)) (lastCachedTime p)
         (availableNames p) (timer p) (dict p).

Definition setAvailable (type : nat) (s : list string) (p : Pool) : Pool :=
  mkPool (cachedDatabase p) (lastCachedTime p)
         (<[ type := s ]> (availableNames p)) (timer p) (dict p).

Definition setLastCached (type : nat) (time : Z) (p : Pool) : Pool :=
  mkPool (cachedDatabase p) (<[ type := time ]> (lastCachedTime p))
         (availableNames p) (timer p) (dict p).

Definition setDict (d : gmap string Data) (p : Pool) : Pool :=
  mkPool (cachedDatabase p) (lastCachedTime p) (availableNames p) (timer p) d.

Definition setTimer (interval : option Z) (p : Pool) : Pool :=
  mkPool (cachedDatabase p) (lastCachedTime p) (availableNames p) interval (dict p).

Section WithApp.
Context (app : TWebApplication).

(** [isKvsAvailable(type)]; the [default:] branch that throws is excluded by
    the type of [type]. *)
Definition isKvsAvailable (type : Type_) : bool :=
  match type with
  | MongoDB => isMongoDbAvailable app
  | Redis => isRedisAvailable app
  end.

(** [setDatabaseSettings(db, type, env)] reads the settings of [type] and
    copies them into the driver; only the lookup is recorded. *)
Definition setDatabaseSettings (type : Type_) : list Effect := [SettingsLookup type].

(** The inner loop of [init]:
    [for (int i = 0; i < maxConnects; ++i) { ... }], entered at [i] with
    [n = maxConnects - i] rounds left. *)
Fixpoint addDatabases (drvName : string) (type : Type_) (i : Z) (n : nat)
    (p : Pool) : Pool * list Effect :=
  match n with
  | O => (p, [])
  | S n' =>
      let '(db, dict') := addDatabase drvName (connName (Type_to_int type) i) (dict p) in
      let p := setDict dict' p in
      if negb (isValid db) then (p, [])  (* break *)
      else
        let tr := setDatabaseSettings type in
        let p := setAvailable (slot type)
                   (TStack.push (connectionName db) (availableNames p !!! slot type)) p in
        let '(p', tr') := addDatabases drvName type (i + 1) n' p in
        (p', tr ++ tr')
  end.

(** The outer loop of [init] over the entries of [kvsTypeHash]; the flag
    [aval] is threaded through. *)
Fixpoint initTypes (maxConnects : Z) (entries : list (string * Type_))
    (aval : bool) (p : Pool) : bool * Pool * list Effect :=
  match entries with
  | [] => (aval, p, [])
  | (drvName, type) :: rest =>
      if negb (isKvsAvailable type) then initTypes maxConnects rest aval p
      else
        let '(p1, tr1) := addDatabases drvName type 0 (Z.to_nat maxConnects) p in
        let '(aval', p2, tr2) := initTypes maxConnects rest true p1 in
        (aval', p2, tr1 ++ tr2)
  end.

(** [init()] on the freshly constructed pool.  [garbage] is the content of
    the [TAtomic<uint>] array, which [new] leaves unspecified. *)
Definition init (maxConnects : Z) (garbage : Z) : Pool * list Effect :=
  let n := length kvsTypeHash in
  let p := mkPool (replicate n []) (replicate n (uint garbage)) (replicate n []) None ∅ in
  let '(aval, p, tr) :=
    initTypes maxConnects kvsTypeHash false p in
  if aval then (setTimer (Some 10000%Z) p, tr) else (p, tr).

(** [instance()]: the singleton, built once; [init] returns at once on any
    later call because [cachedDatabase] is set. *)
Definition instance (garbage : Z) : Pool :=
  fst (init (maxNumberOfThreadsPerAppServer app) garbage).

(** One round of the [for (;;)] loop of [database(type)]. *)
Inductive Round : Type :=
  | Return (db : t) (p : Pool) (tr : list Effect)
  | Continue (p : Pool).

Definition databaseRound (type : Type_) (connects : bool) (p : Pool) : Round :=
  match TStack.pop (cachedDatabase p !!! slot type) with
  | Some (name, cache') =>
      let p := setCached (slot type) cache' p in
      let db := database name (dict p) in
      if isOpen db (dict p) then Return db p []
      else
        Continue (setAvailable (slot type)
                    (TStack.push name (availableNames p !!! slot type)) p)
  | None =>
      match TStack.pop (availableNames p !!! slot type) with
      | Some (name, stack') =>
          let p := setAvailable (slot type) stack' p in
          let db := database name (dict p) in
          if isOpen db (dict p) then Return db p []
          else
            let '(ok, dict') := open db connects (dict p) in
            if negb ok then Return invalid p [OpenAttempt name]
            else Return db (setDict dict' p) [OpenAttempt name]
      | None => Continue p
      end
  end.

(** The loop, cut after [fuel] rounds: [None] is a call that is still
    spinning. *)
Fixpoint databaseLoop (type : Type_) (connects : bool) (fuel : nat) (p : Pool)
  : option (t * Pool * list Effect) :=
  match fuel with
  | O => None
  | S fuel' =>
      match databaseRound type connects p with
      | Return db p' tr => Some (db, p', tr)
      | Continue p' => databaseLoop type connects fuel' p'
      end
  end.

(** [database(type)]: [connects] answers the one [db.open()] the call may
    make. *)
Definition database (type : Type_) (connects : bool) (fuel : nat) (p : Pool)
  : option (t * Pool * list Effect) :=
  if negb (isKvsAvailable type) then Some (invalid, p, [])
  else databaseLoop type connects fuel p.

End WithApp.

(** [pool(database)]: [now] is what [std::time(nullptr)] reads.  The result
    holds the new content of the reference argument. *)
Definition pool (database : t) (now : Z) (p : Pool) : Outcome (t * Pool) :=
  if isValid database then
    let type := value kvsTypeHash (TKvsDatabase.driverName database) (-1) in
    if (type <? 0)%Z then RuntimeException "No such KVS type"
    else
      let i := Z.to_nat type in
      let p := setCached i (TStack.push (connectionName database)
                              (cachedDatabase p !!! i)) p in
      let p := setLastCached i (uint now) p in
      Returned (invalid, p)
  else Returned (invalid, p).

Section WithApp.
Context (app : TWebApplication).

(** The [while] loop of [timerEvent] for one type, cut after [fuel] rounds. *)
Fixpoint closeExtra (type : Type_) (now : Z) (fuel : nat) (p : Pool)
  : Pool * list Effect :=
  match fuel with
  | O => (p, [])
  | S fuel' =>
      if (lastCachedTime p !!! slot type <? uint (uint now - 30))%Z then
        match TStack.pop (cachedDatabase p !!! slot type) with
        | Some (name, cache') =>
            let p := setCached (slot type) cache' p in
            let p := setDict (close (TKvsDatabase.database name (dict p)) (dict p)) p in
            let p := setAvailable (slot type)
                       (TStack.push name (availableNames p !!! slot type)) p in
            let '(p', tr) := closeExtra type now fuel' p in
            (p', CloseCall name :: tr)
        | None => (p, [])
        end
      else (p, [])
  end.

(** The [for] loop of [timerEvent] over the types. *)
Fixpoint closeExtraAll (ts : list Type_) (now : Z) (p : Pool) : Pool * list Effect :=
  match ts with
  | [] => (p, [])
  | type :: rest =>
      if negb (isKvsAvailable app type) then closeExtraAll rest now p
      else
        let '(p1, tr1) :=
          closeExtra type now (S (length (cachedDatabase p !!! slot type))) p in
        let '(p2, tr2) := closeExtraAll rest now p1 in
        (p2, tr1 ++ tr2)
  end.

(** [timerEvent(event)]: [own] is [event->timerId() == timer.timerId()];
    [QObject::timerEvent] does nothing. *)
Definition timerEvent (own : bool) (now : Z) (p : Pool) : Pool * list Effect :=
  if own then closeExtraAll types now p else (p, []).

End WithApp.

(** The two [while] loops of the destructor, each run until its stack is
    empty:
    [while (cache.pop(name)) { database(name).close(); removeDatabase(name); }]
    and [while (stack.pop(name)) { removeDatabase(name); }]. *)
Fixpoint closeAndRemove (cache : list string) (d : gmap string Data)
  : gmap string Data * list Effect :=
  match cache with
  | [] => (d, [])
  | name :: rest =>
      let d := close (TKvsDatabase.database name d) d in
      let d := removeDatabase name d in
      let '(d', tr) := closeAndRemove rest d in
      (d', CloseCall name :: tr)
  end.

Fixpoint removeNames (stack : list string) (d : gmap string Data)
  : gmap string Data :=
  match stack with
  | [] => d
  | name :: rest => removeNames rest (removeDatabase name d)
  end.

Section WithApp.
Context (app : TWebApplication).

(** The [for] loop of the destructor over
    [type = 0, ..., TKvsDatabase::TypeNum - 1]. *)
Fixpoint destroyTypes (ts : list Type_) (p : Pool) : Pool * list Effect :=
  match ts with
  | [] => (p, [])
  | type :: rest =>
      if negb (isKvsAvailable app type) then destroyTypes rest p
      else
        let '(d1, tr1) := closeAndRemove (cachedDatabase p !!! slot type) (dict p) in
        let p := setDict d1 (setCached (slot type) [] p) in
        let d2 := removeNames (availableNames p !!! slot type) (dict p) in
        let p := setDict d2 (setAvailable (slot type) [] p) in
        let '(p', tr') := destroyTypes rest p in
        (p', tr1 ++ tr')
  end.

(** [~TKvsDatabasePool()]; the arrays that [delete[]] frees are returned
    with the stacks as the loops left them. *)
Definition destructor (p : Pool) : Pool * list Effect :=
  destroyTypes types (setTimer None p).

End WithApp.

End TKvsDatabasePool.

(** ** The pool and its callers *)

(** The pool does not record which connections it has handed out.  To speak
    about them the pool is paired with the handles that callers hold: a
    handle enters [inUse] when [database] returns it valid and leaves when it
    is given back with [pool].  A connection may break at any time, and an
    operation that reads the clock takes the reading as its argument [now]. *)
Module PoolWorld.
Import TKvsDatabase TKvsDatabasePool.

Record World : Type := mkWorld {
  thePool : Pool;
  inUse : list TKvsDatabase.t
}.

(** The stacks of one type, as the spec names them. *)
Definition warm (type : Type_) (p : Pool) : list string :=
  cachedDatabase p !!! slot type.

Definition cold (type : Type_) (p : Pool) : list string :=
  availableNames p !!! slot type.

Definition lastReleasedAt (type : Type_) (p : Pool) : Z :=
  lastCachedTime p !!! slot type.

(** The three arrays have one entry per type, as [init] allocates them. *)
Definition wellFormed (p : Pool) : Prop :=
  length (cachedDatabase p) = length kvsTypeHash
  ∧ length (lastCachedTime p) = length kvsTypeHash
  ∧ length (availableNames p) = length kvsTypeHash.

(** The names [init] makes for a type: those of the [n] indices from [i]. *)
Fixpoint connNames (type : Type_) (i : Z) (n : nat) : list string :=
  match n with
  | O => []
  | S n' => connName (Type_to_int type) i :: connNames type (i + 1) n'
  end.

(** The dictionary after [close] was called on each of [names] in turn. *)
Definition closeAll (names : list string) (d : gmap string Data) : gmap string Data :=
  foldl (λ d name, close (TKvsDatabase.database name d) d) d names.

(** Whether a tick at [now] reclaims the warm stack of a type, and the names
    it then takes. *)
Definition reclaims (app : TWebApplication) (now : Z) (p : Pool) (type : Type_) : bool :=
  isKvsAvailable app type && (lastReleasedAt type p <? uint (uint now - 30))%Z.

Definition reclaimed (app : TWebApplication) (now : Z) (p : Pool) (type : Type_)
  : list string :=
  if reclaims app now p type then warm type p else [].

(** The handles of one type that callers hold. *)
Definition inUseOf (type : Type_) (held : list TKvsDatabase.t) : list TKvsDatabase.t :=
  filter (λ db, TKvsDatabase.driverName db = TKvsDatabasePool.driverName type) held.

(** Names pooled or held for one type, and their number. *)
Definition namesOf (type : Type_) (w : World) : list string :=
  warm type (thePool w) ++ cold type (thePool w)
  ++ map connectionName (inUseOf type (inUse w)).

Definition total (type : Type_) (w : World) : nat :=
  length (warm type (thePool w)) + length (cold type (thePool w))
  + length (inUseOf type (inUse w)).

(** Every place a name can be in, over all types. *)
Definition allNames (w : World) : list string :=
  warm MongoDB (thePool w) ++ cold MongoDB (thePool w)
  ++ warm Redis (thePool w) ++ cold Redis (thePool w)
  ++ map connectionName (inUse w).

(** The capacity of a type, fixed by [init]: [maxConnects] names for a type
    that is available, none otherwise. *)
Definition capacity (app : TWebApplication) (type : Type_) : nat :=
  if isKvsAvailable app type then Z.to_nat (maxNumberOfThreadsPerAppServer app) else 0.

(** A name is registered for a type when the dictionary serves it with the
    driver of that type. *)
Definition registered (p : Pool) (type : Type_) (name : string) : Prop :=
  TKvsDatabase.database name (dict p) = mkHandle name (Some (TKvsDatabasePool.driverName type)).

(** What holds of the pool and its callers between two operations: the
    arrays have their size, the pooled names are registered for the type of
    their stack, and each held handle is the valid handle of the dictionary
    on its name. *)
Definition invariant (w : World) : Prop :=
  wellFormed (thePool w)
  ∧ (∀ type name,
       name ∈ warm type (thePool w) ++ cold type (thePool w) →
       registered (thePool w) type name)
  ∧ (∀ db, db ∈ inUse w →
       isValid db = true
       ∧ TKvsDatabase.database (connectName db) (dict (thePool w)) = db).

(** One step is one whole call of [database], of [pool] on a held handle or
    of [timerEvent], or a connection that breaks.  The calls of two threads
    are not taken apart here; what holds when they are, as when a tick comes
    between the push and the store of [pool], is the matter of
    [Interleaving] below. *)
Inductive step (app : TWebApplication) (w : World) : World → Prop :=
  | step_acquire type connects fuel db p' tr :
      database app type connects fuel (thePool w) = Some (db, p', tr) →
      step app w (mkWorld p' (if isValid db then db :: inUse w else inUse w))
  | step_release held1 db held2 now nodb p' :
      inUse w = held1 ++ db :: held2 →
      pool db now (thePool w) = Returned (nodb, p') →
      step app w (mkWorld p' (held1 ++ held2))
  | step_tick now p' tr :
      timerEvent app true now (thePool w) = (p', tr) →
      step app w (mkWorld p' (inUse w))
  | step_break name :
      step app w (mkWorld (setDict (setOpened name false (dict (thePool w))) (thePool w))
                          (inUse w)).

Inductive reachable (app : TWebApplication) (garbage : Z) : World → Prop :=
  | reachable_init : reachable app garbage (mkWorld (instance app garbage) [])
  | reachable_step w w' :
      reachable app garbage w → step app w w' → reachable app garbage w'.

Inductive steps (app : TWebApplication) : World → World → Prop :=
  | steps_refl w : steps app w w
  | steps_step w1 w2 w3 : steps app w1 w2 → step app w2 w3 → steps app w1 w3.

End PoolWorld.

(** ** The pool under interleaving *)

(** The same three operations, cut into pieces that hold one pop or one push
    at most: a thread is at a point of [database], [pool] or [timerEvent],
    and one step of the system is one such piece run by one thread.  A name
    that a thread has popped and not yet pushed or returned is in no stack;
    it is in the local variable [name] of that thread. *)
Module Interleaving.
Import TKvsDatabase TKvsDatabasePool PoolWorld.

(** Where a thread stands. *)
Inductive Pc : Type :=
  | Idle
  | AtLoop (type : Type_)                       (* database: top of [for (;;)] *)
  | CachePopped (type : Type_) (name : string)  (* database: [cache.pop] gave [name] *)
  | CacheEmpty (type : Type_)                   (* database: [cache.pop] gave nothing *)
  | StackPopped (type : Type_) (name : string)  (* database: [stack.pop] gave [name] *)
  | Pushed (type : Z) (now : Z)                 (* pool: the name is pushed *)
  | AtTypes (ts : list Type_)                   (* timerEvent: types still to visit *)
  | Closing (type : Type_) (name : string) (ts : list Type_)
                                                (* timerEvent: [cache.pop] gave [name] *).

(** The name in the local variable of a thread. *)
Definition inFlight (pc : Pc) : list string :=
  match pc with
  | CachePopped _ name | StackPopped _ name | Closing _ name _ => [name]
  | _ => []
  end.

(** One piece: the thread moves from one point to the next, and the pool
    and the handles in the hands of callers change with it.  The clock is
    read anew each time the condition of the [while] loop of [timerEvent] is
    tested. *)
Inductive action (app : TWebApplication)
  : Pc → Pool → list TKvsDatabase.t → Pc → Pool → list TKvsDatabase.t → Prop :=
  (* database(type) *)
  | call_database type p held :
      isKvsAvailable app type = true →
      action app Idle p held (AtLoop type) p held
  | cache_pop type name rest p held :
      warm type p = name :: rest →
      action app (AtLoop type) p held
             (CachePopped type name) (setCached (slot type) rest p) held
  | cache_pop_none type p held :
      warm type p = [] →
      action app (AtLoop type) p held (CacheEmpty type) p held
  | cached_open type name p held :
      isOpen (TKvsDatabase.database name (dict p)) (dict p) = true →
      action app (CachePopped type name) p held
             Idle p (TKvsDatabase.database name (dict p) :: held)
  | cached_broken type name p held :
      isOpen (TKvsDatabase.database name (dict p)) (dict p) = false →
      action app (CachePopped type name) p held
             (AtLoop type) (setAvailable (slot type) (TStack.push name (cold type p)) p) held
  | stack_pop type name rest p held :
      cold type p = name :: rest →
      action app (CacheEmpty type) p held
             (StackPopped type name) (setAvailable (slot type) rest p) held
  | stack_pop_none type p held :
      cold type p = [] →
      action app (CacheEmpty type) p held (AtLoop type) p held
  | stack_open type name p held :
      isOpen (TKvsDatabase.database name (dict p)) (dict p) = true →
      action app (StackPopped type name) p held
             Idle p (TKvsDatabase.database name (dict p) :: held)
  | stack_opened type name connects dict' p held :
      isOpen (TKvsDatabase.database name (dict p)) (dict p) = false →
      open (TKvsDatabase.database name (dict p)) connects (dict p) = (true, dict') →
      action app (StackPopped type name) p held
             Idle (setDict dict' p) (TKvsDatabase.database name (dict p) :: held)
  | stack_open_failed type name connects dict' p held :
      isOpen (TKvsDatabase.database name (dict p)) (dict p) = false →
      open (TKvsDatabase.database name (dict p)) connects (dict p) = (false, dict') →
      action app (StackPopped type name) p held Idle p held
  (* pool(database) *)
  | call_pool db held1 held2 now p :
      isValid db = true →
      (0 ≤ value kvsTypeHash (TKvsDatabase.driverName db) (-1))%Z →
      let type := value kvsTypeHash (TKvsDatabase.driverName db) (-1) in
      action app Idle p (held1 ++ db :: held2)
             (Pushed type now)
             (setCached (Z.to_nat type)
                (TStack.push (connectionName db) (cachedDatabase p !!! Z.to_nat type)) p)
             (held1 ++ held2)
  | pool_store type now p held :
      action app (Pushed type now) p held
             Idle (setLastCached (Z.to_nat type) (uint now) p) held
  (* timerEvent(event) *)
  | call_timerEvent p held :
      action app Idle p held (AtTypes types) p held
  | timer_unavailable type ts p held :
      isKvsAvailable app type = false →
      action app (AtTypes (type :: ts)) p held (AtTypes ts) p held
  | timer_recent type ts now p held :
      isKvsAvailable app type = true →
      (lastReleasedAt type p <? uint (uint now - 30))%Z = false →
      action app (AtTypes (type :: ts)) p held (AtTypes ts) p held
  | timer_pop type ts now name rest p held :
      isKvsAvailable app type = true →
      (lastReleasedAt type p <? uint (uint now - 30))%Z = true →
      warm type p = name :: rest →
      action app (AtTypes (type :: ts)) p held
             (Closing type name ts) (setCached (slot type) rest p) held
  | timer_pop_none type ts now p held :
      isKvsAvailable app type = true →
      (lastReleasedAt type p <? uint (uint now - 30))%Z = true →
      warm type p = [] →
      action app (AtTypes (type :: ts)) p held (AtTypes ts) p held
  | timer_close type name ts p held :
      let p1 := setDict (close (TKvsDatabase.database name (dict p)) (dict p)) p in
      action app (Closing type name ts) p held
             (AtTypes (type :: ts))
             (setAvailable (slot type) (TStack.push name (cold type p1)) p1) held
  | timer_done p held :
      action app (AtTypes []) p held Idle p held
  (* the backend *)
  | connection_breaks pc name p held :
      action app pc p held pc (setDict (setOpened name false (dict p)) p) held.

Record System : Type := mkSystem {
  sharedPool : Pool;
  threads : list Pc;
  handles : list TKvsDatabase.t
}.

Inductive step (app : TWebApplication) : System → System → Prop :=
  | step_thread before pc after p held pc' p' held' :
      action app pc p held pc' p' held' →
      step app (mkSystem p (before ++ pc :: after) held)
               (mkSystem p' (before ++ pc' :: after) held').

Inductive reachable (app : TWebApplication) (garbage : Z) : System → Prop :=
  | reachable_start n :
      reachable app garbage (mkSystem (instance app garbage) (replicate n Idle) [])
  | reachable_step s s' :
      reachable app garbage s → step app s s' → reachable app garbage s'.

(** Every place a name can be in. *)
Definition names (s : System) : list string :=
  allNames (mkWorld (sharedPool s) (handles s)) ++ concat (map inFlight (threads s)).

(** Runs of one thread while the others stand still. *)
Inductive actions (app : TWebApplication)
  : Pc → Pool → list TKvsDatabase.t → Pc → Pool → list TKvsDatabase.t → Prop :=
  | actions_refl pc p held : actions app pc p held pc p held
  | actions_step pc1 p1 held1 pc2 p2 held2 pc3 p3 held3 :
      action app pc1 p1 held1 pc2 p2 held2 →
      actions app pc2 p2 held2 pc3 p3 held3 →
      actions app pc1 p1 held1 pc3 p3 held3.

End Interleaving.

(** ** TThreadApplicationServer (src/tthreadapplicationserver.cpp) *)

Module TThreadApplicationServer.

(** What the constructor reads from the application settings:
    [MPM.<mpm>.MaxThreadsPerAppServer] and [MPM.<mpm>.MaxServers], each
    [None] when the key is absent.  [QVariant::toInt] of an absent value is
    [0]. *)
Record TAppSettings : Set := mkSettings {
  MaxThreadsPerAppServer : option Z;
  MaxServers : option Z
}.

Definition readValue (v : option Z) (defaultValue : Z) : Z :=
  match v with
  | Some x => x
  | None => defaultValue
  end.

(** A [TActionThread] is known by the order in which it was created. *)
Definition TActionThread : Set := nat.

(** The server: [maxThreads], the static [threadPool] stack, and (not in the
    code) the threads that were started and have not finished. *)
Record Server : Set := mkServer {
  maxThreads : Z;
  threadPool : list TActionThread;
  running : list TActionThread
}.

(** The loop [for (int i = 0; i < maxThreads; i++)] of the constructor,
    entered at [i] with [n = maxThreads - i] rounds left. *)
Fixpoint createThreads (i : nat) (n : nat) (stack : list TActionThread)
  : list TActionThread :=
  match n with
  | O => stack
  | S n' => createThreads (S i) n' (TStack.push i stack)
  end.

(** The constructor. *)
Definition construct (settings : TAppSettings) : Server :=
  let maxThreads := readValue (MaxThreadsPerAppServer settings) 0 in
  let maxThreads :=
    if (maxThreads =? 0)%Z then readValue (MaxServers settings) 128 else maxThreads in
  mkServer maxThreads (createThreads 0 (Z.to_nat maxThreads) []) [].

(** [incomingConnection(socketDescriptor)]: one attempt of the [while] loop.
    [None] is the round that finds the stack empty, yields and sleeps. *)
Definition incomingConnection (s : Server) : option (TActionThread * Server) :=
  match TStack.pop (threadPool s) with
  | Some (thread, rest) =>
      Some (thread, mkServer (maxThreads s) rest (thread :: running s))
  | None => None
  end.

(** The slot connected to [TActionThread::finished]:
    [threadPoolPtr()->push(thread)]. *)
Definition finished (thread : TActionThread) (s : Server) : Server :=
  mkServer (maxThreads s) (TStack.push thread (threadPool s))
           (remove Nat.eq_dec thread (running s)).

Inductive step (s : Server) : Server → Prop :=
  | step_incoming thread s' :
      incomingConnection s = Some (thread, s') → step s s'
  | step_finished thread :
      thread ∈ running s → step s (finished thread s).

Inductive reachable (settings : TAppSettings) : Server → Prop :=
  | reachable_construct : reachable settings (construct settings)
  | reachable_step s s' : reachable settings s → step s s' → reachable settings s'.

(** *** Starting and stopping *)

(** The members that [start] and [stop] work on: whether the [QTcpServer]
    listens (it does from a [setSocketDescriptor] that succeeds until
    [close]), the descriptor, and the interval of [reloadTimer] while it
    runs. *)
Record Listener : Set := mkListener {
  isListening : bool;
  listenSocket : Z;
  reloadTimer : option Z
}.

(** Calls that [start] and [stop] make outside the members, in the order
    they are made. *)
Inductive Call : Set :=
  | LoadLibraries                   (* loadLibraries() *)
  | SetSocketDescriptor (sd : Z)    (* QTcpServer::setSocketDescriptor(sd) *)
  | StaticInitialize                (* TStaticInitializeThread::exec() *)
  | Close                           (* QTcpServer::close() *)
  | WaitForAllDone (msec : Z)       (* TActionThread::waitForAllDone(msec) *)
  | StaticRelease                   (* TStaticReleaseThread::exec() *).

(** [setAutoReloadingEnabled(enable)] and [isAutoReloadingEnabled()] *)
Definition setAutoReloadingEnabled (enable : bool) (l : Listener) : Listener :=
  mkListener (isListening l) (listenSocket l) (if enable then Some 500%Z else None).

Definition isAutoReloadingEnabled (l : Listener) : bool :=
  match reloadTimer l with
  | Some _ => true
  | None => false
  end.

(** [start(debugMode)]: [loadLibraries] and [setSocketDescriptor] are what
    the calls of these names answer; the second is made only when
    [listenSocket <= 0] is false. *)
Definition start (debugMode : bool) (loadLibraries setSocketDescriptor : bool)
    (l : Listener) : bool * Listener * list Call :=
  if isListening l then (true, l, [])
  else if negb loadLibraries && debugMode then (false, l, [LoadLibraries])
  else if (listenSocket l <=? 0)%Z then (false, l, [LoadLibraries])
  else if negb setSocketDescriptor
  then (false, l, [LoadLibraries; SetSocketDescriptor (listenSocket l)])
  else (true, mkListener true (listenSocket l) (reloadTimer l),
        [LoadLibraries; SetSocketDescriptor (listenSocket l); StaticInitialize]).

(** [stop()] *)
Definition stop (l : Listener) : Listener * list Call :=
  if negb (isListening l) then (l, [])
  else
    let l := mkListener false 0 (reloadTimer l) in
    (l, [Close]
        ++ (if negb (isAutoReloadingEnabled l) then [WaitForAllDone 10000] else [])
        ++ [StaticRelease]).

End TThreadApplicationServer.

(** ** TCacheSQLiteStore (src/tcachesqlitestore.cpp) *)

(** The table is the list of its rows and each SQL statement of the source is
    given its meaning on that list.  Every query is taken to succeed, so the
    branches that log an SQLite error and return [-1] are left out, except
    the guard [num < 1] of [removeOlder]. *)
Module TCacheSQLiteStore.

(** Conversion of an integer to [double], and of a [double] to an integer
    (towards zero), as C++ does them implicitly. *)
Definition Z_to_double (z : Z) : float :=
  if (z <? 0)%Z then PrimFloat.opp (PrimFloat.of_uint63 (Uint63.of_Z (- z)))
  else PrimFloat.of_uint63 (Uint63.of_Z z).

Definition double_to_int (f : float) : Z :=
  match Prim2SF f with
  | S754_finite s m e =>
      let v := if (0 <=? e)%Z then (Z.pos m * 2 ^ e)%Z else (Z.pos m / 2 ^ (- e))%Z in
      if s then (- v)%Z else v
  | _ => 0%Z
  end.

(** The literals [0.3] and [0.8] as binary64 values. *)
Definition double_0_3 : float := 0x1.3333333333333p-2%float.
Definition double_0_8 : float := 0x1.999999999999ap-1%float.

(** [constexpr int PAGESIZE = 4096] *)
Definition PAGESIZE : Z := 4096.

(** A row of the table [kb]: its ROWID and the columns [k], [t], [b]. *)
Record Row : Set := mkRow { ROWID : Z; k : string; t : Z; b : string }.

#[global] Instance Row_eq_dec : EqDecision Row.
Proof. solve_decision. Defined.

(** The store: the threshold given to the constructor, the rows of the table
    in ROWID order, and the size of the database file in pages. *)
Record Store : Set := mkStore {
  _thresholdFileSize : Z;
  rows : list Row;
  page_size : Z;
  page_count : Z
}.

Definition setRows (rs : list Row) (s : Store) : Store :=
  mkStore (_thresholdFileSize s) rs (page_size s) (page_count s).

(** [order by t asc]: insertion sort; rows with the same [t] stay in ROWID
    order. *)
Fixpoint insertByT (r : Row) (l : list Row) : list Row :=
  match l with
  | [] => [r]
  | x :: l' => if (t r <=? t x)%Z then r :: l else x :: insertByT r l'
  end.

Definition orderByT (rs : list Row) : list Row := foldr insertByT [] rs.

(** [select ROWID from kb order by t asc limit :num] *)
Definition selectOldest (num : Z) (rs : list Row) : list Z :=
  map ROWID (take (Z.to_nat num) (orderByT rs)).

(** Every row of [l] expires no later than every row of [k]. *)
Definition allBefore (l k : list Row) : Prop :=
  ∀ r r', r ∈ l → r' ∈ k → (t r ≤ t r')%Z.

(** Rows in the order of their [t]. *)
Inductive ascending : list Row → Prop :=
  | ascending_nil : ascending []
  | ascending_cons r l : allBefore [r] l → ascending l → ascending (r :: l).

Section WithSQLite.
(** The number of pages SQLite needs for a table once the file is compacted;
    between two [vacuum]s the file keeps the pages it has. *)
Context (pagesFor : list Row → Z).

(** [count()]: [select count(1) from kb] *)
Definition count (s : Store) : Z := Z.of_nat (length (rows s)).

(** [removeOlder(num)] *)
Definition removeOlder (num : Z) (s : Store) : Z * Store :=
  if (num <? 1)%Z then (-1, s)%Z
  else
    let gone := selectOldest num (rows s) in
    let rs := filter (λ r, ROWID r ∉ gone) (rows s) in
    (Z.of_nat (length (rows s) - length rs), setRows rs s).

(** [removeOlderThan(timestamp)]: [delete from kb where t < :ts] *)
Definition removeOlderThan (timestamp : Z) (s : Store) : Z * Store :=
  let rs := filter (λ r, ¬ (t r < timestamp)%Z) (rows s) in
  (Z.of_nat (length (rows s) - length rs), setRows rs s).

(** [vacuum()] *)
Definition vacuum (s : Store) : Store :=
  mkStore (_thresholdFileSize s) (rows s) (page_size s) (pagesFor (rows s)).

(** [dbSize()]: [pragma page_size] times [pragma page_count] *)
Definition dbSize (s : Store) : Z := (page_size s * page_count s)%Z.

(** The argument [count() * 0.3] of [removeOlder], converted to [int]. *)
Definition thirtyPercent (cnt : Z) : Z :=
  double_to_int (PrimFloat.mul (Z_to_double cnt) double_0_3).

(** [dbSize() < _thresholdFileSize * 0.8], compared as [double]s. *)
Definition under80 (s : Store) : bool :=
  PrimFloat.ltb (Z_to_double (dbSize s))
                (PrimFloat.mul (Z_to_double (_thresholdFileSize s)) double_0_8).

(** The loop [for (int i = 0; i < 3; i++)] of [gc], with [n = 3 - i] rounds
    left. *)
Fixpoint gcLoop (n : nat) (removed : Z) (s : Store) : Z * Store :=
  match n with
  | O => (removed, s)
  | S n' =>
      let '(cnt, s) := removeOlder (thirtyPercent (count s)) s in
      let removed := (removed + cnt)%Z in
      let s := vacuum s in
      if under80 s then (removed, s)  (* break *)
      else gcLoop n' removed s
  end.

(** [gc()]: [now] is what [QDateTime::currentMSecsSinceEpoch()] reads. *)
Definition gc (now : Z) (s : Store) : Store :=
  let '(removed, s) := removeOlderThan now s in
  let s := vacuum s in
  if (0 <? _thresholdFileSize s)%Z && (_thresholdFileSize s <? dbSize s)%Z
  then snd (gcLoop 3 removed s)
  else s.

(** One round of the loop of [gc], and the state the check of [gc] is made
    on. *)
Definition gcRound (s : Store) : Store :=
  vacuum (snd (removeOlder (thirtyPercent (count s)) s)).

Definition afterExpiry (now : Z) (s : Store) : Store :=
  vacuum (snd (removeOlderThan now s)).

End WithSQLite.

(** *** The entries *)

(** A sum of two [qint64]: a result outside the range of the type wraps
    round. *)
Definition qint64 (z : Z) : Z := ((z + 2 ^ 63) mod 2 ^ 64 - 2 ^ 63)%Z.

(** The row with a key: [select ... from kb where k = :key]. *)
Definition rowOf (key : string) (rs : list Row) : option Row :=
  List.find (λ r, bool_decide (k r = key)) rs.

(** The ROWID SQLite gives to a new row: one more than the largest in use. *)
Definition maxRowid (rs : list Row) : Z := foldr (λ r m, Z.max (ROWID r) m) 0%Z rs.

(** What holds of the table by its declaration: [k] is the primary key and
    ROWIDs are not shared. *)
Definition tableOk (rs : list Row) : Prop :=
  NoDup (map k rs) ∧ NoDup (map ROWID rs).

Section Entries.
(** [pagesGrown] is the number of pages of the file after a row is added to
    a file of that many pages, which SQLite decides.  A statement is taken
    to run ([query.exec()] answers [true]) unless it breaks the primary key
    of the table. *)
Context (pagesFor : list Row → Z) (pagesGrown : Z → list Row → Z).

(** [exists(key)]:
    [select exists(select 1 from kb where k = :name limit 1)] *)
Definition exists_ (key : string) (s : Store) : bool :=
  match rowOf key (rows s) with
  | Some _ => true
  | None => false
  end.

(** [read(key, blob, timestamp)]: the result and the content of the two
    reference arguments after the call. *)
Definition read (key : string) (blob : string) (timestamp : Z) (s : Store)
  : bool * string * Z :=
  if bool_decide (key = "") then (false, blob, timestamp)
  else
    match rowOf key (rows s) with
    | Some r => (true, b r, t r)
    | None => (true, blob, timestamp)
    end.

(** [write(key, blob, timestamp)]: the [insert] fails on a key that is in
    the table, [k] being the primary key. *)
Definition write (key : string) (blob : string) (timestamp : Z) (s : Store)
  : bool * Store :=
  if bool_decide (key = "") then (false, s)
  else
    match rowOf key (rows s) with
    | Some _ => (false, s)
    | None =>
        let rs := rows s ++ [mkRow (maxRowid (rows s) + 1) key timestamp blob] in
        (true, mkStore (_thresholdFileSize s) rs (page_size s)
                       (pagesGrown (page_count s) rs))
    end.

(** [remove(key)]: [delete from kb where k = :key] *)
Definition remove (key : string) (s : Store) : bool * Store :=
  if bool_decide (key = "") then (false, s)
  else (true, setRows (filter (λ r, k r ≠ key) (rows s)) s).

(** [get(key)]: [now] is what [QDateTime::currentMSecsSinceEpoch()] reads. *)
Definition get (key : string) (now : Z) (s : Store) : string * Store :=
  let '(ok, value, expire) := read key "" 0 s in
  if ok then
    if (expire <? now)%Z then ("", snd (remove key s))
    else (value, s)
  else (value, s).

(** [set(key, value, msecs)]: [now] is what
    [QDateTime::currentMSecsSinceEpoch()] reads, and the sum [now + msecs]
    is a sum of two [qint64]. *)
Definition set (key : string) (value : string) (msecs : Z) (now : Z) (s : Store)
  : bool * Store :=
  if bool_decide (key = "") || (msecs <=? 0)%Z then (false, s)
  else
    let s := snd (remove key s) in
    let expire := qint64 (now + msecs) in
    write key value expire s.

(** [removeAll()]: [delete from kb] *)
Definition removeAll (s : Store) : Z * Store :=
  (Z.of_nat (length (rows s)), setRows [] s).

(** [clear()] *)
Definition clear (s : Store) : Store :=
  vacuum pagesFor (snd (removeAll s)).

End Entries.

End TCacheSQLiteStore.

(** ** Sample configurations *)

Module Samples.
Import TKvsDatabase TKvsDatabasePool PoolWorld.

(** Redis is configured, MongoDB is not; one and two worker threads. *)
Definition app1 : TWebApplication := mkApp false true 1.
Definition app2 : TWebApplication := mkApp false true 2.

Definition pool1 : Pool := instance app1 0.
Definition pool2 : Pool := instance app2 0.

(** The first connection of Redis and the handle on it. *)
Definition redis0 : TKvsDatabase.t := mkHandle "kvs01_0" (Some "REDIS").
Definition redis1 : TKvsDatabase.t := mkHandle "kvs01_1" (Some "REDIS").

(** Both connections of Redis were taken and opened: callers hold them. *)
Definition heldPool : Pool :=
  match database app2 Redis true 1 pool2 with
  | Some (_, p, _) =>
      match database app2 Redis true 1 p with
      | Some (_, p', _) => p'
      | None => pool2
      end
  | None => pool2
  end.

(** The only connection of [app1] was asked for and the backend refused it. *)
Definition leakPool : Pool :=
  match database app1 Redis false 1 pool1 with
  | Some (_, p, _) => p
  | None => pool1
  end.




(** [redis0] was given back: it is open and on the warm stack. *)
Definition warmPool : Pool :=
  match pool redis0 1000 heldPool with
  | Returned (_, p) => p
  | RuntimeException _ => heldPool
  end.

(** A cache of twenty rows that expire at 1001, ..., 1020, in a file that
    takes one page per row and one more; the threshold is 60000 bytes. *)
Definition pagesFor (rs : list TCacheSQLiteStore.Row) : Z := 1 + Z.of_nat (length rs).

Definition cache20 : TCacheSQLiteStore.Store :=
  TCacheSQLiteStore.mkStore 60000
    (map (λ i, TCacheSQLiteStore.mkRow (Z.of_nat i) (pretty i) (1000 + Z.of_nat i) "")
         (seq 1 20))
    TCacheSQLiteStore.PAGESIZE 21.

(** The worlds of these pools. *)
Definition world1 : World := mkWorld pool1 [].
Definition leakWorld : World := mkWorld leakPool [].
Definition world2 : World := mkWorld pool2 [].
Definition heldWorld : World := mkWorld heldPool [redis0; redis1].

End Samples.

(** * Properties of the connection pool *)

Section PoolOperations.
Import TKvsDatabase TKvsDatabasePool PoolWorld.

(** Splits the per-type arrays of a well-formed pool into their two slots. *)
Ltac slots p H :=
  destruct p as [cd lt an tm dc];
  destruct H as (Hcd & Hlt & Han); simpl in Hcd, Hlt, Han;
  destruct cd as [|cd0 [|cd1 [|? ?]]]; try discriminate Hcd;
  destruct lt as [|lt0 [|lt1 [|? ?]]]; try discriminate Hlt;
  destruct an as [|an0 [|an1 [|? ?]]]; try discriminate Han;
  clear Hcd Hlt Han.

Lemma value_driverName type : value kvsTypeHash (driverName type) (-1) = Type_to_int type.
Proof. by destruct type. Qed.

Lemma driverName_inj type1 type2 : driverName type1 = driverName type2 → type1 = type2.
Proof. by destruct type1, type2. Qed.

Lemma uint_small (x : Z) : (0 ≤ x < 2 ^ 32)%Z → uint x = x.
Proof. intros H. unfold uint. by apply Z.mod_small. Qed.

Lemma elem_of_rev {A} (x : A) (l : list A) : x ∈ rev l ↔ x ∈ l.
Proof. by rewrite <- Permutation_rev. Qed.

Lemma sublist_map {A B} (f : A → B) (l k : list A) :
  sublist l k → sublist (map f l) (map f k).
Proof. induction 1; simpl; by constructor. Qed.

Lemma elem_of_rev_1 {A} (x : A) (l : list A) : x ∈ rev l → x ∈ l.
Proof. apply elem_of_rev. Qed.

(** *** Reading the arrays after a write *)

Lemma wellFormed_setCached i s p : wellFormed p → wellFormed (setCached i s p).
Proof. intros (? & ? & ?). repeat split; simpl; try done. by rewrite length_insert. Qed.

Lemma wellFormed_setAvailable i s p : wellFormed p → wellFormed (setAvailable i s p).
Proof. intros (? & ? & ?). repeat split; simpl; try done. by rewrite length_insert. Qed.

Lemma wellFormed_setLastCached i x p : wellFormed p → wellFormed (setLastCached i x p).
Proof. intros (? & ? & ?). repeat split; simpl; try done. by rewrite length_insert. Qed.

Lemma wellFormed_setDict d p : wellFormed p → wellFormed (setDict d p).
Proof. by intros (? & ? & ?). Qed.

Lemma warm_setCached type type' s p :
  wellFormed p →
  warm type' (setCached (slot type) s p) = if decide (type' = type) then s else warm type' p.
Proof. intros Hwf. slots p Hwf. by destruct type, type'. Qed.

Lemma cold_setAvailable type type' s p :
  wellFormed p →
  cold type' (setAvailable (slot type) s p) = if decide (type' = type) then s else cold type' p.
Proof. intros Hwf. slots p Hwf. by destruct type, type'. Qed.

(** [setOpened] changes whether a connection is open and nothing else about
    the handles. *)
Lemma database_setOpened name name' b (d : gmap string Data) :
  TKvsDatabase.database name' (setOpened name b d) = TKvsDatabase.database name' d.
Proof.
  unfold setOpened, TKvsDatabase.database.
  destruct (d !! name) as [e|] eqn:He; [|done].
  destruct (decide (name = name')) as [->|Hne].
  - by rewrite lookup_insert_eq, He.
  - by rewrite lookup_insert_ne.
Qed.

Lemma database_close db name' (d : gmap string Data) :
  TKvsDatabase.database name' (close db d) = TKvsDatabase.database name' d.
Proof. unfold close. destruct (drv db); [apply database_setOpened|done]. Qed.

Lemma database_connectName name (d : gmap string Data) :
  connectName (TKvsDatabase.database name d) = name.
Proof. unfold TKvsDatabase.database. by destruct (d !! name). Qed.

(** *** What one call of [database] moves *)

(** A call that returns took exactly one name out of the two stacks of its
    type (after moving broken warm names to the cold stack), left the other
    types alone, and either found the connection open, or tried once to open
    it. *)
Lemma databaseLoop_moves type connects fuel p db p' tr :
  wellFormed p →
  databaseLoop type connects fuel p = Some (db, p', tr) →
  wellFormed p'
  ∧ (∀ type', type' ≠ type → warm type' p' = warm type' p ∧ cold type' p' = cold type' p)
  ∧ lastCachedTime p' = lastCachedTime p
  ∧ timer p' = timer p
  ∧ (∀ n, TKvsDatabase.database n (dict p') = TKvsDatabase.database n (dict p))
  ∧ ∃ name,
      warm type p ++ cold type p ≡ₚ name :: warm type p' ++ cold type p'
      ∧ ((tr = [] ∧ db = TKvsDatabase.database name (dict p)
          ∧ isOpen db (dict p) = true ∧ dict p' = dict p)
         ∨ (tr = [OpenAttempt name]
            ∧ warm type p' = []
            ∧ isOpen (TKvsDatabase.database name (dict p)) (dict p) = false
            ∧ if connects && isValid (TKvsDatabase.database name (dict p))
              then db = TKvsDatabase.database name (dict p)
                   ∧ dict p' = setOpened name true (dict p)
              else db = invalid ∧ dict p' = dict p)).
Proof.
  revert p. induction fuel as [|fuel IH]; intros p Hwf Hloop; [done|].
  simpl in Hloop. unfold databaseRound in Hloop.
  fold (warm type p) in Hloop.
  destruct (warm type p) as [|name rest] eqn:Hwarm; simpl in Hloop.
  - fold (cold type p) in Hloop.
    destruct (cold type p) as [|name stack'] eqn:Hcold; simpl in Hloop.
    + (* both stacks empty: the round changes nothing *)
      destruct (IH p Hwf Hloop) as (Hwf' & Hoth & Hlt & Htm & Hdb & name & Hperm & _).
      rewrite Hwarm, Hcold in Hperm. simpl in Hperm.
      by apply Permutation_nil_cons in Hperm.
    + set (h := TKvsDatabase.database name (dict p)) in *.
      assert (Hwf1 : wellFormed (setAvailable (slot type) stack' p))
        by by apply wellFormed_setAvailable.
      assert (Hoth : ∀ type', type' ≠ type →
                warm type' (setAvailable (slot type) stack' p) = warm type' p
                ∧ cold type' (setAvailable (slot type) stack' p) = cold type' p).
      { intros type' Hne. split; [done|].
        rewrite cold_setAvailable by done. by rewrite decide_False. }
      assert (Hcold1 : cold type (setAvailable (slot type) stack' p) = stack').
      { rewrite cold_setAvailable by done. by rewrite decide_True. }
      destruct (isOpen h (dict p)) eqn:Hopen.
      * simplify_eq. split_and!; try done.
        exists name. split.
        { change (warm type (setAvailable (slot type) stack' p)) with (warm type p).
          by rewrite Hwarm, Hcold1. }
        left. done.
      * unfold open in Hloop. unfold isValid. subst h. clear IH.
        destruct (drv (TKvsDatabase.database name (dict p))) eqn:Hdrv;
          [destruct connects|]; simpl in Hloop; simplify_eq.
        -- split_and!; try done.
           { intros n. simpl. apply database_setOpened. }
           exists name. split.
           { change (warm type (setDict _ _)) with (warm type p).
             change (cold type (setDict ?d ?q)) with (cold type q).
             by rewrite Hwarm, Hcold1. }
           right. split_and!; try done.
           simpl. rewrite Hdrv. simpl.
           by rewrite (database_connectName name (dict p)).
        -- split_and!; try done.
           exists name. split.
           { change (warm type (setAvailable (slot type) stack' p)) with (warm type p).
             by rewrite Hwarm, Hcold1. }
           right. done.
        -- split_and!; try done.
           exists name. split.
           { change (warm type (setAvailable (slot type) stack' p)) with (warm type p).
             by rewrite Hwarm, Hcold1. }
           right. split_and!; try done. by rewrite Hdrv, andb_false_r.
  - set (h := TKvsDatabase.database name (dict p)) in *.
    assert (Hwf1 : wellFormed (setCached (slot type) rest p))
      by by apply wellFormed_setCached.
    assert (Hwarm1 : warm type (setCached (slot type) rest p) = rest).
    { rewrite warm_setCached by done. by rewrite decide_True. }
    assert (Hoth1 : ∀ type', type' ≠ type →
              warm type' (setCached (slot type) rest p) = warm type' p).
    { intros type' Hne. rewrite warm_setCached by done. by rewrite decide_False. }
    destruct (isOpen h (dict p)) eqn:Hopen.
    + simplify_eq. split_and!; try done.
      { intros type' Hne. split; [by apply Hoth1|done]. }
      exists name. split; [by rewrite Hwarm1|].
      left. done.
    + change (availableNames (setCached (slot type) rest p) !!! slot type)
        with (cold type p) in Hloop.
      set (p2 := setAvailable (slot type) (TStack.push name (cold type p))
                   (setCached (slot type) rest p)) in *.
      assert (Hwf2 : wellFormed p2) by by apply wellFormed_setAvailable.
      destruct (IH p2 Hwf2 Hloop)
        as (Hwf' & Hoth & Hlt & Htm & Hdb & name' & Hperm & Hcase).
      assert (Hwarm2 : warm type p2 = rest) by done.
      assert (Hcold2 : cold type p2 = name :: cold type p).
      { unfold p2. rewrite cold_setAvailable by done. by rewrite decide_True. }
      split_and!; try done.
      { intros type' Hne. destruct (Hoth type' Hne) as [-> ->]. split.
        - by apply Hoth1.
        - unfold p2. rewrite cold_setAvailable by done. by rewrite decide_False. }
      exists name'. split; [|exact Hcase].
      rewrite <- Hperm, Hwarm2, Hcold2. simpl.
      by rewrite Permutation_middle.
Qed.

(** A call returns as soon as one of the two stacks has a name: each round
    that does not return takes a name off the warm stack. *)
Lemma databaseLoop_returns type connects fuel p :
  wellFormed p →
  warm type p ++ cold type p ≠ [] →
  length (warm type p) < fuel →
  is_Some (databaseLoop type connects fuel p).
Proof.
  revert p. induction fuel as [|fuel IH]; intros p Hwf Hne Hlen; [lia|].
  simpl. unfold databaseRound. fold (warm type p).
  destruct (warm type p) as [|name rest] eqn:Hwarm; simpl.
  - fold (cold type p). destruct (cold type p) as [|name stack'] eqn:Hcold; [done|].
    simpl. destruct (isOpen _ _); [done|].
    destruct (open _ _ _) as [[] ?]; done.
  - destruct (isOpen _ _); [done|].
    apply IH.
    + by apply wellFormed_setAvailable, wellFormed_setCached.
    + rewrite (cold_setAvailable type type) by by apply wellFormed_setCached.
      rewrite decide_True by done. intros [_ ?]%app_eq_nil. done.
    + change (warm type (setAvailable ?i ?s ?q)) with (warm type q).
      rewrite warm_setCached, decide_True by done. simpl in Hlen. lia.
Qed.

(** With both stacks empty a round changes nothing: the call spins. *)
Lemma databaseLoop_spins type connects fuel p :
  warm type p = [] → cold type p = [] →
  databaseLoop type connects fuel p = None.
Proof.
  intros Hwarm Hcold. induction fuel as [|fuel IH]; [done|].
  simpl. unfold databaseRound. fold (warm type p) (cold type p).
  by rewrite Hwarm, Hcold.
Qed.

(** *** What [pool] moves *)

Lemma value_nonneg key :
  (0 ≤ value kvsTypeHash key (-1))%Z →
  ∃ type, key = driverName type ∧ value kvsTypeHash key (-1) = Type_to_int type.
Proof.
  unfold kvsTypeHash. simpl. repeat case_bool_decide; subst; intros Hge.
  all: first [ by exists MongoDB | by exists Redis | lia ].
Qed.

Lemma pool_moves db now p nodb p' :
  wellFormed p →
  pool db now p = Returned (nodb, p') →
  nodb = invalid ∧ wellFormed p' ∧ dict p' = dict p ∧ timer p' = timer p
  ∧ (∀ type, cold type p' = cold type p)
  ∧ ((isValid db = false ∧ p' = p)
     ∨ ∃ type, isValid db = true
         ∧ TKvsDatabase.driverName db = driverName type
         ∧ warm type p' = connectionName db :: warm type p
         ∧ ∀ type', type' ≠ type → warm type' p' = warm type' p).
Proof.
  intros Hwf. unfold pool. destruct (isValid db) eqn:Hv.
  - case_match eqn:Hneg; [done|]. apply Z.ltb_ge in Hneg.
    destruct (value_nonneg _ Hneg) as (type & Hkey & Hval).
    rewrite Hval. intros [= <- <-].
    split_and!; try done.
    + by apply wellFormed_setLastCached, wellFormed_setCached.
    + right. exists type. split_and!; try done.
      * change (warm type (setLastCached ?i ?x ?q)) with (warm type q).
        change (Z.to_nat (Type_to_int type)) with (slot type).
        by rewrite warm_setCached, decide_True.
      * intros type' Hne.
        change (warm type' (setLastCached ?i ?x ?q)) with (warm type' q).
        change (Z.to_nat (Type_to_int type)) with (slot type).
        by rewrite warm_setCached, decide_False.
  - intros [= <- <-]. split_and!; try done. by left.
Qed.

(** *** What the reclaim loop moves *)

Lemma database_closeAll names name (d : gmap string Data) :
  TKvsDatabase.database name (closeAll names d) = TKvsDatabase.database name d.
Proof.
  revert d. induction names as [|n names IH]; intros d; [done|].
  simpl. fold (closeAll names). by rewrite IH, database_close.
Qed.

Lemma isOpen_setOpened name name' b (d : gmap string Data) :
  isOpen (TKvsDatabase.database name' d) (setOpened name b d)
  = if decide (name = name') then b && isValid (TKvsDatabase.database name' d)
    else isOpen (TKvsDatabase.database name' d) d.
Proof.
  unfold isOpen, isValid, setOpened, TKvsDatabase.database.
  destruct (decide (name = name')) as [->|Hne].
  - destruct (d !! name') as [e|] eqn:He; simpl.
    + rewrite lookup_insert_eq. simpl. by destruct b.
    + by destruct b.
  - destruct (d !! name) as [e|] eqn:He; [|done].
    destruct (d !! name') as [e'|] eqn:He'; simpl.
    + rewrite lookup_insert_ne by done. by rewrite He'.
    + done.
Qed.

Lemma isOpen_closeAll names name (d : gmap string Data) :
  isOpen (TKvsDatabase.database name d) (closeAll names d)
  = if decide (name ∈ names) then false else isOpen (TKvsDatabase.database name d) d.
Proof.
  revert d. induction names as [|n names IH]; intros d.
  - change (closeAll [] d) with d.
    destruct (decide (name ∈ [])) as [Hin%elem_of_nil|]; done.
  - change (closeAll (n :: names) d)
      with (closeAll names (close (TKvsDatabase.database n d) d)).
    rewrite <- (database_close (TKvsDatabase.database n d) name d) at 1.
    rewrite IH. rewrite database_close.
    assert (Hcl : isOpen (TKvsDatabase.database name d)
                    (close (TKvsDatabase.database n d) d)
                  = if decide (n = name) then false
                    else isOpen (TKvsDatabase.database name d) d).
    { unfold close. destruct (drv (TKvsDatabase.database n d)) eqn:Hdrv.
      - rewrite database_connectName, isOpen_setOpened. by case_decide.
      - destruct (decide (n = name)) as [->|Hne]; [|done].
        unfold isOpen. by rewrite Hdrv. }
    rewrite Hcl.
    destruct (decide (name ∈ names)) as [Hin|Hnin].
    + rewrite decide_True; [done|]. by apply list_elem_of_further.
    + destruct (decide (n = name)) as [->|Hne].
      * rewrite decide_True; [done|]. apply list_elem_of_here.
      * rewrite decide_False; [done|].
        intros [?|?]%elem_of_cons; congruence.
Qed.

Lemma closeExtra_round type now fuel p :
  closeExtra type now (S fuel) p
  = if (lastReleasedAt type p <? uint (uint now - 30))%Z then
      match warm type p with
      | name :: rest =>
          let p3 :=
            setAvailable (slot type) (name :: cold type p)
              (setDict (close (TKvsDatabase.database name (dict p)) (dict p))
                 (setCached (slot type) rest p)) in
          (fst (closeExtra type now fuel p3),
           CloseCall name :: snd (closeExtra type now fuel p3))
      | [] => (p, [])
      end
    else (p, []).
Proof.
  simpl. fold (lastReleasedAt type p) (warm type p).
  destruct (_ <? _)%Z; [|done].
  destruct (warm type p) as [|name rest]; [done|]. simpl.
  by destruct (closeExtra _ _ _ _).
Qed.

Lemma closeExtra_moves type now fuel p :
  wellFormed p →
  length (warm type p) < fuel →
  ∃ p',
    closeExtra type now fuel p
    = (p', if (lastReleasedAt type p <? uint (uint now - 30))%Z
           then map CloseCall (warm type p) else [])
    ∧ wellFormed p'
    ∧ lastCachedTime p' = lastCachedTime p
    ∧ timer p' = timer p
    ∧ (∀ type', type' ≠ type →
         warm type' p' = warm type' p ∧ cold type' p' = cold type' p)
    ∧ if (lastReleasedAt type p <? uint (uint now - 30))%Z
      then warm type p' = []
           ∧ cold type p' = rev (warm type p) ++ cold type p
           ∧ dict p' = closeAll (warm type p) (dict p)
      else p' = p.
Proof.
  revert p. induction fuel as [|fuel IH]; intros p Hwf Hlen; [lia|].
  rewrite closeExtra_round.
  destruct (lastReleasedAt type p <? uint (uint now - 30))%Z eqn:Hidle;
    [|by exists p].
  destruct (warm type p) as [|name rest] eqn:Hwarm.
  { exists p. split_and!; done. }
  set (p1 := setCached (slot type) rest p).
  set (p2 := setDict (close (TKvsDatabase.database name (dict p)) (dict p)) p1).
  set (p3 := setAvailable (slot type) (name :: cold type p) p2).
  assert (Hwf3 : wellFormed p3).
  { by apply wellFormed_setAvailable, wellFormed_setDict, wellFormed_setCached. }
  assert (Hwarm3 : warm type p3 = rest).
  { change (warm type p3) with (warm type p1). unfold p1.
    by rewrite warm_setCached, decide_True. }
  assert (Hcold3 : cold type p3 = name :: cold type p).
  { unfold p3. rewrite cold_setAvailable, decide_True; try done.
    by apply wellFormed_setDict, wellFormed_setCached. }
  destruct (IH p3 Hwf3) as (p' & Heq & Hwf' & Hlt & Htm & Hoth & Hcase).
  { rewrite Hwarm3. simpl in Hlen. lia. }
  change (lastReleasedAt type p3) with (lastReleasedAt type p) in Heq, Hcase.
  rewrite Hidle in Heq, Hcase. destruct Hcase as (Hw & Hc & Hd).
  cbv zeta. rewrite Heq. exists p'. rewrite Hwarm3. split_and!; try done.
  - intros type' Hne. destruct (Hoth type' Hne) as [-> ->]. split.
    + change (warm type' p3) with (warm type' p1). unfold p1.
      by rewrite warm_setCached, decide_False.
    + unfold p3. rewrite cold_setAvailable, decide_False; try done.
      by apply wellFormed_setDict, wellFormed_setCached.
  - rewrite Hc, Hwarm3, Hcold3. simpl. by rewrite <- app_assoc.
  - by rewrite Hd, Hwarm3.
Qed.

Lemma closeExtra_type app type now p :
  wellFormed p →
  ∃ p1,
    (if negb (isKvsAvailable app type) then (p, [])
     else closeExtra type now (S (length (warm type p))) p)
    = (p1, map CloseCall (reclaimed app now p type))
    ∧ wellFormed p1
    ∧ lastCachedTime p1 = lastCachedTime p
    ∧ timer p1 = timer p
    ∧ dict p1 = closeAll (reclaimed app now p type) (dict p)
    ∧ (∀ type', type' ≠ type →
         warm type' p1 = warm type' p ∧ cold type' p1 = cold type' p)
    ∧ warm type p1 = (if reclaims app now p type then [] else warm type p)
    ∧ cold type p1 = rev (reclaimed app now p type) ++ cold type p.
Proof.
  intros Hwf. unfold reclaimed, reclaims.
  destruct (isKvsAvailable app type); cbn [negb andb]; [|by exists p].
  destruct (closeExtra_moves type now (S (length (warm type p))) p Hwf)
    as (p1 & Heq & Hwf1 & Hlt & Htm & Hoth & Hcase); [lia|].
  exists p1. rewrite Heq.
  destruct (lastReleasedAt type p <? uint (uint now - 30))%Z.
  - destruct Hcase as (Hw & Hc & Hd). split_and!; done.
  - subst p1. split_and!; done.
Qed.

Lemma closeAll_app names1 names2 (d : gmap string Data) :
  closeAll (names1 ++ names2) d = closeAll names2 (closeAll names1 d).
Proof. unfold closeAll. by rewrite foldl_app. Qed.

Lemma timerEvent_types app now p :
  timerEvent app true now p
  = let r1 := if negb (isKvsAvailable app MongoDB) then (p, [])
              else closeExtra MongoDB now (S (length (warm MongoDB p))) p in
    let r2 := if negb (isKvsAvailable app Redis) then (r1.1, [])
              else closeExtra Redis now (S (length (warm Redis r1.1))) r1.1 in
    (r2.1, r1.2 ++ r2.2).
Proof.
  unfold timerEvent, types, closeExtraAll.
  fold (warm MongoDB p).
  destruct (negb (isKvsAvailable app MongoDB)).
  - fold (warm Redis p). cbv zeta. cbn [fst snd].
    destruct (negb (isKvsAvailable app Redis)); [done|].
    destruct (closeExtra Redis _ _ _). cbn [fst snd]. by rewrite app_nil_r.
  - destruct (closeExtra MongoDB _ _ _) as [p1 tr1]. cbv zeta. cbn [fst snd].
    fold (warm Redis p1).
    destruct (negb (isKvsAvailable app Redis)); [done|].
    destruct (closeExtra Redis _ _ _). cbn [fst snd]. by rewrite app_nil_r.
Qed.

(** One tick: every type that is available and whose timestamp is more than
    30 behind the clock has its warm stack emptied onto its cold stack, and
    those connections are closed. *)
Lemma timerEvent_moves app now p :
  wellFormed p →
  ∃ p',
    timerEvent app true now p
    = (p', map CloseCall (reclaimed app now p MongoDB ++ reclaimed app now p Redis))
    ∧ wellFormed p'
    ∧ lastCachedTime p' = lastCachedTime p
    ∧ timer p' = timer p
    ∧ dict p' = closeAll (reclaimed app now p MongoDB ++ reclaimed app now p Redis) (dict p)
    ∧ ∀ type,
        warm type p' = (if reclaims app now p type then [] else warm type p)
        ∧ cold type p' = rev (reclaimed app now p type) ++ cold type p.
Proof.
  intros Hwf. rewrite timerEvent_types.
  destruct (closeExtra_type app MongoDB now p Hwf)
    as (p1 & Heq1 & Hwf1 & Hlt1 & Htm1 & Hd1 & Hoth1 & Hw1 & Hc1).
  destruct (closeExtra_type app Redis now p1 Hwf1)
    as (p2 & Heq2 & Hwf2 & Hlt2 & Htm2 & Hd2 & Hoth2 & Hw2 & Hc2).
  destruct (Hoth1 Redis) as [Hw1R Hc1R]; [done|].
  destruct (Hoth2 MongoDB) as [Hw2M Hc2M]; [done|].
  assert (Hrec : reclaims app now p1 Redis = reclaims app now p Redis).
  { unfold reclaims, lastReleasedAt. by rewrite Hlt1. }
  assert (Hred : reclaimed app now p1 Redis = reclaimed app now p Redis).
  { unfold reclaimed. by rewrite Hrec, Hw1R. }
  rewrite Hred in Heq2, Hd2, Hc2. rewrite Hrec in Hw2.
  exists p2. cbv zeta. rewrite Heq1. cbn [fst snd]. rewrite Heq2. cbn [fst snd].
  split_and!.
  - by rewrite map_app.
  - done.
  - congruence.
  - congruence.
  - by rewrite closeAll_app, <- Hd1.
  - intros []; split.
    + by rewrite Hw2M, Hw1.
    + by rewrite Hc2M, Hc1.
    + by rewrite Hw2, Hw1R.
    + by rewrite Hc2, Hc1R.
Qed.

(** *** What [init] builds *)

Lemma connName_inj type1 i1 type2 i2 :
  connName (Type_to_int type1) i1 = connName (Type_to_int type2) i2 →
  type1 = type2 ∧ i1 = i2.
Proof.
  unfold connName.
  change (fmt_02d (Type_to_int MongoDB)) with "00".
  destruct type1, type2; cbn -[pretty]; intros H; simplify_eq.
  all: split; [done|]; by apply (inj pretty).
Qed.

Lemma elem_of_connNames type i n name :
  name ∈ connNames type i n
  ↔ ∃ j, (i ≤ j < i + Z.of_nat n)%Z ∧ name = connName (Type_to_int type) j.
Proof.
  revert i. induction n as [|n IH]; intros i; simpl.
  - rewrite elem_of_nil. split; [done|]. intros (j & ? & _). lia.
  - rewrite elem_of_cons, IH. split.
    + intros [->|(j & Hj & ->)]; [exists i|exists j]; split; (done || lia).
    + intros (j & Hj & ->). destruct (decide (j = i)) as [->|Hne]; [by left|].
      right. exists j. split; [lia|done].
Qed.

Lemma NoDup_connNames type i n : NoDup (connNames type i n).
Proof.
  revert i. induction n as [|n IH]; intros i; simpl; [constructor|].
  apply NoDup_cons. split; [|apply IH].
  rewrite elem_of_connNames. intros (j & Hj & Heq).
  apply connName_inj in Heq as [_ ->]. lia.
Qed.

Lemma connNames_disjoint type1 type2 i1 i2 n1 n2 name :
  type1 ≠ type2 → name ∈ connNames type1 i1 n1 → name ∉ connNames type2 i2 n2.
Proof.
  intros Hne (j1 & _ & ->)%elem_of_connNames (j2 & _ & Heq)%elem_of_connNames.
  by apply connName_inj in Heq as [? _].
Qed.

Lemma addDatabases_moves drvName type i n p :
  createDriver drvName = Some drvName →
  wellFormed p →
  ∃ p',
    addDatabases drvName type i n p = (p', replicate n (SettingsLookup type))
    ∧ wellFormed p'
    ∧ cachedDatabase p' = cachedDatabase p
    ∧ lastCachedTime p' = lastCachedTime p
    ∧ timer p' = timer p
    ∧ cold type p' = rev (connNames type i n) ++ cold type p
    ∧ (∀ type', type' ≠ type → cold type' p' = cold type' p)
    ∧ (∀ name, name ∈ connNames type i n →
         dict p' !! name = Some (mkData drvName false))
    ∧ (∀ name, name ∉ connNames type i n → dict p' !! name = dict p !! name).
Proof.
  intros Hdrv. revert i p. induction n as [|n IH]; intros i p Hwf.
  { exists p. split_and!; try done. by intros name Hin%elem_of_nil. }
  cbn [addDatabases connNames]. unfold addDatabase. rewrite Hdrv.
  cbn [isValid drv negb connectionName connectName].
  set (name := connName (Type_to_int type) i).
  set (p1 := setDict (<[name := mkData drvName false]> (dict p)) p).
  change (availableNames p1 !!! slot type) with (cold type p).
  set (p2 := setAvailable (slot type) (TStack.push name (cold type p)) p1).
  assert (Hwf2 : wellFormed p2) by by apply wellFormed_setAvailable, wellFormed_setDict.
  destruct (IH (i + 1)%Z p2 Hwf2)
    as (p' & Heq & Hwf' & Hcd & Hlt & Htm & Hcold & Hoth & Hnew & Hold).
  exists p'. rewrite Heq. split_and!; try done.
  - rewrite Hcold. unfold p2. rewrite cold_setAvailable, decide_True; try done.
    simpl. by rewrite <- app_assoc.
  - intros type' Hne. rewrite (Hoth type' Hne). unfold p2.
    by rewrite cold_setAvailable, decide_False.
  - intros name' [->|Hin]%elem_of_cons; [|by apply Hnew].
    rewrite Hold.
    + apply lookup_insert_eq.
    + pose proof (NoDup_connNames type i (S n)) as Hnd.
      by apply NoDup_cons in Hnd as [? _].
  - intros name' [Hne Hnin]%not_elem_of_cons.
    rewrite (Hold name' Hnin). simpl. by rewrite lookup_insert_ne.
Qed.

Lemma database_lookup name (d : gmap string Data) key b :
  d !! name = Some (mkData key b) →
  TKvsDatabase.database name d = mkHandle name (Some key)
  ∧ isOpen (TKvsDatabase.database name d) d = b.
Proof.
  intros H. unfold isOpen, TKvsDatabase.database. rewrite H. simpl. by rewrite H.
Qed.

(** The pool as [instance] hands it out: the warm stacks are empty, the cold
    stack of a type holds the names of its capacity, each registered with
    the driver of the type and closed, and the timer runs when a type is
    available. *)
Lemma instance_built app garbage :
  let p := instance app garbage in
  wellFormed p
  ∧ (∀ type, warm type p = []
      ∧ cold type p = rev (connNames type 0 (capacity app type))
      ∧ lastReleasedAt type p = uint garbage)
  ∧ (∀ type name, name ∈ cold type p →
       dict p !! name = Some (mkData (driverName type) false))
  ∧ timer p = if isMongoDbAvailable app || isRedisAvailable app
              then Some 10000%Z else None.
Proof.
  unfold instance, init.
  set (n := maxNumberOfThreadsPerAppServer app).
  set (p0 := mkPool _ _ _ _ _).
  assert (Hwf0 : wellFormed p0) by done.
  assert (Hw0 : ∀ type, warm type p0 = []) by by intros [].
  assert (Hc0 : ∀ type, cold type p0 = []) by by intros [].
  assert (Hl0 : ∀ type, lastReleasedAt type p0 = uint garbage) by by intros [].
  assert (Hfields : ∀ q type,
            cachedDatabase q = cachedDatabase p0 →
            lastCachedTime q = lastCachedTime p0 →
            warm type q = [] ∧ lastReleasedAt type q = uint garbage).
  { intros q type Hq1 Hq2. unfold warm, lastReleasedAt. rewrite Hq1, Hq2.
    split; [apply Hw0|apply Hl0]. }
  unfold kvsTypeHash. cbn [initTypes].
  unfold capacity. cbn [isKvsAvailable]. fold n.
  destruct (isMongoDbAvailable app) eqn:HM; cbn [negb].
  - destruct (addDatabases_moves "MONGODB" MongoDB 0 (Z.to_nat n) p0 eq_refl Hwf0)
      as (p1 & Heq1 & Hwf1 & Hcd1 & Hlt1 & Htm1 & Hcold1 & Hoth1 & Hnew1 & Hold1).
    rewrite Heq1. rewrite Hc0, app_nil_r in Hcold1.
    destruct (isRedisAvailable app) eqn:HR; cbn [negb orb fst].
    + destruct (addDatabases_moves "REDIS" Redis 0 (Z.to_nat n) p1 eq_refl Hwf1)
        as (p2 & Heq2 & Hwf2 & Hcd2 & Hlt2 & Htm2 & Hcold2 & Hoth2 & Hnew2 & Hold2).
      rewrite Heq2. cbn [fst].
      assert (HcM : cold MongoDB p2 = rev (connNames MongoDB 0 (Z.to_nat n))).
      { by rewrite (Hoth2 MongoDB), Hcold1. }
      assert (HcR : cold Redis p2 = rev (connNames Redis 0 (Z.to_nat n))).
      { rewrite Hcold2, (Hoth1 Redis), Hc0 by done. by rewrite app_nil_r. }
      split_and!; try done.
      * intros type.
        destruct (Hfields p2 type) as [Hw Hl]; [congruence|congruence|].
        split_and!; [done| |done].
        change (cold type (setTimer ?i ?q)) with (cold type q).
        by destruct type; cbn [isKvsAvailable]; rewrite ?HM, ?HR.
      * intros type name. change (cold type (setTimer ?i ?q)) with (cold type q).
        cbn [dict setTimer]. destruct type.
        -- rewrite HcM. intros Hin%elem_of_rev_1.
           rewrite Hold2; [exact (Hnew1 name Hin)|].
           by apply (connNames_disjoint MongoDB Redis 0 0 (Z.to_nat n)).
        -- rewrite HcR. intros Hin%elem_of_rev_1. exact (Hnew2 name Hin).
    + split_and!; try done.
      * intros type.
        destruct (Hfields p1 type) as [Hw Hl]; [congruence|congruence|].
        split_and!; [done| |done].
        change (cold type (setTimer ?i ?q)) with (cold type q).
        destruct type; cbn [isKvsAvailable]; rewrite ?HM, ?HR; [done|].
        by rewrite (Hoth1 Redis), Hc0.
      * intros type name. change (cold type (setTimer ?i ?q)) with (cold type q).
        cbn [dict setTimer]. destruct type.
        -- rewrite Hcold1. intros Hin%elem_of_rev_1. exact (Hnew1 name Hin).
        -- rewrite (Hoth1 Redis), Hc0 by done. by intros Hin%elem_of_nil.
  - destruct (isRedisAvailable app) eqn:HR; cbn [negb orb fst].
    + destruct (addDatabases_moves "REDIS" Redis 0 (Z.to_nat n) p0 eq_refl Hwf0)
        as (p2 & Heq2 & Hwf2 & Hcd2 & Hlt2 & Htm2 & Hcold2 & Hoth2 & Hnew2 & Hold2).
      rewrite Heq2. cbn [fst]. rewrite Hc0, app_nil_r in Hcold2.
      split_and!; try done.
      * intros type.
        destruct (Hfields p2 type) as [Hw Hl]; [congruence|congruence|].
        split_and!; [done| |done].
        change (cold type (setTimer ?i ?q)) with (cold type q).
        destruct type; cbn [isKvsAvailable]; rewrite ?HM, ?HR; [|done].
        by rewrite (Hoth2 MongoDB), Hc0.
      * intros type name. change (cold type (setTimer ?i ?q)) with (cold type q).
        cbn [dict setTimer]. destruct type.
        -- rewrite (Hoth2 MongoDB), Hc0 by done. by intros Hin%elem_of_nil.
        -- rewrite Hcold2. intros Hin%elem_of_rev_1. exact (Hnew2 name Hin).
    + split_and!; try done.
      * intros type. rewrite Hw0, Hc0, Hl0.
        by destruct type; cbn [isKvsAvailable]; rewrite ?HM, ?HR.
      * intros type name. rewrite Hc0. by intros Hin%elem_of_nil.
Qed.

(** C10: releasing an invalid handle leaves the pool as it is, no stack and
    no timestamp changes, and the handle the caller passed is reset to the
    invalid object all the same. *)
Theorem C10_pool_invalid_unchanged (db : TKvsDatabase.t) (now : Z) (p : Pool) :
  isValid db = false →
  pool db now p = Returned (invalid, p).
Proof. intros Hv. unfold pool. by rewrite Hv. Qed.

Lemma C10_pool_invalid_unchanged_witness :
  isValid invalid = false
  ∧ pool invalid 1000 Samples.pool2 = Returned (invalid, Samples.pool2).
Proof.
  split; [reflexivity|].
  apply (C10_pool_invalid_unchanged invalid 1000 Samples.pool2). reflexivity.
Defined.

(** C7: releasing a valid handle of a type pushes its name on the warm stack
    of that type, stores the current time (as [uint]) in the timestamp of
    that type and resets the caller's handle; the cold stacks, the other
    type's warm stack and timestamp, the timer and the connections are as
    before. *)
Theorem C7_pool_pushes_warm (type : Type_) (db : TKvsDatabase.t) (now : Z) (p : Pool) :
  wellFormed p →
  isValid db = true →
  TKvsDatabase.driverName db = driverName type →
  ∃ p',
    pool db now p = Returned (invalid, p')
    ∧ p' = mkPool (<[ slot type := connectionName db :: warm type p ]> (cachedDatabase p))
                  (<[ slot type := uint now ]> (lastCachedTime p))
                  (availableNames p) (timer p) (dict p)
    ∧ warm type p' = connectionName db :: warm type p
    ∧ lastReleasedAt type p' = uint now
    ∧ ((0 ≤ now < 2 ^ 32)%Z → lastReleasedAt type p' = now)
    ∧ (∀ type', cold type' p' = cold type' p)
    ∧ (∀ type', type' ≠ type →
         warm type' p' = warm type' p ∧ lastReleasedAt type' p' = lastReleasedAt type' p).
Proof.
  intros Hwf Hv Hd. eexists. split.
  { unfold pool. rewrite Hv, Hd, value_driverName.
    destruct type; reflexivity. }
  split; [destruct type; reflexivity|].
  slots p Hwf.
  split_and!.
  - by destruct type.
  - by destruct type.
  - intros Hn. rewrite <- (uint_small now Hn) at 2. by destruct type.
  - intros type'. by destruct type, type'.
  - intros type' Hne. by destruct type, type'.
Qed.

Lemma C7_pool_pushes_warm_witness :
  ∃ p',
    pool Samples.redis0 1000 Samples.pool2 = Returned (invalid, p')
    ∧ warm Redis p' = ["kvs01_0"] ∧ lastReleasedAt Redis p' = 1000%Z.
Proof.
  destruct (C7_pool_pushes_warm Redis Samples.redis0 1000 Samples.pool2)
    as (p' & Hp & _ & Hw & _ & Ht & _).
  - repeat split.
  - reflexivity.
  - reflexivity.
  - exists p'. split; [exact Hp|]. split; [exact Hw|]. apply Ht. split; [easy | reflexivity].
Defined.

(** *** Steps of the pool and its callers *)

Lemma allNames_pooled w :
  allNames w
  = (warm MongoDB (thePool w) ++ cold MongoDB (thePool w))
    ++ (warm Redis (thePool w) ++ cold Redis (thePool w))
    ++ map connectionName (inUse w).
Proof. unfold allNames. by rewrite <- !app_assoc. Qed.

Lemma total_pooled type w :
  total type w
  = length (warm type (thePool w) ++ cold type (thePool w))
    + length (inUseOf type (inUse w)).
Proof. unfold total. by rewrite length_app. Qed.

Lemma registered_driverName p type name :
  registered p type name →
  TKvsDatabase.driverName (TKvsDatabase.database name (dict p)) = driverName type.
Proof. intros ->. done. Qed.

Lemma inUseOf_cons type db held :
  inUseOf type (db :: held)
  = if decide (TKvsDatabase.driverName db = driverName type)
    then db :: inUseOf type held else inUseOf type held.
Proof. unfold inUseOf. by rewrite filter_cons. Qed.

Lemma inUseOf_app type held1 held2 :
  inUseOf type (held1 ++ held2) = inUseOf type held1 ++ inUseOf type held2.
Proof. unfold inUseOf. by rewrite filter_app. Qed.

(** The names that a stack pair and the callers hold after an operation, for
    each type, as a function of what they were. *)
Lemma acquire_invariant app w type connects fuel db p' tr :
  invariant w →
  database app type connects fuel (thePool w) = Some (db, p', tr) →
  let w' := mkWorld p' (if isValid db then db :: inUse w else inUse w) in
  invariant w'
  ∧ allNames w' ⊆+ allNames w
  ∧ (∀ type', total type' w' ≤ total type' w)
  ∧ (isValid db = true ∨ tr = [] → ∀ type', total type' w' = total type' w).
Proof.
  intros (Hwf & Hpool & Hheld) Hdb w'. unfold database in Hdb.
  destruct (negb (isKvsAvailable app type)).
  { injection Hdb as ? ? ?; subst db p' tr. subst w'. simpl.
    destruct w as [p held]. split_and!; done. }
  destruct (databaseLoop_moves _ _ _ _ _ _ _ Hwf Hdb)
    as (Hwf' & Hoth & Hlt & Htm & Hsame & name & Hperm & Hcase).
  assert (Hreg : registered (thePool w) type name).
  { apply Hpool. rewrite Hperm. apply list_elem_of_here. }
  assert (Hdbcase :
    (db = TKvsDatabase.database name (dict (thePool w)) ∧ isValid db = true)
    ∨ (db = invalid)).
  { destruct Hcase as [(_ & -> & Hop & _)|(_ & _ & _ & Hif)].
    - left. split; [done|]. unfold isOpen, isValid in *. by destruct (drv _).
    - destruct (connects && isValid _) eqn:Hc.
      + left. destruct Hif as [-> _]. by apply andb_true_iff in Hc as [_ ?].
      + right. by destruct Hif. }
  assert (Hinv' : invariant w').
  { split_and!.
    - done.
    - intros type' name' Hin. unfold registered. simpl. rewrite Hsame.
      apply Hpool. destruct (decide (type' = type)) as [->|Hne].
      + rewrite Hperm. by apply list_elem_of_further.
      + simpl in Hin. by destruct (Hoth type' Hne) as [<- <-].
    - intros h Hin. simpl. rewrite Hsame.
      destruct Hdbcase as [[-> Hv]| ->]; simpl in Hin.
      + rewrite Hv in Hin. apply elem_of_cons in Hin as [->|Hin]; [|by apply Hheld].
        split; [done|]. by rewrite database_connectName.
      + by apply Hheld. }
  assert (Hnames : ∀ type', type' ≠ type →
            warm type' p' ++ cold type' p' = warm type' (thePool w) ++ cold type' (thePool w)).
  { intros type' Hne. by destruct (Hoth type' Hne) as [-> ->]. }
  split; [done|]. split; [|split].
  - rewrite !allNames_pooled. simpl.
    destruct Hdbcase as [[-> Hv]| ->]; simpl.
    + rewrite Hv. simpl. unfold connectionName at 1. rewrite database_connectName.
      apply Permutation_submseteq.
      destruct type.
      * rewrite (Hnames Redis), Hperm by done. simpl.
        by rewrite <- !Permutation_middle.
      * rewrite (Hnames MongoDB), Hperm by done. simpl.
        by rewrite <- !Permutation_middle.
    + destruct type.
      * rewrite (Hnames Redis), Hperm by done. simpl. by apply submseteq_cons.
      * rewrite (Hnames MongoDB), Hperm by done.
        apply submseteq_skips_l. simpl. by apply submseteq_cons.
  - intros type'. rewrite !total_pooled. simpl.
    destruct (decide (type' = type)) as [->|Hne].
    + rewrite Hperm. simpl.
      destruct (isValid db); [|lia].
      rewrite inUseOf_cons. case_decide; simpl; lia.
    + rewrite (Hnames type' Hne).
      destruct Hdbcase as [[-> Hv]| ->]; simpl; [|lia].
      rewrite Hv, inUseOf_cons. rewrite (registered_driverName _ _ _ Hreg).
      rewrite decide_False; [lia|]. intros Heq. by apply driverName_inj in Heq.
  - intros Hor type'.
    assert (Hv : isValid db = true).
    { destruct Hor as [?| ->]; [done|].
      destruct Hcase as [(_ & -> & Hop & _)|(? & _)]; [|done].
      unfold isOpen, isValid in *. by destruct (drv _). }
    rewrite !total_pooled. simpl. rewrite Hv.
    destruct Hdbcase as [[-> _]| ->]; [|done].
    rewrite inUseOf_cons, (registered_driverName _ _ _ Hreg).
    destruct (decide (type' = type)) as [->|Hne].
    + rewrite Hperm, decide_True by done. simpl. lia.
    + rewrite (Hnames type' Hne). rewrite decide_False; [lia|].
      intros Heq. by apply driverName_inj in Heq.
Qed.

Lemma valid_driverName db type :
  isValid db = true →
  TKvsDatabase.driverName db = driverName type →
  db = mkHandle (connectName db) (Some (driverName type)).
Proof.
  destruct db as [name [k|]]; unfold isValid, TKvsDatabase.driverName; simpl; [|done].
  by intros _ ->.
Qed.

Lemma release_invariant w held1 db held2 now nodb p' :
  invariant w →
  inUse w = held1 ++ db :: held2 →
  pool db now (thePool w) = Returned (nodb, p') →
  let w' := mkWorld p' (held1 ++ held2) in
  invariant w'
  ∧ allNames w' ≡ₚ allNames w
  ∧ (∀ type, total type w' = total type w).
Proof.
  intros (Hwf & Hpool & Hheld) Hin Hrel w'.
  destruct (pool_moves _ _ _ _ _ Hwf Hrel) as (_ & Hwf' & Hd & Htm & Hcold & Hcase).
  destruct (Hheld db) as [Hv Hreg].
  { rewrite Hin. apply elem_of_app. right. apply list_elem_of_here. }
  destruct Hcase as [[Hnv _]|(type & _ & Hdrv & Hwarm & Hoth)]; [congruence|].
  assert (Hnames : ∀ type', type' ≠ type →
            warm type' p' ++ cold type' p' = warm type' (thePool w) ++ cold type' (thePool w)).
  { intros type' Hne. by rewrite (Hoth type' Hne), Hcold. }
  assert (Hname : warm type p' ++ cold type p'
                  = connectionName db :: warm type (thePool w) ++ cold type (thePool w)).
  { by rewrite Hwarm, Hcold. }
  split_and!.
  - unfold invariant. split_and!.
    + done.
    + intros type' name Hn. unfold registered. simpl in *. rewrite Hd.
      destruct (decide (type' = type)) as [->|Hne].
      * rewrite Hname in Hn. apply elem_of_cons in Hn as [->|Hn]; [|by apply Hpool].
        unfold connectionName. rewrite Hreg. by apply valid_driverName.
      * rewrite (Hnames type' Hne) in Hn. by apply Hpool.
    + intros h Hh. simpl in *. rewrite Hd. apply Hheld. rewrite Hin.
      apply elem_of_app in Hh as [?|?]; apply elem_of_app; [by left|right].
      by apply list_elem_of_further.
  - rewrite !allNames_pooled. simpl. rewrite Hin, !map_app. simpl.
    destruct type.
    + rewrite (Hnames Redis), Hname by done. simpl.
      by rewrite <- !Permutation_middle.
    + rewrite (Hnames MongoDB), Hname by done. simpl.
      by rewrite <- !Permutation_middle.
  - intros type'. rewrite !total_pooled. simpl.
    rewrite Hin, !inUseOf_app, inUseOf_cons.
    destruct (decide (type' = type)) as [->|Hne].
    + rewrite Hname, decide_True by done. simpl. rewrite !length_app. simpl. lia.
    + rewrite (Hnames type' Hne), decide_False; [by rewrite !length_app|].
      rewrite Hdrv. intros Heq. by apply driverName_inj in Heq.
Qed.

Lemma tick_invariant app w now p' tr :
  invariant w →
  timerEvent app true now (thePool w) = (p', tr) →
  let w' := mkWorld p' (inUse w) in
  invariant w'
  ∧ allNames w' ≡ₚ allNames w
  ∧ (∀ type, total type w' = total type w).
Proof.
  intros (Hwf & Hpool & Hheld) Htick w'.
  destruct (timerEvent_moves app now (thePool w) Hwf)
    as (p'' & Heq & Hwf' & Hlt & Htm & Hd & Hst).
  rewrite Htick in Heq. injection Heq as <- _.
  assert (Hnames : ∀ type,
            warm type p' ++ cold type p' ≡ₚ warm type (thePool w) ++ cold type (thePool w)).
  { intros type. destruct (Hst type) as [-> ->]. unfold reclaimed.
    destruct (reclaims app now (thePool w) type); [|done].
    simpl. by rewrite <- Permutation_rev. }
  split_and!.
  - unfold invariant. split_and!.
    + done.
    + intros type name Hn. unfold registered. simpl in *.
      rewrite Hd, database_closeAll. apply Hpool. by rewrite <- Hnames.
    + intros h Hh. simpl in *. rewrite Hd, database_closeAll. by apply Hheld.
  - rewrite !allNames_pooled. simpl. by rewrite !Hnames.
  - intros type. rewrite !total_pooled. simpl. by rewrite Hnames.
Qed.

Lemma break_invariant w name :
  invariant w →
  let w' := mkWorld (setDict (setOpened name false (dict (thePool w))) (thePool w))
                    (inUse w) in
  invariant w'
  ∧ allNames w' = allNames w
  ∧ (∀ type, total type w' = total type w).
Proof.
  intros (Hwf & Hpool & Hheld) w'. split_and!; try done.
  unfold invariant. split_and!.
  - done.
  - intros type name' Hn. unfold registered. simpl in *.
    rewrite database_setOpened. by apply Hpool.
  - intros h Hh. simpl in *. rewrite database_setOpened. by apply Hheld.
Qed.

(** Every step keeps the invariant, takes no name from nowhere, and never
    raises the number of names pooled or held for a type. *)
Lemma step_invariant app w w' :
  invariant w →
  step app w w' →
  invariant w' ∧ allNames w' ⊆+ allNames w ∧ (∀ type, total type w' ≤ total type w).
Proof.
  intros Hinv Hstep. destruct Hstep.
  - destruct (acquire_invariant _ _ _ _ _ _ _ _ Hinv H) as (? & ? & ? & _). done.
  - destruct (release_invariant _ _ _ _ _ _ _ Hinv H H0) as (? & Hp & Ht).
    split_and!; [done|by rewrite Hp|]. intros type. by rewrite Ht.
  - destruct (tick_invariant _ _ _ _ _ Hinv H) as (? & Hp & Ht).
    split_and!; [done|by rewrite Hp|]. intros type. by rewrite Ht.
  - destruct (break_invariant _ name Hinv) as (? & Hp & Ht).
    split_and!; [done|by rewrite Hp|]. intros type. by rewrite Ht.
Qed.

Lemma init_invariant app garbage :
  let w := mkWorld (instance app garbage) [] in
  invariant w
  ∧ NoDup (allNames w)
  ∧ (∀ type, total type w = capacity app type).
Proof.
  destruct (instance_built app garbage) as (Hwf & Hst & Hreg & _).
  intros w. split_and!.
  - unfold invariant. split_and!; [done| |by intros db Hin%elem_of_nil].
    intros type name Hin. simpl in Hin.
    destruct (Hst type) as (Hw & _ & _). rewrite Hw in Hin. simpl in Hin.
    unfold registered. simpl. by destruct (database_lookup _ _ _ _ (Hreg type name Hin)).
  - unfold allNames. simpl.
    destruct (Hst MongoDB) as (-> & -> & _), (Hst Redis) as (-> & -> & _). simpl.
    rewrite app_nil_r. apply NoDup_app. split_and!.
    + rewrite <- Permutation_rev. apply NoDup_connNames.
    + intros name Hin%elem_of_rev_1 Hin'%elem_of_rev_1.
      exact (connNames_disjoint MongoDB Redis _ _ _ _ name ltac:(done) Hin Hin').
    + rewrite <- Permutation_rev. apply NoDup_connNames.
  - intros type. unfold total. simpl. destruct (Hst type) as (-> & -> & _). simpl.
    rewrite length_rev.
    assert (Hlen : ∀ i n, length (connNames type i n) = n).
    { intros i n. revert i. induction n as [|n IH]; intros i; simpl; [done|].
      by rewrite IH. }
    rewrite Hlen. lia.
Qed.

Lemma reachable_invariant app garbage w :
  reachable app garbage w →
  invariant w ∧ NoDup (allNames w) ∧ (∀ type, total type w ≤ capacity app type).
Proof.
  induction 1 as [|w w' _ (Hinv & Hnd & Htot) Hstep].
  - destruct (init_invariant app garbage) as (? & ? & Ht).
    split_and!; [done|done|]. intros type. by rewrite Ht.
  - destruct (step_invariant _ _ _ Hinv Hstep) as (? & Hsub & Hle).
    split_and!; [done| |].
    + destruct (submseteq_Permutation _ _ Hsub) as (k & Hk).
      rewrite Hk in Hnd. by apply NoDup_app in Hnd as (? & _).
    + intros type. specialize (Hle type). specialize (Htot type). lia.
Qed.

Lemma steps_total app w w' :
  invariant w → steps app w w' →
  invariant w' ∧ ∀ type, total type w' ≤ total type w.
Proof.
  intros Hinv. induction 1 as [|w1 w2 w3 _ IH Hstep]; [done|].
  destruct (IH Hinv) as [Hinv2 Hle2].
  destruct (step_invariant _ _ _ Hinv2 Hstep) as (? & _ & Hle).
  split; [done|]. intros type. specialize (Hle type). specialize (Hle2 type). lia.
Qed.

(** *** The invariants of the spec *)

Lemma reachable_world1 : reachable Samples.app1 0 Samples.world1.
Proof. apply reachable_init. Qed.

Lemma reachable_leakWorld : reachable Samples.app1 0 Samples.leakWorld.
Proof.
  eapply reachable_step; [apply reachable_world1|].
  by apply (step_acquire Samples.app1 Samples.world1 Redis false 1
              invalid Samples.leakPool [OpenAttempt "kvs01_0"]).
Qed.

Lemma reachable_heldWorld : reachable Samples.app2 0 Samples.heldWorld.
Proof.
  pose (p1 := match database Samples.app2 Redis true 1 Samples.pool2 with
              | Some (_, p, _) => p
              | None => Samples.pool2
              end).
  eapply reachable_step; [eapply reachable_step; [apply reachable_init|]|].
  - by apply (step_acquire Samples.app2 _ Redis true 1 Samples.redis1 p1
                [OpenAttempt "kvs01_1"]).
  - by apply (step_acquire Samples.app2 (mkWorld p1 [Samples.redis1]) Redis true 1
                Samples.redis0 Samples.heldPool [OpenAttempt "kvs01_0"]).
Qed.

(** C1 (a run that breaks it): with one Redis connection configured, a
    [database] call whose [open] fails leaves the warm stack, the cold stack
    and the callers with no name at all, while the capacity is one. *)
Theorem C1_capacity_lost_on_open_failure :
  reachable Samples.app1 0 Samples.leakWorld
  ∧ database Samples.app1 Redis false 1 Samples.pool1
    = Some (invalid, Samples.leakPool, [OpenAttempt "kvs01_0"])
  ∧ warm Redis Samples.leakPool = []
  ∧ cold Redis Samples.leakPool = []
  ∧ inUse Samples.leakWorld = []
  ∧ total Redis Samples.leakWorld = 0
  ∧ capacity Samples.app1 Redis = 1.
Proof. split; [apply reachable_leakWorld|]. by split_and!. Qed.

(** X1: what does hold of the count: it starts at the capacity, no step raises
    it, and the only step that lowers it is a [database] call that tried to
    open a connection and returned an invalid handle. *)
Theorem total_bounded_by_capacity app garbage :
  (∀ type, total type (mkWorld (instance app garbage) []) = capacity app type)
  ∧ (∀ w, reachable app garbage w → ∀ type, total type w ≤ capacity app type)
  ∧ (∀ w w', reachable app garbage w → step app w w' →
       (∀ type, total type w' = total type w)
       ∨ ∃ type connects fuel p' name,
           database app type connects fuel (thePool w)
           = Some (invalid, p', [OpenAttempt name])
           ∧ w' = mkWorld p' (inUse w)).
Proof.
  split_and!.
  - apply init_invariant.
  - intros w Hw. by apply reachable_invariant in Hw as (_ & _ & ?).
  - intros w w' Hw Hstep. apply reachable_invariant in Hw as (Hinv & _ & _).
    destruct Hstep as [type connects fuel db p' tr Hdb| | |].
    + destruct (acquire_invariant _ _ _ _ _ _ _ _ Hinv Hdb) as (_ & _ & _ & Heq).
      destruct (isValid db) eqn:Hv; [left; apply Heq; by left|].
      destruct tr as [|e tr]; [left; apply Heq; by right|].
      right. unfold database in Hdb.
      destruct (negb (isKvsAvailable app type)) eqn:Hav; [done|].
      destruct Hinv as (Hwf & _).
      destruct (databaseLoop_moves _ _ _ _ _ _ _ Hwf Hdb)
        as (_ & _ & _ & _ & _ & name & _ & Hcase).
      destruct Hcase as [(? & _)|(Htr & _ & _ & Hif)]; [done|].
      exists type, connects, fuel, p', name. injection Htr as -> ->.
      destruct (connects && isValid _) eqn:Hc.
      * destruct Hif as [-> _]. apply andb_true_iff in Hc as [_ ?]. congruence.
      * destruct Hif as [-> _]. unfold database. by rewrite Hav, Hdb.
    + left. by destruct (release_invariant _ _ _ _ _ _ _ Hinv H H0) as (_ & _ & ?).
    + left. by destruct (tick_invariant _ _ _ _ _ Hinv H) as (_ & _ & ?).
    + left. by destruct (break_invariant _ name Hinv) as (_ & _ & ?).
Qed.

(** C3: in a reachable state, a [database] call on an available type returns
    whenever one of the two stacks of the type has a name; and when the call
    tried to open a connection and the backend refused, it returns the
    invalid handle, the name it took is on neither stack and no caller got
    it, so the names pooled or held for the type are one fewer, and no later
    step brings the number back. *)
Theorem C3_open_failure_loses_slot (app : TWebApplication) (garbage : Z)
    (w : World) (type : Type_) :
  reachable app garbage w →
  isKvsAvailable app type = true →
  (∀ fuel,
     warm type (thePool w) ++ cold type (thePool w) ≠ [] →
     length (warm type (thePool w)) < fuel →
     is_Some (database app type false fuel (thePool w)))
  ∧ (∀ fuel db p' tr name,
     database app type false fuel (thePool w) = Some (db, p', tr) →
     OpenAttempt name ∈ tr →
     let w' := mkWorld p' (if isValid db then db :: inUse w else inUse w) in
     db = invalid
     ∧ name ∈ warm type (thePool w) ++ cold type (thePool w)
     ∧ (name ∉ warm type p')
     ∧ (name ∉ cold type p')
     ∧ inUse w' = inUse w
     ∧ total type w' + 1 = total type w
     ∧ ∀ w'', steps app w' w'' → total type w'' < total type w).
Proof.
  intros Hw Hav.
  pose proof (reachable_invariant _ _ _ Hw) as (Hinv & Hnd & _).
  pose proof Hinv as (Hwf & _ & _).
  split.
  - intros fuel Hne Hlen. unfold database. rewrite Hav. simpl.
    by apply databaseLoop_returns.
  - intros fuel db p' tr name Hdb Hin w'.
    pose proof (acquire_invariant _ _ _ _ _ _ _ _ Hinv Hdb) as (Hinv' & _ & _ & _).
    unfold database in Hdb. rewrite Hav in Hdb. simpl in Hdb.
    destruct (databaseLoop_moves _ _ _ _ _ _ _ Hwf Hdb)
      as (_ & _ & _ & _ & _ & name' & Hperm & Hcase).
    destruct Hcase as [(-> & _)|(-> & Hw' & _ & Hif)];
      [by apply elem_of_nil in Hin|].
    apply list_elem_of_singleton in Hin. injection Hin as ->.
    simpl in Hif. destruct Hif as [-> _].
    assert (Hnd2 : NoDup (warm type (thePool w) ++ cold type (thePool w))).
    { rewrite allNames_pooled in Hnd. destruct type.
      - by apply NoDup_app in Hnd as (? & _).
      - apply NoDup_app in Hnd as (_ & _ & Hnd).
        by apply NoDup_app in Hnd as (? & _). }
    rewrite Hperm in Hnd2. apply NoDup_cons in Hnd2 as [Hnin _].
    assert (Htot : total type w' + 1 = total type w).
    { rewrite !total_pooled. simpl. rewrite Hperm. simpl. lia. }
    split_and!; try done.
    + rewrite Hperm. apply list_elem_of_here.
    + intros Hn. apply Hnin, elem_of_app. by left.
    + intros Hn. apply Hnin, elem_of_app. by right.
    + intros w'' Hsteps.
      destruct (steps_total _ _ _ Hinv' Hsteps) as [_ Hle]. specialize (Hle type).
      fold w' in Hle. lia.
Qed.

Lemma C3_open_failure_loses_slot_witness :
  total Redis Samples.leakWorld + 1 = total Redis Samples.world1
  ∧ ("kvs01_0" ∉ warm Redis Samples.leakPool)
  ∧ ("kvs01_0" ∉ cold Redis Samples.leakPool).
Proof.
  destruct (C3_open_failure_loses_slot Samples.app1 0 Samples.world1 Redis)
    as [_ Hfail].
  - apply reachable_init.
  - reflexivity.
  - destruct (Hfail 1 invalid Samples.leakPool [OpenAttempt "kvs01_0"] "kvs01_0")
      as (_ & _ & Hw & Hc & _ & Ht & _).
    + reflexivity.
    + apply list_elem_of_here.
    + split; [exact Ht|]. split; [exact Hw|exact Hc].
Defined.

(** *** The idle reclaimer *)

Lemma uint_minus_30 (now : Z) :
  (30 ≤ now < 2 ^ 32)%Z → uint (uint now - 30) = (now - 30)%Z.
Proof.
  intros Hnow. unfold uint. change (2 ^ 32)%Z with 4294967296%Z in *.
  rewrite (Z.mod_small now) by lia. apply Z.mod_small. lia.
Qed.

Lemma reclaims_idle app now p type :
  (30 ≤ now < 2 ^ 32)%Z →
  reclaims app now p type
  = isKvsAvailable app type && (30 <? now - lastReleasedAt type p)%Z.
Proof.
  intros Hnow. unfold reclaims. rewrite uint_minus_30 by done. f_equal.
  destruct (Z.ltb_spec (lastReleasedAt type p) (now - 30));
    destruct (Z.ltb_spec 30 (now - lastReleasedAt type p)); (done || lia).
Qed.

(** C4: [init] starts the timer with an interval of 10000 ms, ten seconds,
    when a type is available.  A tick, with the clock in the range of
    [uint], handles every type: when the type is available and its
    timestamp is more than 30 seconds old, each name of the warm stack is
    popped, its connection closed, and the name pushed on the cold stack,
    until the warm stack is empty; otherwise the stacks of the type stay as
    they are.  Nothing else is closed and no timestamp changes. *)
Theorem C4_idle_reclaim (app : TWebApplication) (garbage : Z) (now : Z) (p : Pool) :
  wellFormed p →
  (30 ≤ now < 2 ^ 32)%Z →
  (isMongoDbAvailable app || isRedisAvailable app = true →
     timer (instance app garbage) = Some (10 * 1000)%Z)
  ∧ ∃ p' tr,
      timerEvent app true now p = (p', tr)
      ∧ lastCachedTime p' = lastCachedTime p
      ∧ (∀ type,
          if isKvsAvailable app type && (30 <? now - lastReleasedAt type p)%Z
          then warm type p' = []
               ∧ cold type p' = rev (warm type p) ++ cold type p
               ∧ ∀ name, name ∈ warm type p →
                   CloseCall name ∈ tr
                   ∧ isOpen (TKvsDatabase.database name (dict p')) (dict p') = false
          else warm type p' = warm type p ∧ cold type p' = cold type p)
      ∧ (∀ name, CloseCall name ∈ tr →
           ∃ type, reclaims app now p type = true ∧ name ∈ warm type p)
      ∧ (∀ name, CloseCall name ∉ tr →
           isOpen (TKvsDatabase.database name (dict p')) (dict p')
           = isOpen (TKvsDatabase.database name (dict p)) (dict p)).
Proof.
  intros Hwf Hnow. split.
  { intros Hav. destruct (instance_built app garbage) as (_ & _ & _ & ->).
    by rewrite Hav. }
  destruct (timerEvent_moves app now p Hwf) as (p' & Heq & _ & Hlt & _ & Hd & Hst).
  set (names := reclaimed app now p MongoDB ++ reclaimed app now p Redis) in *.
  assert (Hnames : ∀ name, name ∈ names ↔
            ∃ type, reclaims app now p type = true ∧ name ∈ warm type p).
  { intros name. unfold names, reclaimed. rewrite elem_of_app. split.
    - intros [Hin|Hin]; [exists MongoDB|exists Redis];
        by destruct (reclaims _ _ _ _); [|apply elem_of_nil in Hin].
    - intros ([] & Hr & Hin); rewrite Hr; [by left|by right]. }
  assert (Htr : ∀ name, CloseCall name ∈ map CloseCall names ↔ name ∈ names).
  { intros name. split.
    - intros (n & [= ->] & Hin)%list_elem_of_fmap_1. done.
    - intros Hin. by apply (list_elem_of_fmap_2 CloseCall). }
  assert (Hopen : ∀ name,
            isOpen (TKvsDatabase.database name (dict p')) (dict p')
            = if decide (name ∈ names) then false
              else isOpen (TKvsDatabase.database name (dict p)) (dict p)).
  { intros name. rewrite Hd, database_closeAll. apply isOpen_closeAll. }
  exists p', (map CloseCall names). split_and!; try done.
  - intros type. rewrite <- reclaims_idle by done.
    destruct (Hst type) as [Hw Hc]. unfold reclaimed in Hc.
    destruct (reclaims app now p type) eqn:Hr; [|done].
    split_and!; try done. intros name Hin.
    assert (Hn : name ∈ names) by (apply Hnames; by exists type).
    split; [by apply Htr|]. by rewrite Hopen, decide_True.
  - intros name Hin. by apply Hnames, Htr.
  - intros name Hnin. rewrite Hopen, decide_False; [done|].
    intros Hin. by apply Hnin, Htr.
Qed.

Lemma C4_idle_reclaim_witness :
  ∃ p' tr,
    timerEvent Samples.app2 true 1031 Samples.warmPool = (p', tr)
    ∧ warm Redis p' = []
    ∧ cold Redis p' = ["kvs01_0"]
    ∧ CloseCall "kvs01_0" ∈ tr.
Proof.
  destruct (C4_idle_reclaim Samples.app2 0 1031 Samples.warmPool)
    as (_ & p' & tr & Htick & _ & Hty & _).
  - repeat split.
  - split; [easy|reflexivity].
  - exists p', tr. split; [exact Htick|].
    destruct (Hty Redis) as (Hw & Hc & Hcl).
    split; [exact Hw|]. split; [exact Hc|].
    apply (Hcl "kvs01_0"). apply list_elem_of_here.
Defined.

(** *** The same invariant under interleaving *)

Lemma connectionName_database name (d : gmap string Data) :
  connectionName (TKvsDatabase.database name d) = name.
Proof. apply database_connectName. Qed.

(** One access by one thread takes no name from nowhere: the names in the
    stacks, in the hands of callers and in the local variable of the thread
    after the access were all there before. *)
Lemma action_names app pc p held pc' p' held' :
  Interleaving.action app pc p held pc' p' held' →
  wellFormed p →
  wellFormed p'
  ∧ allNames (mkWorld p' held') ++ Interleaving.inFlight pc'
    ⊆+ allNames (mkWorld p held) ++ Interleaving.inFlight pc.
Proof.
  intros Hact Hwf.
  destruct Hact as
    [ type p held Hav
    | type name rest p held Hwarm
    | type p held Hwarm
    | type name p held Hopen
    | type name p held Hopen
    | type name rest p held Hcold
    | type p held Hcold
    | type name p held Hopen
    | type name connects dict' p held Hopen Hconn
    | type name connects dict' p held Hopen Hconn
    | db held1 held2 now p Hv Hval type
    | type now p held
    | p held
    | type ts p held Hav
    | type ts now p held Hav Hrecent
    | type ts now name rest p held Hav Hidle Hwarm
    | type ts now p held Hav Hidle Hwarm
    | type name ts p held p1
    | p held
    | pc name p held ].
  all: try (split; [done|]; reflexivity).
  - split; [by apply wellFormed_setCached|].
    slots p Hwf. unfold allNames, warm, cold in *.
    destruct type; simpl in *; subst; solve_submseteq.
  - split; [done|]. unfold allNames. simpl.
    rewrite connectionName_database. solve_submseteq.
  - split; [by apply wellFormed_setAvailable|].
    slots p Hwf. unfold allNames, warm, cold, TStack.push in *.
    destruct type; simpl in *; solve_submseteq.
  - split; [by apply wellFormed_setAvailable|].
    slots p Hwf. unfold allNames, warm, cold in *.
    destruct type; simpl in *; subst; solve_submseteq.
  - split; [done|]. unfold allNames. simpl.
    rewrite connectionName_database. solve_submseteq.
  - split; [done|]. unfold allNames. simpl.
    rewrite connectionName_database. solve_submseteq.
  - split; [done|]. unfold allNames. simpl. solve_submseteq.
  - destruct (value_nonneg _ Hval) as (type' & _ & Hty). subst type. rewrite Hty.
    split; [by apply wellFormed_setCached|].
    slots p Hwf. unfold allNames, warm, cold, TStack.push in *. simpl inUse.
    rewrite !map_app.
    destruct type'; simpl in *; solve_submseteq.
  - split; [by apply wellFormed_setLastCached|]. reflexivity.
  - split; [by apply wellFormed_setCached|].
    slots p Hwf. unfold allNames, warm, cold in *.
    destruct type; simpl in *; subst; solve_submseteq.
  - split; [by apply wellFormed_setAvailable|].
    slots p Hwf. unfold allNames, warm, cold, TStack.push in *.
    destruct type; simpl in *; solve_submseteq.
Qed.

Lemma names_thread p held before pc after :
  Interleaving.names (Interleaving.mkSystem p (before ++ pc :: after) held)
  ≡ₚ (allNames (mkWorld p held) ++ Interleaving.inFlight pc)
     ++ concat (map Interleaving.inFlight before)
     ++ concat (map Interleaving.inFlight after).
Proof.
  unfold Interleaving.names. simpl. rewrite map_app, concat_app. simpl.
  solve_Permutation.
Qed.

(** Under any interleaving of the accesses of any number of threads, the
    names on the stacks, in the hands of callers and in the local variables
    of the threads are all different. *)
Theorem names_unique_under_interleaving app garbage s :
  Interleaving.reachable app garbage s →
  wellFormed (Interleaving.sharedPool s) ∧ NoDup (Interleaving.names s).
Proof.
  induction 1 as [n|s s' _ [Hwf Hnd] Hstep].
  - destruct (init_invariant app garbage) as ((Hwf & _) & Hnd & _).
    split; [done|]. unfold Interleaving.names. simpl.
    assert (Hnone : concat (map Interleaving.inFlight (replicate n Interleaving.Idle)) = []).
    { induction n as [|n IH]; [done|]. simpl. exact IH. }
    rewrite Hnone, app_nil_r. exact Hnd.
  - destruct Hstep as [before pc after p held pc' p' held' Hact].
    simpl in Hwf.
    destruct (action_names _ _ _ _ _ _ _ Hact Hwf) as [Hwf' Hsub].
    split; [done|].
    rewrite names_thread in Hnd |- *.
    assert (Hall : (allNames (mkWorld p' held') ++ Interleaving.inFlight pc')
                   ++ concat (map Interleaving.inFlight before)
                   ++ concat (map Interleaving.inFlight after)
                   ⊆+ (allNames (mkWorld p held) ++ Interleaving.inFlight pc)
                      ++ concat (map Interleaving.inFlight before)
                      ++ concat (map Interleaving.inFlight after)).
    { by apply submseteq_skips_r. }
    destruct (submseteq_Permutation _ _ Hall) as (k & Hk).
    rewrite Hk in Hnd. by apply NoDup_app in Hnd as (? & _).
Qed.

(** *** The operations as runs of one thread *)

Lemma actions_trans app pc1 p1 held1 pc2 p2 held2 pc3 p3 held3 :
  Interleaving.actions app pc1 p1 held1 pc2 p2 held2 →
  Interleaving.actions app pc2 p2 held2 pc3 p3 held3 →
  Interleaving.actions app pc1 p1 held1 pc3 p3 held3.
Proof.
  induction 1; [done|]. intros Hrest.
  eapply Interleaving.actions_step; [done|]. by apply IHactions.
Qed.

Lemma actions_one app pc p held pc' p' held' :
  Interleaving.action app pc p held pc' p' held' →
  Interleaving.actions app pc p held pc' p' held'.
Proof. intros H. eapply Interleaving.actions_step; [exact H|constructor]. Qed.

Lemma isOpen_isValid db (d : gmap string Data) : isOpen db d = true → isValid db = true.
Proof. unfold isOpen, isValid. by destruct (drv db). Qed.

(** A round of [database] is two or three accesses. *)
Lemma databaseRound_actions app type connects p held :
  match databaseRound type connects p with
  | Return db p' tr =>
      Interleaving.actions app (Interleaving.AtLoop type) p held
        Interleaving.Idle p' (if isValid db then db :: held else held)
  | Continue p' =>
      Interleaving.actions app (Interleaving.AtLoop type) p held
        (Interleaving.AtLoop type) p' held
  end.
Proof.
  unfold databaseRound. fold (warm type p).
  destruct (warm type p) as [|name rest] eqn:Hwarm; cbn [TStack.pop].
  - fold (cold type p).
    destruct (cold type p) as [|name stack'] eqn:Hcold; cbn [TStack.pop].
    + eapply Interleaving.actions_step; [by apply Interleaving.cache_pop_none|].
      apply actions_one. by apply Interleaving.stack_pop_none.
    + cbv zeta.
      set (p1 := setAvailable (slot type) stack' p).
      set (db := TKvsDatabase.database name (dict p1)).
      assert (Hpop : Interleaving.actions app (Interleaving.AtLoop type) p held
                       (Interleaving.StackPopped type name) p1 held).
      { eapply Interleaving.actions_step; [by apply Interleaving.cache_pop_none|].
        apply actions_one. by apply Interleaving.stack_pop. }
      destruct (isOpen db (dict p1)) eqn:Hopen.
      * rewrite (isOpen_isValid _ _ Hopen).
        eapply actions_trans; [exact Hpop|].
        apply actions_one. by apply Interleaving.stack_open.
      * destruct (open db connects (dict p1)) as [ok dict'] eqn:Hconn.
        destruct ok; cbn [negb].
        -- assert (Hv : isValid db = true).
           { unfold open, isValid in *. by destruct (drv db). }
           rewrite Hv.
           eapply actions_trans; [exact Hpop|].
           apply actions_one. by eapply Interleaving.stack_opened.
        -- eapply actions_trans; [exact Hpop|].
           apply actions_one. by eapply Interleaving.stack_open_failed.
  - cbv zeta.
    set (p1 := setCached (slot type) rest p).
    set (db := TKvsDatabase.database name (dict p1)).
    assert (Hpop : Interleaving.actions app (Interleaving.AtLoop type) p held
                     (Interleaving.CachePopped type name) p1 held).
    { apply actions_one. by apply Interleaving.cache_pop. }
    destruct (isOpen db (dict p1)) eqn:Hopen.
    + rewrite (isOpen_isValid _ _ Hopen).
      eapply actions_trans; [exact Hpop|].
      apply actions_one. by apply Interleaving.cached_open.
    + eapply actions_trans; [exact Hpop|].
      apply actions_one. by apply Interleaving.cached_broken.
Qed.

Lemma database_actions app type connects fuel p held db p' tr :
  database app type connects fuel p = Some (db, p', tr) →
  Interleaving.actions app Interleaving.Idle p held
    Interleaving.Idle p' (if isValid db then db :: held else held).
Proof.
  unfold database. destruct (isKvsAvailable app type) eqn:Hav; simpl.
  - intros Hloop.
    eapply Interleaving.actions_step; [by apply Interleaving.call_database|].
    revert p Hloop. induction fuel as [|fuel IH]; intros p Hloop; [done|].
    simpl in Hloop. pose proof (databaseRound_actions app type connects p held) as Hround.
    destruct (databaseRound type connects p) as [db1 p1 tr1|p1].
    + by injection Hloop as -> -> ->.
    + eapply actions_trans; [exact Hround|]. by apply IH.
  - intros [= <- <- <-]. constructor.
Qed.

Lemma pool_actions app db now p held1 held2 nodb p' :
  isValid db = true →
  pool db now p = Returned (nodb, p') →
  Interleaving.actions app Interleaving.Idle p (held1 ++ db :: held2)
    Interleaving.Idle p' (held1 ++ held2).
Proof.
  unfold pool. intros Hv. rewrite Hv.
  destruct (Z.ltb_spec (value kvsTypeHash (TKvsDatabase.driverName db) (-1)) 0)
    as [?|Hge]; [done|].
  intros [= <- <-].
  eapply Interleaving.actions_step; [by apply Interleaving.call_pool|].
  apply actions_one. apply Interleaving.pool_store.
Qed.

Lemma closeExtra_actions app type ts now fuel p held :
  isKvsAvailable app type = true →
  length (warm type p) < fuel →
  Interleaving.actions app (Interleaving.AtTypes (type :: ts)) p held
    (Interleaving.AtTypes ts) (fst (closeExtra type now fuel p)) held.
Proof.
  intros Hav. revert p. induction fuel as [|fuel IH]; intros p Hlen; [lia|].
  rewrite closeExtra_round.
  destruct (lastReleasedAt type p <? uint (uint now - 30))%Z eqn:Hidle.
  - destruct (warm type p) as [|name rest] eqn:Hwarm.
    + apply actions_one. by eapply Interleaving.timer_pop_none.
    + cbv zeta. cbn [fst].
      eapply Interleaving.actions_step; [by eapply Interleaving.timer_pop|].
      eapply Interleaving.actions_step; [apply Interleaving.timer_close|].
      apply IH.
      change (warm type (setAvailable ?i ?s (setDict ?d ?q))) with (warm type q).
      assert (Hw : ∀ q, cachedDatabase q !!! slot type = name :: rest →
                length (warm type (setCached (slot type) rest q)) ≤ length rest).
      { intros q _. unfold warm, setCached. simpl.
        destruct (decide (slot type < length (cachedDatabase q))) as [Hlt|Hge].
        - by rewrite list_lookup_total_insert_eq.
        - rewrite list_insert_ge in * by lia.
          rewrite list_lookup_total_alt, lookup_ge_None_2 by lia. simpl. lia. }
      specialize (Hw p Hwarm). simpl in Hlen. lia.
  - apply actions_one. by eapply Interleaving.timer_recent.
Qed.

Lemma timerEvent_actions app now p held :
  Interleaving.actions app Interleaving.Idle p held
    Interleaving.Idle (fst (timerEvent app true now p)) held.
Proof.
  eapply Interleaving.actions_step; [apply Interleaving.call_timerEvent|].
  rewrite timerEvent_types. cbv zeta. cbn [fst].
  unfold types.
  set (r1 := if negb (isKvsAvailable app MongoDB) then (p, [])
             else closeExtra MongoDB now (S (length (warm MongoDB p))) p).
  assert (H1 : Interleaving.actions app (Interleaving.AtTypes [MongoDB; Redis]) p held
                 (Interleaving.AtTypes [Redis]) r1.1 held).
  { unfold r1. destruct (isKvsAvailable app MongoDB) eqn:Hav; simpl negb; cbv iota.
    - apply closeExtra_actions; [done|lia].
    - apply actions_one. by apply Interleaving.timer_unavailable. }
  eapply actions_trans; [exact H1|].
  assert (H2 : Interleaving.actions app (Interleaving.AtTypes [Redis]) r1.1 held
                 (Interleaving.AtTypes [])
                 (if negb (isKvsAvailable app Redis) then (r1.1, [])
                  else closeExtra Redis now (S (length (warm Redis r1.1))) r1.1).1 held).
  { destruct (isKvsAvailable app Redis) eqn:Hav; simpl negb; cbv iota.
    - apply closeExtra_actions; [done|lia].
    - apply actions_one. by apply Interleaving.timer_unavailable. }
  eapply actions_trans; [exact H2|].
  apply actions_one. apply Interleaving.timer_done.
Qed.

Lemma actions_reachable app garbage before after pc p held pc' p' held' :
  Interleaving.actions app pc p held pc' p' held' →
  Interleaving.reachable app garbage (Interleaving.mkSystem p (before ++ pc :: after) held) →
  Interleaving.reachable app garbage (Interleaving.mkSystem p' (before ++ pc' :: after) held').
Proof.
  induction 1 as [|pc1 p1 held1 pc2 p2 held2 pc3 p3 held3 Hact _ IH]; [done|].
  intros Hr. apply IH. eapply Interleaving.reachable_step; [exact Hr|].
  by constructor.
Qed.

(** Every state that the operations reach when each runs to its end before
    the next starts is a state of the interleaved system, with one thread
    that stands idle. *)
Theorem operations_are_interleavings app garbage w :
  reachable app garbage w →
  Interleaving.reachable app garbage
    (Interleaving.mkSystem (thePool w) [Interleaving.Idle] (inUse w)).
Proof.
  induction 1 as [|w w' Hw IH Hstep].
  - apply (Interleaving.reachable_start app garbage 1).
  - apply reachable_invariant in Hw as ((_ & _ & Hheld) & _ & _).
    destruct Hstep as
      [ type connects fuel db p' tr Hdb
      | held1 db held2 now nodb p' Hin Hrel
      | now p' tr Htick
      | name ]; simpl.
    + apply (actions_reachable app garbage [] [] _ _ _ _ _ _
               (database_actions _ _ _ _ _ (inUse w) _ _ _ Hdb) IH).
    + destruct (Hheld db) as [Hv _].
      { rewrite Hin. apply elem_of_app. right. apply list_elem_of_here. }
      rewrite Hin in IH.
      apply (actions_reachable app garbage [] [] _ _ _ _ _ _
               (pool_actions app _ _ _ held1 held2 _ _ Hv Hrel) IH).
    + pose proof (timerEvent_actions app now (thePool w) (inUse w)) as Hrun.
      rewrite Htick in Hrun.
      apply (actions_reachable app garbage [] [] _ _ _ _ _ _ Hrun IH).
    + eapply Interleaving.reachable_step; [exact IH|].
      apply (Interleaving.step_thread app [] Interleaving.Idle []).
      apply Interleaving.connection_breaks.
Qed.

(** C2: in every reachable state the names on the warm stacks, on the cold
    stacks and in the hands of callers are all different, so a name is in at
    most one of these places; two handles held at the same time have
    different names, and a handle that [database] returns valid has a name
    that no caller holds.  The same holds when the operations of several
    threads interleave at every access to a stack, counting the names that
    threads have popped and still hold in a local variable. *)
Theorem C2_name_in_one_place (app : TWebApplication) (garbage : Z) (w : World) :
  reachable app garbage w →
  NoDup (allNames w)
  ∧ (∀ type, NoDup (namesOf type w))
  ∧ (∀ i j db1 db2,
       inUse w !! i = Some db1 → inUse w !! j = Some db2 →
       connectionName db1 = connectionName db2 → i = j)
  ∧ (∀ type connects fuel db p' tr,
       database app type connects fuel (thePool w) = Some (db, p', tr) →
       isValid db = true →
       ∀ held, held ∈ inUse w → connectionName held ≠ connectionName db)
  ∧ (∀ s, Interleaving.reachable app garbage s → NoDup (Interleaving.names s)).
Proof.
  intros Hw. pose proof (reachable_invariant _ _ _ Hw) as (Hinv & Hnd & _).
  assert (Hheld : NoDup (map connectionName (inUse w))).
  { unfold allNames in Hnd.
    by repeat (apply NoDup_app in Hnd as (_ & _ & Hnd)). }
  split_and!.
  - done.
  - intros type. unfold namesOf.
    assert (Hsub : warm type (thePool w) ++ cold type (thePool w)
                   ++ map connectionName (inUseOf type (inUse w)) ⊆+ allNames w).
    { rewrite allNames_pooled, app_assoc.
      assert (Hf : map connectionName (inUseOf type (inUse w))
                   ⊆+ map connectionName (inUse w)).
      { apply sublist_submseteq, sublist_map. unfold inUseOf. apply sublist_filter. }
      destruct type.
      - apply submseteq_app; [done|]. by apply submseteq_inserts_l.
      - apply submseteq_inserts_l. by apply submseteq_app. }
    destruct (submseteq_Permutation _ _ Hsub) as (k & Hk).
    rewrite Hk in Hnd. by apply NoDup_app in Hnd as (? & _).
  - intros i j db1 db2 Hi Hj Heq.
    apply (NoDup_lookup _ i j (connectionName db1) Hheld).
    + by rewrite list_lookup_fmap, Hi.
    + by rewrite list_lookup_fmap, Hj, Heq.
  - intros type connects fuel db p' tr Hdb Hv held Hin Heq.
    assert (Hw' : reachable app garbage (mkWorld p' (db :: inUse w))).
    { eapply reachable_step; [exact Hw|].
      pose proof (step_acquire app w type connects fuel db p' tr Hdb) as Hs.
      by rewrite Hv in Hs. }
    apply reachable_invariant in Hw' as (_ & Hnd' & _).
    unfold allNames in Hnd'. simpl in Hnd'.
    repeat (apply NoDup_app in Hnd' as (_ & _ & Hnd')).
    apply NoDup_cons in Hnd' as [Hnin _]. apply Hnin.
    rewrite <- Heq. by apply list_elem_of_fmap_2.
  - intros s Hs. by apply names_unique_under_interleaving in Hs as [_ ?].
Qed.

Lemma C2_name_in_one_place_witness :
  NoDup (allNames Samples.heldWorld)
  ∧ ∀ i j db1 db2,
      inUse Samples.heldWorld !! i = Some db1 →
      inUse Samples.heldWorld !! j = Some db2 →
      connectionName db1 = connectionName db2 → i = j.
Proof.
  destruct (C2_name_in_one_place Samples.app2 0 Samples.heldWorld reachable_heldWorld)
    as (Hnd & _ & Hheld & _ & _).
  split; [exact Hnd|exact Hheld].
Defined.

Section WithApp.
Context (app : TWebApplication).

(** C6: when the warm stack gives a name whose connection is open,
    [database] returns the handle on it at once, with no settings lookup and
    no open attempt in its trace, the warm stack loses that name and nothing
    else changes; when the connection is not open, the round pushes the name
    on the cold stack and the loop goes on from there. *)
Theorem C6_warm_pop (type : Type_) (connects : bool) (fuel : nat)
    (name : string) (rest : list string) (p : Pool) :
  wellFormed p →
  isKvsAvailable app type = true →
  warm type p = name :: rest →
  let db := TKvsDatabase.database name (dict p) in
  (isOpen db (dict p) = true →
     ∃ p' tr,
       database app type connects (S fuel) p = Some (db, p', tr)
       ∧ tr = []
       ∧ (∀ type' name', (SettingsLookup type' ∉ tr) ∧ (OpenAttempt name' ∉ tr))
       ∧ p' = setCached (slot type) rest p
       ∧ warm type p' = rest
       ∧ (∀ type', cold type' p' = cold type' p)
       ∧ (∀ type', type' ≠ type → warm type' p' = warm type' p))
  ∧ (isOpen db (dict p) = false →
     ∃ p',
       databaseRound type connects p = Continue p'
       ∧ warm type p' = rest
       ∧ cold type p' = name :: cold type p
       ∧ (∀ type', type' ≠ type →
            warm type' p' = warm type' p ∧ cold type' p' = cold type' p)
       ∧ dict p' = dict p
       ∧ database app type connects (S fuel) p = database app type connects fuel p').
Proof.
  intros Hwf Hav Hwarm db. unfold warm in Hwarm. split; intros Hopen.
  - exists (setCached (slot type) rest p), [].
    split_and!; [|done|by split; apply not_elem_of_nil|done|..].
    + unfold database. rewrite Hav. simpl. unfold databaseRound.
      rewrite Hwarm. simpl. fold db. by rewrite Hopen.
    + slots p Hwf. by destruct type.
    + intros type'. slots p Hwf. by destruct type, type'.
    + intros type' Hne. slots p Hwf. by destruct type, type'.
  - eexists. split_and!.
    + unfold databaseRound. rewrite Hwarm. simpl. fold db. rewrite Hopen. reflexivity.
    + slots p Hwf. by destruct type.
    + slots p Hwf. by destruct type.
    + intros type' Hne. slots p Hwf. by destruct type, type'.
    + done.
    + unfold database. rewrite Hav. simpl. unfold databaseRound at 1.
      rewrite Hwarm. simpl. fold db. by rewrite Hopen.
Qed.


End WithApp.

Lemma C6_warm_pop_witness :
  ∃ p',
    database Samples.app2 Redis true 1 Samples.warmPool
    = Some (Samples.redis0, p', [])
    ∧ warm Redis p' = [] ∧ cold Redis p' = [].
Proof.
  destruct (C6_warm_pop Samples.app2 Redis true 0 "kvs01_0" [] Samples.warmPool)
    as [Hopen _].
  - repeat split.
  - reflexivity.
  - reflexivity.
  - destruct Hopen as (p' & tr & Hdb & Htr & _ & _ & Hw & Hc & _); [reflexivity|].
    exists p'. rewrite Htr in Hdb. split; [exact Hdb|].
    split; [exact Hw|]. exact (Hc Redis).
Defined.




End PoolOperations.

(** * Properties of the thread dispatcher *)

Section Dispatcher.
Import TThreadApplicationServer.

Lemma createThreads_built i n stack :
  createThreads i n stack = rev (seq i n) ++ stack.
Proof.
  revert i stack. induction n as [|n IH]; intros i stack; [done|].
  simpl. rewrite IH. unfold TStack.push. by rewrite <- app_assoc.
Qed.

Lemma construct_built settings :
  let s := construct settings in
  threadPool s = rev (seq 0 (Z.to_nat (maxThreads s))) ∧ running s = [].
Proof. simpl. split; [|done]. by rewrite createThreads_built, app_nil_r. Qed.

(** What holds of the server between two steps: no thread is both idle and
    running or twice in either place, and there are [maxThreads] of them. *)
Lemma reachable_threads settings s :
  reachable settings s →
  maxThreads s = maxThreads (construct settings)
  ∧ NoDup (threadPool s ++ running s)
  ∧ length (threadPool s) + length (running s) = Z.to_nat (maxThreads s).
Proof.
  induction 1 as [|s s' _ (Hmax & Hnd & Hlen) Hstep].
  - destruct (construct_built settings) as [Hp Hr]. rewrite Hp, Hr, app_nil_r.
    split_and!; [done| |].
    + rewrite <- Permutation_rev. apply NoDup_seq.
    + rewrite length_rev, length_seq. simpl. lia.
  - destruct Hstep as [thread s' Hin|thread Hrun].
    + unfold incomingConnection in Hin.
      destruct (threadPool s) as [|thread' rest] eqn:Hpool; [done|].
      simpl in Hin. injection Hin as -> <-. simpl in *.
      split_and!; [done| |lia].
      by rewrite <- Permutation_middle.
    + unfold finished, TStack.push. simpl.
      apply NoDup_app in Hnd as (Hnd1 & Hdisj & Hnd2).
      apply list_elem_of_split in Hrun as (r1 & r2 & Hr).
      assert (Hrem : remove Nat.eq_dec thread (running s) = r1 ++ r2).
      { rewrite Hr in Hnd2 |- *.
        apply NoDup_app in Hnd2 as (_ & Hd1 & Hd2).
        apply NoDup_cons in Hd2 as [Hn2 _].
        rewrite remove_app. simpl. destruct (Nat.eq_dec thread thread); [|done].
        rewrite !notin_remove; [done| |].
        - intros Hin%list_elem_of_In. done.
        - intros Hin%list_elem_of_In. apply (Hd1 thread Hin). apply list_elem_of_here. }
      rewrite Hrem. rewrite Hr in Hlen, Hdisj, Hnd2.
      split_and!; [done| |rewrite length_app in *; simpl in *; lia].
      rewrite app_comm_cons. apply NoDup_app.
      apply NoDup_app in Hnd2 as (Hd1 & Hd12 & Hd2).
      apply NoDup_cons in Hd2 as [Hn2 Hd2].
      split_and!.
      * apply NoDup_cons. split; [|done]. intros Hin.
        apply (Hdisj thread Hin). apply elem_of_app. right. apply list_elem_of_here.
      * intros x [->|Hx]%elem_of_cons [Hx1|Hx2]%elem_of_app.
        -- apply (Hd12 thread Hx1). apply list_elem_of_here.
        -- done.
        -- apply (Hdisj x Hx). apply elem_of_app. by left.
        -- apply (Hdisj x Hx). apply elem_of_app. right. by apply list_elem_of_further.
      * apply NoDup_app. split_and!; [done| |done].
        intros x Hx1 Hx2. apply (Hd12 x Hx1). by apply list_elem_of_further.
Qed.

(** C5: the constructor creates [maxThreads] threads, all of them on the
    idle stack and none running; a thread that finishes is pushed back on
    the idle stack and is no longer running; and in every reachable state
    the idle and the running threads together are [maxThreads], so at most
    [maxThreads] run, and a new connection is given a thread only when one
    is idle. *)
Theorem C5_fixed_worker_count (settings : TAppSettings) :
  (0 ≤ maxThreads (construct settings))%Z →
  (Z.of_nat (length (threadPool (construct settings))) = maxThreads (construct settings)
   ∧ running (construct settings) = [])
  ∧ (∀ s, reachable settings s →
       maxThreads s = maxThreads (construct settings)
       ∧ Z.of_nat (length (threadPool s) + length (running s)) = maxThreads s
       ∧ (Z.of_nat (length (running s)) ≤ maxThreads s)%Z
       ∧ NoDup (threadPool s ++ running s)
       ∧ (∀ thread, thread ∈ running s →
            threadPool (finished thread s) = thread :: threadPool s
            ∧ (thread ∉ running (finished thread s))
            ∧ length (running (finished thread s)) + 1 = length (running s)
            ∧ reachable settings (finished thread s))
       ∧ (Z.of_nat (length (running s)) = maxThreads s → incomingConnection s = None)).
Proof.
  intros Hpos. split.
  - destruct (construct_built settings) as [Hp Hr]. split; [|done].
    rewrite Hp, length_rev, length_seq. lia.
  - intros s Hs. pose proof (reachable_threads settings s Hs) as (Hmax & Hnd & Hlen).
    rewrite <- Hmax in Hpos.
    split_and!; [done|lia|lia|done| |].
    + intros thread Hrun.
      assert (Hs' : reachable settings (finished thread s)).
      { eapply reachable_step; [exact Hs|]. by apply step_finished. }
      pose proof (reachable_threads settings _ Hs') as (_ & _ & Hlen').
      split_and!; [done| | |done].
      * simpl. intros Hin%list_elem_of_In. by apply remove_In in Hin.
      * simpl in Hlen' |- *. lia.
    + intros Hfull. unfold incomingConnection.
      destruct (threadPool s); [done|]. simpl in Hlen. lia.
Qed.

Lemma C5_fixed_worker_count_witness :
  Z.of_nat (length (threadPool (construct (mkSettings (Some 3%Z) None)))) = 3%Z
  ∧ running (construct (mkSettings (Some 3%Z) None)) = [].
Proof.
  destruct (C5_fixed_worker_count (mkSettings (Some 3%Z) None)) as [Hinit _].
  - easy.
  - exact Hinit.
Defined.

End Dispatcher.

(** * Binary64 arithmetic on whole numbers *)

Section Doubles.

Local Open Scope Z_scope.

















End Doubles.

(** * Properties of the cache store *)

Section CacheStore.
Import TCacheSQLiteStore.
Context (pagesFor : list Row → Z).

Lemma gcLoop_round n removed s :
  gcLoop pagesFor (S n) removed s
  = let removed' := (removed + fst (removeOlder (thirtyPercent (count s)) s))%Z in
    if under80 (gcRound pagesFor s) then (removed', gcRound pagesFor s)
    else gcLoop pagesFor n removed' (gcRound pagesFor s).
Proof.
  simpl. unfold gcRound. by destruct (removeOlder _ s) as [cnt s'].
Qed.

(** The loop runs between one and [n] rounds and leaves at the first round
    after which the size is under the mark. *)
Lemma gcLoop_rounds n removed s :
  0 < n →
  ∃ k,
    1 ≤ k ≤ n
    ∧ snd (gcLoop pagesFor n removed s) = Nat.iter k (gcRound pagesFor) s
    ∧ (∀ j, 1 ≤ j < k → under80 (Nat.iter j (gcRound pagesFor) s) = false)
    ∧ (k < n → under80 (Nat.iter k (gcRound pagesFor) s) = true).
Proof.
  revert removed s. induction n as [|n IH]; intros removed s Hn; [lia|].
  rewrite gcLoop_round. cbv zeta.
  destruct (under80 (gcRound pagesFor s)) eqn:Hu.
  - exists 1. split_and!; [lia|lia|done| |done]. intros j Hj. lia.
  - destruct n as [|n].
    + exists 1. split_and!; [lia|lia|done| |lia]. intros j Hj. lia.
    + destruct (IH (removed + (removeOlder (thirtyPercent (count s)) s).1)%Z
                  (gcRound pagesFor s)) as (k & Hk & Heq & Hbefore & Hstop); [lia|].
      exists (S k). rewrite Nat.iter_succ_r. split_and!; [lia|lia|done| |].
      * intros j Hj. destruct j as [|j]; [lia|]. rewrite Nat.iter_succ_r.
        destruct j as [|j]; [done|]. apply Hbefore. lia.
      * intros Hlt. apply Hstop. lia.
Qed.

(** *** What [removeOlder] removes *)

Lemma insertByT_Permutation r l : insertByT r l ≡ₚ r :: l.
Proof.
  induction l as [|x l IH]; simpl; [done|].
  destruct (_ <=? _)%Z; [done|]. by rewrite IH, Permutation_swap.
Qed.

Lemma orderByT_Permutation rs : orderByT rs ≡ₚ rs.
Proof.
  induction rs as [|r rs IH]; simpl; [done|].
  by rewrite insertByT_Permutation, IH.
Qed.

Lemma insertByT_ascending r l : ascending l → ascending (insertByT r l).
Proof.
  induction 1 as [|x l Hx Hl IH]; simpl.
  - constructor; [|constructor]. by intros ? ? ? ?%elem_of_nil.
  - destruct (Z.leb_spec (t r) (t x)) as [Hle|Hgt].
    + constructor; [|by constructor].
      intros a b ->%list_elem_of_singleton [->|Hb]%elem_of_cons; [done|].
      etrans; [exact Hle|]. apply Hx; [apply list_elem_of_here|done].
    + constructor; [|done].
      intros a b ->%list_elem_of_singleton Hb.
      rewrite insertByT_Permutation in Hb.
      apply elem_of_cons in Hb as [->|Hb]; [lia|].
      apply Hx; [apply list_elem_of_here|done].
Qed.

Lemma orderByT_ascending rs : ascending (orderByT rs).
Proof.
  induction rs as [|r rs IH]; simpl; [constructor|]. by apply insertByT_ascending.
Qed.

Lemma ascending_take_drop n l : ascending l → allBefore (take n l) (drop n l).
Proof.
  intros Hl. revert n. induction Hl as [|r l Hr Hl IH]; intros n.
  - destruct n; by intros ? ? ?%elem_of_nil.
  - destruct n as [|n]; simpl; [by intros ? ? ?%elem_of_nil|].
    intros a b [->|Ha]%elem_of_cons Hb.
    + apply Hr; [apply list_elem_of_here|].
      exact (elem_of_sublist _ _ _ Hb (sublist_drop l n)).
    + by apply (IH n).
Qed.

(** With distinct ROWIDs, deleting the rows whose ROWID was selected deletes
    the first [num] rows in the order of [t] and keeps the others. *)
Lemma removeOlder_oldest num s :
  (1 ≤ num)%Z →
  NoDup (map ROWID (rows s)) →
  let kept := rows (snd (removeOlder num s)) in
  let gone := take (Z.to_nat num) (orderByT (rows s)) in
  kept ≡ₚ drop (Z.to_nat num) (orderByT (rows s))
  ∧ rows s ≡ₚ gone ++ kept
  ∧ length gone = Z.to_nat num `min` length (rows s)
  ∧ allBefore gone kept
  ∧ fst (removeOlder num s) = Z.of_nat (length gone).
Proof.
  intros Hnum Hnd kept gone.
  assert (Hlen : length gone = Z.to_nat num `min` length (rows s)).
  { unfold gone. rewrite length_take. by rewrite orderByT_Permutation. }
  assert (Hasc : allBefore gone (drop (Z.to_nat num) (orderByT (rows s)))).
  { apply ascending_take_drop, orderByT_ascending. }
  assert (Hkept : kept = filter (λ r, ROWID r ∉ map ROWID gone) (rows s)).
  { unfold kept, removeOlder.
    destruct (Z.ltb_spec num 1) as [?|_]; [lia|]. done. }
  assert (Hfst : fst (removeOlder num s)
                 = Z.of_nat (length (rows s) - length kept)).
  { unfold kept, removeOlder. destruct (Z.ltb_spec num 1) as [?|_]; [lia|]. done. }
  assert (Hsplit : orderByT (rows s) = gone ++ drop (Z.to_nat num) (orderByT (rows s))).
  { unfold gone. by rewrite take_drop. }
  revert Hasc Hsplit. generalize (drop (Z.to_nat num) (orderByT (rows s))).
  intros rest Hasc Hsplit.
  assert (Hperm : rows s ≡ₚ gone ++ rest).
  { rewrite <- Hsplit. by rewrite orderByT_Permutation. }
  clearbody gone kept. clear Hsplit.
  assert (Hnd' : NoDup (map ROWID (gone ++ rest))) by by rewrite <- Hperm.
  assert (Hk : kept ≡ₚ rest).
  { rewrite Hkept, Hperm, filter_app.
    rewrite map_app in Hnd'. apply NoDup_app in Hnd' as (_ & Hdisj & _).
    assert (H1 : filter (λ r, ROWID r ∉ map ROWID gone) gone = []).
    { apply elem_of_nil_inv. intros r [Hr Hin]%list_elem_of_filter.
      apply Hr. by apply (list_elem_of_fmap_2 ROWID). }
    assert (H2 : ∀ l : list Row, (∀ r, r ∈ l → ROWID r ∉ map ROWID gone) →
                 filter (λ r, ROWID r ∉ map ROWID gone) l = l).
    { induction l as [|r l IHl]; intros Hl; [done|].
      rewrite filter_cons_True by (apply Hl, list_elem_of_here).
      f_equal. apply IHl. intros r' Hr'. by apply Hl, list_elem_of_further. }
    rewrite H1, H2; [done|].
    intros r Hr Hin. apply (Hdisj (ROWID r) Hin). by apply (list_elem_of_fmap_2 ROWID). }
  split_and!.
  - done.
  - by rewrite Hk.
  - done.
  - intros r r' Hr Hr'. rewrite Hk in Hr'. by apply Hasc.
  - rewrite Hfst. f_equal.
    assert (Hl : length (rows s) = length gone + length kept).
    { by rewrite Hperm, length_app, Hk. }
    lia.
Qed.




End CacheStore.


(** On that cache the loop leaves after its second round, with ten rows. *)
Example gc_cache20 :
  TCacheSQLiteStore.gc Samples.pagesFor 500 Samples.cache20
  = Nat.iter 2 (TCacheSQLiteStore.gcRound Samples.pagesFor)
      (TCacheSQLiteStore.afterExpiry Samples.pagesFor 500 Samples.cache20)
  ∧ length (TCacheSQLiteStore.rows
              (TCacheSQLiteStore.gc Samples.pagesFor 500 Samples.cache20)) = 10
  ∧ map TCacheSQLiteStore.ROWID
        (TCacheSQLiteStore.rows
           (TCacheSQLiteStore.gc Samples.pagesFor 500 Samples.cache20))
    = [11; 12; 13; 14; 15; 16; 17; 18; 19; 20]%Z.
Proof. vm_compute. done. Qed.

(** * More properties of the connection pool *)

Section PoolLifeCycle.
Import TKvsDatabase TKvsDatabasePool PoolWorld.

Ltac slots p H :=
  destruct p as [cd lt an tm dc];
  destruct H as (Hcd & Hlt & Han); simpl in Hcd, Hlt, Han;
  destruct cd as [|cd0 [|cd1 [|? ?]]]; try discriminate Hcd;
  destruct lt as [|lt0 [|lt1 [|? ?]]]; try discriminate Hlt;
  destruct an as [|an0 [|an1 [|? ?]]]; try discriminate Han;
  clear Hcd Hlt Han.

(** Two well-formed pools with the same stacks, times, timer and dictionary
    are the same pool. *)
Lemma pool_ext p q :
  wellFormed p → wellFormed q →
  (∀ type, warm type p = warm type q ∧ cold type p = cold type q) →
  lastCachedTime p = lastCachedTime q →
  timer p = timer q →
  dict p = dict q →
  p = q.
Proof.
  intros Hp Hq Hst Hlt' Htm Hd.
  destruct (Hst MongoDB) as [HwM HcM]. destruct (Hst Redis) as [HwR HcR].
  slots p Hp. 
  destruct q as [cd' lt' an' tm' dc'].
  destruct Hq as (Hcd & Hlt & Han); simpl in Hcd, Hlt, Han.
  destruct cd' as [|cd0' [|cd1' [|? ?]]]; try discriminate Hcd.
  destruct an' as [|an0' [|an1' [|? ?]]]; try discriminate Han.
  unfold warm, cold in *. simpl in *. by subst.
Qed.

(** A held name is on no stack. *)
Lemma held_not_pooled w db type :
  NoDup (allNames w) →
  db ∈ inUse w →
  connectionName db ∉ warm type (thePool w) ++ cold type (thePool w).
Proof.
  rewrite allNames_pooled. intros Hnd Hin Hpooled.
  assert (Hheld : connectionName db ∈ map connectionName (inUse w)).
  { by apply list_elem_of_fmap_2. }
  apply NoDup_app in Hnd as (_ & H1 & Hnd).
  apply NoDup_app in Hnd as (_ & H2 & _).
  destruct type.
  - apply (H1 _ Hpooled). apply elem_of_app. by right.
  - by apply (H2 _ Hpooled).
Qed.

(** The names of two types' stacks differ. *)
Lemma pooled_types_differ w type1 type2 name :
  NoDup (allNames w) →
  type1 ≠ type2 →
  name ∈ warm type1 (thePool w) ++ cold type1 (thePool w) →
  name ∉ warm type2 (thePool w) ++ cold type2 (thePool w).
Proof.
  rewrite allNames_pooled. intros Hnd Hne Hin1 Hin2.
  apply NoDup_app in Hnd as (_ & H1 & _).
  destruct type1, type2; try done.
  - apply (H1 _ Hin1). apply elem_of_app. by left.
  - apply (H1 _ Hin2). apply elem_of_app. by left.
Qed.

(** Where the names of the cold stack come from in a call of [database]: a
    name is on it afterwards when it was before, or when it was on the warm
    stack with a connection that is not open. *)
Lemma databaseLoop_cold type connects fuel p db p' tr :
  wellFormed p →
  databaseLoop type connects fuel p = Some (db, p', tr) →
  ∀ n, n ∈ cold type p' →
    n ∈ cold type p
    ∨ (n ∈ warm type p
       ∧ isOpen (TKvsDatabase.database n (dict p)) (dict p) = false).
Proof.
  revert p. induction fuel as [|fuel IH]; intros p Hwf Hloop n Hn; [done|].
  simpl in Hloop. unfold databaseRound in Hloop.
  fold (warm type p) in Hloop.
  destruct (warm type p) as [|name rest] eqn:Hwarm; simpl in Hloop.
  - fold (cold type p) in Hloop.
    destruct (cold type p) as [|name stack'] eqn:Hcold; simpl in Hloop.
    + destruct (IH p Hwf Hloop n Hn) as [Hc|[Hw _]].
      * left. by rewrite <- Hcold.
      * rewrite Hwarm in Hw. by apply elem_of_nil in Hw.
    + assert (Hcold1 : cold type (setAvailable (slot type) stack' p) = stack').
      { rewrite cold_setAvailable by done. by rewrite decide_True. }
      left. apply list_elem_of_further.
      destruct (isOpen _ _).
      * simplify_eq. by rewrite Hcold1 in Hn.
      * destruct (open _ _ _) as [[] d']; simpl in Hloop; simplify_eq.
        -- change (cold type (setDict ?d ?q)) with (cold type q) in Hn.
           by rewrite Hcold1 in Hn.
        -- by rewrite Hcold1 in Hn.
  - assert (Hwf1 : wellFormed (setCached (slot type) rest p))
      by by apply wellFormed_setCached.
    destruct (isOpen (TKvsDatabase.database name _) _) eqn:Hopen.
    + simplify_eq. by left.
    + change (availableNames (setCached (slot type) rest p) !!! slot type)
        with (cold type p) in Hloop.
      set (p2 := setAvailable (slot type) (TStack.push name (cold type p))
                   (setCached (slot type) rest p)) in *.
      assert (Hwf2 : wellFormed p2) by by apply wellFormed_setAvailable.
      assert (Hwarm2 : warm type p2 = rest).
      { change (warm type p2) with (warm type (setCached (slot type) rest p)).
        rewrite warm_setCached by done. by rewrite decide_True. }
      assert (Hcold2 : cold type p2 = name :: cold type p).
      { unfold p2. rewrite cold_setAvailable by done. by rewrite decide_True. }
      destruct (IH p2 Hwf2 Hloop n Hn) as [Hc|[Hw Hclosed]].
      * rewrite Hcold2 in Hc. apply elem_of_cons in Hc as [->|Hc]; [|by left].
        right. split; [apply list_elem_of_here|exact Hopen].
      * right. rewrite Hwarm2 in Hw. split; [by apply list_elem_of_further|].
        exact Hclosed.
Qed.

(** No connection of a cold stack is open. *)
Lemma reachable_cold_closed app garbage w :
  reachable app garbage w →
  ∀ type name, name ∈ cold type (thePool w) →
    isOpen (TKvsDatabase.database name (dict (thePool w))) (dict (thePool w)) = false.
Proof.
  induction 1 as [|w w' Hw IH Hstep].
  - intros type name Hin. simpl in *.
    destruct (instance_built app garbage) as (_ & _ & Hreg & _).
    by destruct (database_lookup _ _ _ _ (Hreg type name Hin)) as [_ ?].
  - assert (Hw' : reachable app garbage w') by by eapply reachable_step.
    destruct (reachable_invariant _ _ _ Hw) as (Hinv & Hnd & _).
    destruct (reachable_invariant _ _ _ Hw') as (Hinv' & Hnd' & _).
    destruct Hstep as [type connects fuel db p' tr Hdb
                      |held1 db held2 now nodb p' Hheld Hpool
                      |now p' tr Htick
                      |broken].
    + unfold database in Hdb.
      destruct (isKvsAvailable app type); simpl in Hdb; [|by simplify_eq].
      destruct Hinv as (Hwf & _).
      pose proof (databaseLoop_cold _ _ _ _ _ _ _ Hwf Hdb) as Hcold.
      destruct (databaseLoop_moves _ _ _ _ _ _ _ Hwf Hdb)
        as (_ & Hoth & _ & _ & Hsame & name & Hperm & Hcase).
      assert (Hold : ∀ type' n, n ∈ cold type' p' →
                isOpen (TKvsDatabase.database n (dict (thePool w))) (dict (thePool w))
                = false).
      { intros type' n Hn. destruct (decide (type' = type)) as [->|Hne].
        - destruct (Hcold n Hn) as [?|[_ ?]]; [by apply (IH type)|done].
        - destruct (Hoth type' Hne) as [_ Hc]. rewrite Hc in Hn. by apply (IH type'). }
      intros type' n Hn. simpl in Hn |- *. rewrite Hsame.
      destruct Hcase as [(_ & _ & _ & ->)|(_ & _ & _ & Hopen)]; [by apply (Hold type')|].
      destruct (connects && isValid _) eqn:Hc.
      * destruct Hopen as [-> ->].
        rewrite isOpen_setOpened. case_decide as Heq; [|by apply (Hold type')].
        subst n. exfalso.
        apply andb_true_iff in Hc as [_ Hvalid]. rewrite Hvalid in Hnd'.
        refine (held_not_pooled _ (TKvsDatabase.database name (dict (thePool w)))
                  type' Hnd' _ _).
        -- apply list_elem_of_here.
        -- simpl. rewrite connectionName_database. apply elem_of_app. by right.
      * destruct Hopen as [_ ->]. by apply (Hold type').
    + destruct Hinv as (Hwf & _).
      destruct (pool_moves _ _ _ _ _ Hwf Hpool) as (_ & _ & Hd & _ & Hc & _).
      intros type n. simpl. rewrite Hd, Hc. apply IH.
    + destruct Hinv as (Hwf & _).
      destruct (timerEvent_moves app now _ Hwf) as (p1 & Heq & _ & _ & _ & Hd & Hst).
      rewrite Htick in Heq. injection Heq as <- _.
      intros type n. simpl. destruct (Hst type) as [_ ->]. rewrite Hd.
      intros Hn. rewrite database_closeAll, isOpen_closeAll.
      case_decide as Hin; [done|].
      apply elem_of_app in Hn as [Hn|Hn]; [|by apply (IH type)].
      exfalso. apply Hin. apply elem_of_rev_1 in Hn.
      destruct type; apply elem_of_app; [by left|by right].
    + intros type n. simpl. intros Hn.
      rewrite database_setOpened, isOpen_setOpened.
      case_decide; [done|]. by apply (IH type).
Qed.

(** The handle that the dictionary gives on a name never changes. *)
Lemma reachable_handles app garbage w :
  reachable app garbage w →
  ∀ n, TKvsDatabase.database n (dict (thePool w))
       = TKvsDatabase.database n (dict (instance app garbage)).
Proof.
  induction 1 as [|w w' Hw IH Hstep]; [done|].
  destruct (reachable_invariant _ _ _ Hw) as ((Hwf & _) & _ & _).
  destruct Hstep as [type connects fuel db p' tr Hdb
                    |held1 db held2 now nodb p' Hheld Hpool
                    |now p' tr Htick
                    |broken]; intros n; simpl.
  - unfold database in Hdb.
    destruct (isKvsAvailable app type); simpl in Hdb; [|by simplify_eq].
    destruct (databaseLoop_moves _ _ _ _ _ _ _ Hwf Hdb) as (_ & _ & _ & _ & Hsame & _).
    by rewrite Hsame.
  - destruct (pool_moves _ _ _ _ _ Hwf Hpool) as (_ & _ & Hd & _).
    by rewrite Hd.
  - destruct (timerEvent_moves app now _ Hwf) as (p1 & Heq & _ & _ & _ & Hd & _).
    rewrite Htick in Heq. injection Heq as <- _.
    by rewrite Hd, database_closeAll.
  - by rewrite database_setOpened.
Qed.

(** What [init] leaves outside the names it makes, and what it looks up. *)
Lemma init_built app garbage :
  let n := maxNumberOfThreadsPerAppServer app in
  snd (init app n garbage)
  = replicate (capacity app MongoDB) (SettingsLookup MongoDB)
    ++ replicate (capacity app Redis) (SettingsLookup Redis)
  ∧ ∀ name,
      (∀ type, name ∉ connNames type 0 (capacity app type)) →
      dict (fst (init app n garbage)) !! name = None.
Proof.
  unfold init.
  set (n := maxNumberOfThreadsPerAppServer app).
  set (p0 := mkPool _ _ _ _ _).
  assert (Hwf0 : wellFormed p0) by done.
  unfold kvsTypeHash. cbn [initTypes].
  unfold capacity. cbn [isKvsAvailable]. fold n. cbv zeta.
  destruct (isMongoDbAvailable app) eqn:HM; cbn [negb].
  - destruct (addDatabases_moves "MONGODB" MongoDB 0 (Z.to_nat n) p0 eq_refl Hwf0)
      as (p1 & Heq1 & Hwf1 & _ & _ & _ & _ & _ & _ & Hold1).
    rewrite Heq1.
    destruct (isRedisAvailable app) eqn:HR; cbn [negb].
    + destruct (addDatabases_moves "REDIS" Redis 0 (Z.to_nat n) p1 eq_refl Hwf1)
        as (p2 & Heq2 & _ & _ & _ & _ & _ & _ & _ & Hold2).
      rewrite Heq2. cbn [fst snd]. split; [by rewrite ?app_nil_r|].
      intros name Hout. cbn [dict setTimer].
      pose proof (Hout MongoDB) as HoM. pose proof (Hout Redis) as HoR.
      cbn [isKvsAvailable] in HoM, HoR. rewrite HM in HoM. rewrite HR in HoR.
      rewrite Hold2 by done. rewrite Hold1 by done. apply lookup_empty.
    + cbn [fst snd]. split; [by rewrite ?app_nil_r|].
      intros name Hout. cbn [dict setTimer].
      pose proof (Hout MongoDB) as HoM.
      cbn [isKvsAvailable] in HoM. rewrite HM in HoM.
      rewrite Hold1 by done. apply lookup_empty.
  - destruct (isRedisAvailable app) eqn:HR; cbn [negb].
    + destruct (addDatabases_moves "REDIS" Redis 0 (Z.to_nat n) p0 eq_refl Hwf0)
        as (p2 & Heq2 & _ & _ & _ & _ & _ & _ & _ & Hold2).
      rewrite Heq2. cbn [fst snd]. split; [by rewrite ?app_nil_r|].
      intros name Hout. cbn [dict setTimer].
      pose proof (Hout Redis) as HoR.
      cbn [isKvsAvailable] in HoR. rewrite HR in HoR.
      rewrite Hold2 by done. apply lookup_empty.
    + cbn [fst snd]. split; [done|]. intros name _. apply lookup_empty.
Qed.

(** The entries of the dictionary that [instance] built. *)
Lemma instance_dict app garbage name d :
  dict (instance app garbage) !! name = Some d
  ↔ ∃ type, name ∈ connNames type 0 (capacity app type)
            ∧ d = mkData (driverName type) false.
Proof.
  destruct (instance_built app garbage) as (_ & Hst & Hreg & _).
  destruct (init_built app garbage) as (_ & Hout).
  fold (instance app garbage) in Hout.
  split.
  - intros Hd.
    destruct (decide (name ∈ connNames MongoDB 0 (capacity app MongoDB))) as [HM|HM].
    { exists MongoDB. split; [done|].
      rewrite (Hreg MongoDB name) in Hd; [by simplify_eq|].
      destruct (Hst MongoDB) as (_ & -> & _). by apply elem_of_rev. }
    destruct (decide (name ∈ connNames Redis 0 (capacity app Redis))) as [HR|HR].
    { exists Redis. split; [done|].
      rewrite (Hreg Redis name) in Hd; [by simplify_eq|].
      destruct (Hst Redis) as (_ & -> & _). by apply elem_of_rev. }
    rewrite Hout in Hd; [done|]. by intros [].
  - intros (type & Hin & ->). apply Hreg.
    destruct (Hst type) as (_ & -> & _). by apply elem_of_rev.
Qed.

(** X2: [database] of an available type goes round its loop for ever exactly
    when both stacks of the type are empty: the [throw] after the loop is
    never reached, and with a name on either stack the call returns within
    one round more than the warm stack has names.  For a type that is not
    available the call returns the invalid handle at once and changes
    nothing. *)
Theorem database_spins_iff_empty (app : TWebApplication) (type : Type_)
    (connects : bool) (p : Pool) :
  wellFormed p →
  if isKvsAvailable app type then
    ((∀ fuel, database app type connects fuel p = None)
     ↔ warm type p = [] ∧ cold type p = [])
    ∧ (warm type p ++ cold type p ≠ [] →
       ∀ fuel, length (warm type p) < fuel →
         is_Some (database app type connects fuel p))
  else ∀ fuel, database app type connects fuel p = Some (invalid, p, []).
Proof.
  intros Hwf. unfold database. destruct (isKvsAvailable app type); simpl; [|done].
  split.
  - split.
    + intros Hspin.
      destruct (decide (warm type p ++ cold type p = [])) as [He|Hne].
      { by apply app_eq_nil in He. }
      destruct (databaseLoop_returns type connects (S (length (warm type p))) p
                  Hwf Hne) as [r Hr]; [lia|].
      by rewrite Hspin in Hr.
    + intros [Hw Hc] fuel. by apply databaseLoop_spins.
  - intros Hne fuel Hlen. by apply databaseLoop_returns.
Qed.

(** X3: What [database] returns in a reachable state.  A valid handle is on a
    connection that is open, of the driver of the type asked for, whose name
    was on a stack of that type and is on none afterwards.  An invalid
    handle is [TKvsDatabase()], and is returned only when the type is not
    available or when the backend refused the connection. *)
Theorem database_returns_open_or_invalid (app : TWebApplication) (garbage : Z)
    (w : World) (type : Type_) (connects : bool) (fuel : nat)
    (db : TKvsDatabase.t) (p' : Pool) (tr : list Effect) :
  reachable app garbage w →
  database app type connects fuel (thePool w) = Some (db, p', tr) →
  if isValid db then
    isKvsAvailable app type = true
    ∧ isOpen db (dict p') = true
    ∧ TKvsDatabase.driverName db = driverName type
    ∧ connectionName db ∈ warm type (thePool w) ++ cold type (thePool w)
    ∧ (∀ type', connectionName db ∉ warm type' p' ++ cold type' p')
    ∧ TKvsDatabase.database (connectionName db) (dict p') = db
  else
    db = invalid
    ∧ (isKvsAvailable app type = false ∨ connects = false).
Proof.
  intros Hw Hdb.
  assert (Hw' : reachable app garbage
                  (mkWorld p' (if isValid db then db :: inUse w else inUse w))).
  { eapply reachable_step; [exact Hw|]. by eapply step_acquire. }
  destruct (reachable_invariant _ _ _ Hw) as ((Hwf & Hreg & _) & _ & _).
  destruct (reachable_invariant _ _ _ Hw') as ((_ & _ & Hheld') & Hnd' & _).
  unfold database in Hdb.
  destruct (isKvsAvailable app type) eqn:Hav; simpl in Hdb;
    [|simplify_eq; simpl; split; [done|by left]].
  destruct (databaseLoop_moves _ _ _ _ _ _ _ Hwf Hdb)
    as (_ & _ & _ & _ & Hsame & name & Hperm & Hcase).
  assert (Hin : name ∈ warm type (thePool w) ++ cold type (thePool w)).
  { rewrite Hperm. apply list_elem_of_here. }
  pose proof (Hreg type name Hin) as Hname.
  assert (Hvalid : isValid (TKvsDatabase.database name (dict (thePool w))) = true).
  { by rewrite Hname. }
  assert (Hgood : db = TKvsDatabase.database name (dict (thePool w)) →
            isOpen db (dict p') = true →
            if isValid db then
              true = true
              ∧ isOpen db (dict p') = true
              ∧ TKvsDatabase.driverName db = driverName type
              ∧ connectionName db ∈ warm type (thePool w) ++ cold type (thePool w)
              ∧ (∀ type', connectionName db ∉ warm type' p' ++ cold type' p')
              ∧ TKvsDatabase.database (connectionName db) (dict p') = db
            else db = invalid ∧ (true = false ∨ connects = false)).
  { intros Hdb' Hopen. rewrite Hdb' in Hnd', Hheld' |- *. rewrite Hvalid in *.
    rewrite connectionName_database. split_and!; try done.
    - by rewrite <- Hdb'.
    - by rewrite Hname.
    - intros type'.
      pose proof (held_not_pooled _ (TKvsDatabase.database name (dict (thePool w)))
                    type' Hnd') as Hnot.
      simpl in Hnot. rewrite connectionName_database in Hnot.
      apply Hnot, list_elem_of_here. }
  destruct Hcase as [(_ & Hdb' & Hopen & Hd)|(_ & _ & _ & Hopen)].
  - apply Hgood; [done|]. by rewrite Hd.
  - rewrite Hvalid, andb_true_r in Hopen. destruct connects.
    + destruct Hopen as [Hdb' Hd]. apply Hgood; [done|].
      rewrite Hdb', Hd, isOpen_setOpened, decide_True by done.
      by rewrite Hvalid.
    + destruct Hopen as [-> _]. simpl. split; [done|by right].
Qed.

(** X4: In a reachable state no connection of a cold stack is open, so the
    branch of [database] that returns an open connection taken from the
    cold stack is never entered: a call that returns without an open
    attempt took its connection from the warm stack, and a call that finds
    the warm stack empty makes an open attempt. *)
Theorem cold_connections_are_closed (app : TWebApplication) (garbage : Z) (w : World) :
  reachable app garbage w →
  (∀ type name,
     name ∈ cold type (thePool w) →
     isOpen (TKvsDatabase.database name (dict (thePool w))) (dict (thePool w)) = false)
  ∧ (∀ type connects fuel db p' tr,
       isKvsAvailable app type = true →
       database app type connects fuel (thePool w) = Some (db, p', tr) →
       (tr = [] ∧ connectionName db ∈ warm type (thePool w))
       ∨ (∃ name, tr = [OpenAttempt name]
                  ∧ name ∈ warm type (thePool w) ++ cold type (thePool w)
                  ∧ warm type p' = [])).
Proof.
  intros Hw. pose proof (reachable_cold_closed _ _ _ Hw) as Hclosed.
  split; [exact Hclosed|].
  intros type connects fuel db p' tr Hav Hdb.
  destruct (reachable_invariant _ _ _ Hw) as ((Hwf & _) & Hnd & _).
  unfold database in Hdb. rewrite Hav in Hdb. simpl in Hdb.
  destruct (databaseLoop_moves _ _ _ _ _ _ _ Hwf Hdb)
    as (_ & _ & _ & _ & _ & name & Hperm & Hcase).
  assert (Hin : name ∈ warm type (thePool w) ++ cold type (thePool w)).
  { rewrite Hperm. apply list_elem_of_here. }
  destruct Hcase as [(-> & -> & Hopen & _)|(-> & Hwarm & _)].
  - left. rewrite connectionName_database.
    assert (Hnc : name ∉ cold type (thePool w)).
    { intros Hc. by rewrite (Hclosed type name Hc) in Hopen. }
    apply elem_of_app in Hin as [Hin|Hin]; [|done].
    by split.
  - right. by exists name.
Qed.

(** X5: A tick closes no connection that a caller holds: no close is called on
    its name, it is as open as it was, and the dictionary still gives the
    caller's handle on it. *)
Theorem tick_spares_held (app : TWebApplication) (garbage : Z) (w : World)
    (now : Z) (db : TKvsDatabase.t) :
  reachable app garbage w →
  db ∈ inUse w →
  ∃ p' tr,
    timerEvent app true now (thePool w) = (p', tr)
    ∧ (CloseCall (connectionName db) ∉ tr)
    ∧ isOpen db (dict p') = isOpen db (dict (thePool w))
    ∧ TKvsDatabase.database (connectionName db) (dict p') = db.
Proof.
  intros Hw Hin.
  destruct (reachable_invariant _ _ _ Hw) as ((Hwf & _ & Hheld) & Hnd & _).
  destruct (timerEvent_moves app now _ Hwf) as (p' & Heq & _ & _ & _ & Hd & _).
  destruct (Hheld db Hin) as [_ Hdb].
  assert (Hnot : connectionName db
                 ∉ reclaimed app now (thePool w) MongoDB
                   ++ reclaimed app now (thePool w) Redis).
  { intros Hr.
    assert (∃ type, connectionName db ∈ warm type (thePool w)) as [type Hwarm].
    { unfold reclaimed in Hr. apply elem_of_app in Hr as [Hr|Hr].
      - exists MongoDB. destruct (reclaims _ _ _ MongoDB); [done|by apply elem_of_nil in Hr].
      - exists Redis. destruct (reclaims _ _ _ Redis); [done|by apply elem_of_nil in Hr]. }
    apply (held_not_pooled w db type Hnd Hin), elem_of_app. by left. }
  exists p', (map CloseCall
               (reclaimed app now (thePool w) MongoDB ++ reclaimed app now (thePool w) Redis)).
  split_and!; [done| | |].
  - intros (n & Heqn & Hn)%list_elem_of_fmap. by simplify_eq.
  - rewrite Hd. rewrite <- Hdb at 1 2.
    unfold connectionName in Hnot.
    by rewrite isOpen_closeAll, decide_False.
  - by rewrite Hd, database_closeAll.
Qed.

(** X6: A second tick at the same clock reading finds nothing to do. *)
Theorem tick_twice_is_tick_once (app : TWebApplication) (now : Z) (p : Pool) :
  wellFormed p →
  ∃ p' tr,
    timerEvent app true now p = (p', tr)
    ∧ timerEvent app true now p' = (p', []).
Proof.
  intros Hwf.
  destruct (timerEvent_moves app now p Hwf) as (p' & Heq & Hwf' & Hlt & _ & _ & Hst).
  destruct (timerEvent_moves app now p' Hwf')
    as (p'' & Heq' & Hwf'' & Hlt' & Htm' & Hd' & Hst').
  assert (Hnone : ∀ type, reclaimed app now p' type = []).
  { intros type. unfold reclaimed.
    destruct (reclaims app now p' type) eqn:Hr; [|done].
    destruct (Hst type) as [Hw _].
    assert (Hr' : reclaims app now p type = true).
    { unfold reclaims, lastReleasedAt in *. by rewrite <- Hlt. }
    by rewrite Hr' in Hw. }
  rewrite !Hnone in Heq', Hd'.
  change (map CloseCall ([] ++ [])) with (@nil Effect) in Heq'.
  change (closeAll ([] ++ []) (dict p')) with (dict p') in Hd'.
  eexists p', _. split; [exact Heq|].
  rewrite Heq'. f_equal. apply pool_ext; try done.
  intros type. destruct (Hst' type) as [Hw Hc]. rewrite Hnone in Hc.
  split; [|done]. rewrite Hw.
  destruct (reclaims app now p' type) eqn:Hr; [|done].
  pose proof (Hnone type) as Hn. unfold reclaimed in Hn. by rewrite Hr in Hn.
Qed.

(** [pool] on a valid handle of the driver of a type. *)
Lemma pool_returns type db now p :
  wellFormed p →
  isValid db = true →
  TKvsDatabase.driverName db = driverName type →
  ∃ p1,
    pool db now p = Returned (invalid, p1)
    ∧ wellFormed p1
    ∧ dict p1 = dict p
    ∧ warm type p1 = connectionName db :: warm type p
    ∧ lastReleasedAt type p1 = uint now
    ∧ lastCachedTime p1 = <[ slot type := uint now ]> (lastCachedTime p)
    ∧ (∀ type', type' ≠ type → warm type' p1 = warm type' p)
    ∧ (∀ type', cold type' p1 = cold type' p).
Proof.
  intros Hwf Hvalid Hdrv. unfold pool. rewrite Hvalid, Hdrv, value_driverName.
  assert ((Type_to_int type <? 0)%Z = false) as -> by by destruct type.
  fold (slot type). eexists. split; [reflexivity|].
  set (p0 := setCached _ _ _).
  assert (Hwf0 : wellFormed p0) by by apply wellFormed_setCached.
  split_and!; try done.
  - by apply wellFormed_setLastCached.
  - change (warm type (setLastCached ?i ?x ?q)) with (warm type q).
    unfold p0. rewrite warm_setCached by done. by rewrite decide_True.
  - unfold lastReleasedAt. simpl. apply list_lookup_total_insert_eq.
    destruct Hwf as (_ & Hlt & _). rewrite Hlt. destruct type; cbv; lia.
  - intros type' Hne.
    change (warm type' (setLastCached ?i ?x ?q)) with (warm type' q).
    unfold p0. rewrite warm_setCached by done. by rewrite decide_False.
Qed.

(** X7: A release puts off the reclaim of the whole warm stack of its type: a
    tick no more than 30 seconds after it takes no name of that stack,
    however long the names under the released one have been there. *)
Theorem release_defers_reclaim (app : TWebApplication) (type : Type_)
    (db : TKvsDatabase.t) (now now' : Z) (p : Pool) :
  wellFormed p →
  isValid db = true →
  TKvsDatabase.driverName db = driverName type →
  (0 ≤ now < 2 ^ 32)%Z →
  (30 ≤ now' < 2 ^ 32)%Z →
  (now' - now ≤ 30)%Z →
  ∃ p1 p2 tr,
    pool db now p = Returned (invalid, p1)
    ∧ timerEvent app true now' p1 = (p2, tr)
    ∧ warm type p2 = connectionName db :: warm type p
    ∧ cold type p2 = cold type p
    ∧ ∀ name, CloseCall name ∈ tr → ∃ type', type' ≠ type ∧ name ∈ warm type' p.
Proof.
  intros Hwf Hvalid Hdrv Hnow Hnow' Hdiff.
  destruct (pool_returns type db now p Hwf Hvalid Hdrv)
    as (p1 & Hpool & Hwf1 & _ & Hwarm & Hlast & _ & Hoth & Hcold).
  destruct (timerEvent_moves app now' p1 Hwf1) as (p2 & Heq & _ & _ & _ & _ & Hst).
  assert (Hkeep : reclaims app now' p1 type = false).
  { unfold reclaims. rewrite Hlast, uint_minus_30, uint_small by lia.
    apply andb_false_iff. right. apply Z.ltb_ge. lia. }
  eexists p1, p2, _. split_and!; [exact Hpool|exact Heq| | |].
  - destruct (Hst type) as [-> _]. by rewrite Hkeep.
  - destruct (Hst type) as [_ ->]. unfold reclaimed. by rewrite Hkeep, Hcold.
  - intros name (n & Heqn & Hn)%list_elem_of_fmap. injection Heqn as <-.
    assert (∃ type', reclaims app now' p1 type' = true ∧ name ∈ warm type' p1)
      as (type' & Hr & Hin).
    { unfold reclaimed in Hn. apply elem_of_app in Hn as [Hn|Hn].
      - exists MongoDB. destruct (reclaims _ _ _ MongoDB); [done|by apply elem_of_nil in Hn].
      - exists Redis. destruct (reclaims _ _ _ Redis); [done|by apply elem_of_nil in Hn]. }
    assert (Hne : type' ≠ type) by (intros ->; by rewrite Hkeep in Hr).
    exists type'. split; [done|]. by rewrite <- (Hoth type' Hne).
Qed.

(** X8: When callers hold as many connections of a type as it has capacity,
    [database] of that type goes round its loop without returning, whatever
    the backend would answer; once one of the held handles is given back,
    the call returns within two rounds. *)
Theorem exhausted_type_blocks (app : TWebApplication) (garbage : Z) (w : World)
    (type : Type_) :
  reachable app garbage w →
  isKvsAvailable app type = true →
  length (inUseOf type (inUse w)) = capacity app type →
  (∀ connects fuel, database app type connects fuel (thePool w) = None)
  ∧ (∀ db now,
       db ∈ inUseOf type (inUse w) →
       ∃ p1,
         pool db now (thePool w) = Returned (invalid, p1)
         ∧ ∀ connects fuel, 2 ≤ fuel →
             is_Some (database app type connects fuel p1)).
Proof.
  intros Hw Hav Hlen.
  destruct (reachable_invariant _ _ _ Hw) as ((Hwf & _ & Hheld) & _ & Htot).
  specialize (Htot type). unfold total in Htot.
  assert (Hwarm : warm type (thePool w) = []) by (apply length_zero_iff_nil; lia).
  assert (Hcold : cold type (thePool w) = []) by (apply length_zero_iff_nil; lia).
  split.
  - intros connects fuel. unfold database. rewrite Hav. simpl.
    by apply databaseLoop_spins.
  - intros db now [Hdrv Hin]%list_elem_of_filter.
    destruct (Hheld db Hin) as [Hvalid _].
    destruct (pool_returns type db now (thePool w) Hwf Hvalid Hdrv)
      as (p1 & Hpool & Hwf1 & _ & Hwarm1 & _).
    exists p1. split; [done|]. intros connects fuel Hfuel.
    unfold database. rewrite Hav. simpl.
    apply databaseLoop_returns; [done| |].
    + by rewrite Hwarm1.
    + rewrite Hwarm1, Hwarm. simpl. lia.
Qed.

(** X9: [pool] throws exactly when it is given a valid handle whose driver is
    the driver of no type; the pool is then as it was, since nothing was
    written before the [throw]. *)
Theorem pool_throws_iff_unknown_driver (db : TKvsDatabase.t) (now : Z) (p : Pool) :
  (∃ msg, pool db now p = RuntimeException msg)
  ↔ isValid db = true ∧ ∀ type, TKvsDatabase.driverName db ≠ driverName type.
Proof.
  unfold pool. destruct (isValid db).
  - destruct (value kvsTypeHash (TKvsDatabase.driverName db) (-1) <? 0)%Z eqn:Hneg.
    + split; [|by eexists]. intros _. split; [done|]. intros type Hdrv.
      rewrite Hdrv, value_driverName in Hneg. by destruct type.
    + split; [by intros [? ?]|]. intros [_ Hno].
      apply Z.ltb_ge, value_nonneg in Hneg as (type & Hdrv & _).
      by destruct (Hno type).
  - split; [by intros [? ?]|by intros [? _]].
Qed.

(** The names [init] makes for a type, by index. *)
Lemma elem_of_connNames_capacity app type name :
  name ∈ connNames type 0 (capacity app type)
  ↔ isKvsAvailable app type = true
    ∧ ∃ i, (0 ≤ i < maxNumberOfThreadsPerAppServer app)%Z
           ∧ name = connName (Type_to_int type) i.
Proof.
  rewrite elem_of_connNames. unfold capacity.
  destruct (isKvsAvailable app type).
  - split.
    + intros (j & Hj & ->). split; [done|]. exists j. split; [lia|done].
    + intros (_ & i & Hi & ->). exists i. split; [lia|done].
  - split; [intros (j & Hj & _); simpl in Hj; lia|by intros [? _]].
Qed.

(** X10: Every handle that a caller holds is the handle on one of the
    connections that [init] made for an available type; giving it back
    never throws. *)
Theorem held_handle_is_pool_connection (app : TWebApplication) (garbage : Z)
    (w : World) (db : TKvsDatabase.t) :
  reachable app garbage w →
  db ∈ inUse w →
  ∃ type i,
    isKvsAvailable app type = true
    ∧ (0 ≤ i < maxNumberOfThreadsPerAppServer app)%Z
    ∧ db = mkHandle (connName (Type_to_int type) i) (Some (driverName type))
    ∧ ∀ now, ∃ p', pool db now (thePool w) = Returned (invalid, p').
Proof.
  intros Hw Hin.
  destruct (reachable_invariant _ _ _ Hw) as ((Hwf & _ & Hheld) & _ & _).
  destruct (Hheld db Hin) as [Hvalid Hdb].
  rewrite (reachable_handles _ _ _ Hw) in Hdb.
  unfold TKvsDatabase.database in Hdb.
  destruct (dict (instance app garbage) !! connectName db) as [d|] eqn:Hd;
    [|by rewrite <- Hdb in Hvalid].
  apply instance_dict in Hd as (type & Hname & ->).
  apply elem_of_connNames_capacity in Hname as (Hav & i & Hi & Hname).
  simpl in Hdb. rewrite Hname in Hdb.
  exists type, i. split; [done|]. split; [done|]. split; [by rewrite <- Hdb|].
  intros now.
  destruct (pool_returns type db now (thePool w) Hwf Hvalid) as (p' & Hpool & _).
  - by rewrite <- Hdb.
  - by exists p'.
Qed.

(** X11: What [init] builds: the dictionary holds, for each available type, the
    connections [kvsTT_0], ..., [kvsTT_(max-1)], with the driver of the type
    and closed, and nothing else; all their names are on the cold stacks,
    the last made on top; the settings were looked up once for each
    connection; the timer runs unless no type is available. *)
Theorem init_registers_closed_connections (app : TWebApplication) (garbage : Z) :
  ∃ p tr,
    init app (maxNumberOfThreadsPerAppServer app) garbage = (p, tr)
    ∧ (∀ name d,
         dict p !! name = Some d
         ↔ ∃ type i,
             isKvsAvailable app type = true
             ∧ (0 ≤ i < maxNumberOfThreadsPerAppServer app)%Z
             ∧ name = connName (Type_to_int type) i
             ∧ d = mkData (driverName type) false)
    ∧ (∀ type,
         warm type p = []
         ∧ cold type p = rev (connNames type 0 (capacity app type)))
    ∧ tr = replicate (capacity app MongoDB) (SettingsLookup MongoDB)
           ++ replicate (capacity app Redis) (SettingsLookup Redis)
    ∧ (timer p = None ↔ ∀ type, isKvsAvailable app type = false).
Proof.
  destruct (init app (maxNumberOfThreadsPerAppServer app) garbage) as [p tr] eqn:Hinit.
  assert (Hp : p = instance app garbage) by (unfold instance; by rewrite Hinit).
  destruct (instance_built app garbage) as (_ & Hst & _ & Htm).
  destruct (init_built app garbage) as (Htr & _).
  rewrite Hinit in Htr. simpl in Htr. rewrite <- Hp in Hst, Htm.
  exists p, tr. split_and!; [done| | |done|].
  - intros name d. rewrite Hp, instance_dict. split.
    + intros (type & Hin & ->).
      apply elem_of_connNames_capacity in Hin as (Hav & i & Hi & ->).
      by exists type, i.
    + intros (type & i & Hav & Hi & -> & ->). exists type. split; [|done].
      apply elem_of_connNames_capacity. split; [done|]. by exists i.
  - intros type. by destruct (Hst type) as (? & ? & _).
  - rewrite Htm. split.
    + intros Hnone type.
      destruct type; simpl;
        destruct (isMongoDbAvailable app), (isRedisAvailable app); done.
    + intros Hno. pose proof (Hno MongoDB) as HM. pose proof (Hno Redis) as HR.
      simpl in HM, HR. by rewrite HM, HR.
Qed.

Lemma connNames_snoc type i n :
  connNames type i (S n)
  = connNames type i n ++ [connName (Type_to_int type) (i + Z.of_nat n)].
Proof.
  revert i. induction n as [|n IH]; intros i.
  - simpl. by rewrite Z.add_0_r.
  - change (connNames type i (S (S n)))
      with (connName (Type_to_int type) i :: connNames type (i + 1) (S n)).
    rewrite IH. cbn [connNames app]. do 4 f_equal. lia.
Qed.

(** X12: The first connection that the fresh pool hands out is the last one
    [init] made: the stack gives the names back in reverse order. *)
Theorem first_connection_is_last_created (app : TWebApplication) (garbage : Z)
    (type : Type_) (fuel : nat) :
  isKvsAvailable app type = true →
  (0 < maxNumberOfThreadsPerAppServer app)%Z →
  let name := connName (Type_to_int type) (maxNumberOfThreadsPerAppServer app - 1) in
  ∃ p',
    database app type true (S fuel) (instance app garbage)
    = Some (mkHandle name (Some (driverName type)), p', [OpenAttempt name])
    ∧ warm type p' = []
    ∧ cold type p'
      = rev (connNames type 0 (Z.to_nat (maxNumberOfThreadsPerAppServer app - 1))).
Proof.
  intros Hav Hmax name.
  destruct (instance_built app garbage) as (Hwf & Hst & Hreg & _).
  destruct (Hst type) as (Hwarm & Hcold & _).
  unfold capacity in Hcold. rewrite Hav in Hcold.
  set (m := maxNumberOfThreadsPerAppServer app) in *.
  replace (Z.to_nat m) with (S (Z.to_nat (m - 1))) in Hcold by lia.
  rewrite connNames_snoc, rev_app_distr in Hcold. simpl in Hcold.
  replace (0 + Z.of_nat (Z.to_nat (m - 1)))%Z with (m - 1)%Z in Hcold by lia.
  fold name in Hcold.
  set (p := instance app garbage) in *.
  assert (Hd : dict p !! name = Some (mkData (driverName type) false)).
  { apply (Hreg type). rewrite Hcold. apply list_elem_of_here. }
  destruct (database_lookup _ _ _ _ Hd) as [Hdb Hclosed].
  unfold database. rewrite Hav. cbn [negb databaseLoop]. unfold databaseRound.
  fold (warm type p). rewrite Hwarm. cbn [TStack.pop].
  fold (cold type p). rewrite Hcold. cbn [TStack.pop].
  cbv zeta. cbn [dict setAvailable]. rewrite Hclosed, Hdb.
  unfold open. cbn [drv negb connectName].
  eexists. split; [reflexivity|].
  change (warm type (setDict ?d ?q)) with (warm type q).
  change (cold type (setDict ?d ?q)) with (cold type q).
  split.
  - change (warm type (setAvailable ?i ?s ?q)) with (warm type q). exact Hwarm.
  - rewrite cold_setAvailable by done. by rewrite decide_True.
Qed.

(** *** The destructor *)

Lemma close_lookup_ne name n (d : gmap string Data) :
  n ≠ name → close (TKvsDatabase.database name d) d !! n = d !! n.
Proof.
  intros Hne. unfold close, TKvsDatabase.database, setOpened.
  destruct (d !! name) as [e|] eqn:He; simpl; [|done].
  rewrite He. by rewrite lookup_insert_ne.
Qed.

Lemma closeAndRemove_lookup cache (d : gmap string Data) :
  snd (closeAndRemove cache d) = map CloseCall cache
  ∧ ∀ n, fst (closeAndRemove cache d) !! n
         = if decide (n ∈ cache) then None else d !! n.
Proof.
  revert d. induction cache as [|name rest IH]; intros d.
  - split; [done|]. intros n. rewrite decide_False; [done|apply not_elem_of_nil].
  - cbn [closeAndRemove]. cbv zeta.
    specialize (IH (removeDatabase name (close (TKvsDatabase.database name d) d))).
    destruct (closeAndRemove rest _) as [d' tr]. simpl in IH |- *.
    destruct IH as [-> IH]. split; [done|].
    intros n. rewrite IH. unfold removeDatabase.
    destruct (decide (n = name)) as [->|Hne].
    + rewrite lookup_delete_eq. rewrite (decide_True (P := name ∈ name :: rest));
        [by case_decide|apply list_elem_of_here].
    + rewrite lookup_delete_ne, close_lookup_ne by done.
      repeat case_decide; try done.
      * exfalso. by apply H0, list_elem_of_further.
      * apply elem_of_cons in H0 as [?|?]; done.
Qed.

Lemma removeNames_lookup stack (d : gmap string Data) n :
  removeNames stack d !! n = if decide (n ∈ stack) then None else d !! n.
Proof.
  revert d. induction stack as [|name rest IH]; intros d.
  - rewrite decide_False; [done|apply not_elem_of_nil].
  - cbn [removeNames]. rewrite IH. unfold removeDatabase.
    destruct (decide (n = name)) as [->|Hne].
    + rewrite lookup_delete_eq. rewrite (decide_True (P := name ∈ name :: rest));
        [by case_decide|apply list_elem_of_here].
    + rewrite lookup_delete_ne by done.
      repeat case_decide; try done.
      * exfalso. by apply H0, list_elem_of_further.
      * apply elem_of_cons in H0 as [?|?]; done.
Qed.

(** One round of the [for] loop of the destructor. *)
Lemma destroyTypes_round app type rest p :
  destroyTypes app (type :: rest) p
  = let r1 :=
      if negb (isKvsAvailable app type) then (p, [])
      else
        let d1 := fst (closeAndRemove (warm type p) (dict p)) in
        (setDict (removeNames (cold type p) d1)
           (setAvailable (slot type) [] (setDict d1 (setCached (slot type) [] p))),
         snd (closeAndRemove (warm type p) (dict p))) in
    let r2 := destroyTypes app rest (fst r1) in
    (fst r2, snd r1 ++ snd r2).
Proof.
  cbn [destroyTypes]. fold (warm type p).
  destruct (negb (isKvsAvailable app type)); cbv zeta; cbn [fst snd].
  - by destruct (destroyTypes app rest p).
  - destruct (closeAndRemove (warm type p) (dict p)) as [d1 tr1]. cbn [fst snd].
    by destruct (destroyTypes app rest _).
Qed.

(** The names that the destructor takes off the stacks of a type. *)
Lemma destroy_type app type p :
  wellFormed p →
  ∃ p',
    (if negb (isKvsAvailable app type) then (p, [])
     else
       let d1 := fst (closeAndRemove (warm type p) (dict p)) in
       (setDict (removeNames (cold type p) d1)
          (setAvailable (slot type) [] (setDict d1 (setCached (slot type) [] p))),
        snd (closeAndRemove (warm type p) (dict p))))
    = (p', if isKvsAvailable app type then map CloseCall (warm type p) else [])
    ∧ wellFormed p'
    ∧ timer p' = timer p
    ∧ lastCachedTime p' = lastCachedTime p
    ∧ (∀ type', type' ≠ type →
         warm type' p' = warm type' p ∧ cold type' p' = cold type' p)
    ∧ (if isKvsAvailable app type then warm type p' = [] ∧ cold type p' = []
       else warm type p' = warm type p ∧ cold type p' = cold type p)
    ∧ ∀ n, dict p' !! n
           = if isKvsAvailable app type
                && bool_decide (n ∈ warm type p ++ cold type p)
             then None else dict p !! n.
Proof.
  intros Hwf. destruct (isKvsAvailable app type); cbn [negb andb].
  - destruct (closeAndRemove_lookup (warm type p) (dict p)) as [Htr Hd1].
    destruct (closeAndRemove (warm type p) (dict p)) as [d1 tr1].
    simpl in Htr, Hd1. subst tr1. cbv zeta. cbn [fst snd].
    eexists. split; [reflexivity|].
    assert (Hwf1 : wellFormed (setCached (slot type) [] p))
      by by apply wellFormed_setCached.
    assert (Hwf2 : wellFormed (setDict d1 (setCached (slot type) [] p)))
      by by apply wellFormed_setDict.
    split; [by apply wellFormed_setDict, wellFormed_setAvailable|].
    split; [done|]. split; [done|]. split; [|split].
    + intros type' Hne.
      change (warm type' (setDict ?d ?q)) with (warm type' q).
      change (cold type' (setDict ?d ?q)) with (cold type' q).
      change (warm type' (setAvailable ?i ?s ?q)) with (warm type' q).
      rewrite (cold_setAvailable type type' [] (setDict d1 (setCached (slot type) [] p)))
        by done.
      change (warm type' (setDict ?d ?q)) with (warm type' q).
      change (cold type' (setDict ?d ?q)) with (cold type' q).
      rewrite warm_setCached by done. by rewrite !decide_False.
    + change (warm type (setDict ?d ?q)) with (warm type q).
      change (cold type (setDict ?d ?q)) with (cold type q).
      change (warm type (setAvailable ?i ?s ?q)) with (warm type q).
      rewrite (cold_setAvailable type type [] (setDict d1 (setCached (slot type) [] p)))
        by done.
      change (warm type (setDict ?d ?q)) with (warm type q).
      rewrite warm_setCached by done. by rewrite !decide_True.
    + intros n. cbn [dict setDict].
      rewrite removeNames_lookup, Hd1.
      case_bool_decide as Hin; repeat case_decide; try done;
        try (apply elem_of_app in Hin as [?|?]; done);
        exfalso; apply Hin, elem_of_app; auto.
  - exists p. split_and!; done.
Qed.

(** What the destructor does to the stacks and to the dictionary. *)
Lemma destructor_moves app p :
  wellFormed p →
  ∃ p',
    destructor app p
    = (p', (if isKvsAvailable app MongoDB then map CloseCall (warm MongoDB p) else [])
           ++ (if isKvsAvailable app Redis then map CloseCall (warm Redis p) else []))
    ∧ timer p' = None
    ∧ lastCachedTime p' = lastCachedTime p
    ∧ (∀ type,
         if isKvsAvailable app type then warm type p' = [] ∧ cold type p' = []
         else warm type p' = warm type p ∧ cold type p' = cold type p)
    ∧ ∀ n, dict p' !! n
           = if isKvsAvailable app Redis && bool_decide (n ∈ warm Redis p ++ cold Redis p)
             then None
             else if isKvsAvailable app MongoDB
                     && bool_decide (n ∈ warm MongoDB p ++ cold MongoDB p)
             then None else dict p !! n.
Proof.
  intros Hwf. unfold destructor, types.
  rewrite destroyTypes_round. cbv zeta. rewrite destroyTypes_round. cbv zeta.
  cbn [destroyTypes fst snd].
  set (p0 := setTimer None p).
  assert (Hwf0 : wellFormed p0) by done.
  destruct (destroy_type app MongoDB p0 Hwf0)
    as (p1 & Heq1 & Hwf1 & Htm1 & Hlt1 & Hoth1 & Hst1 & Hd1).
  cbv zeta in Heq1. rewrite Heq1. cbn [fst snd].
  destruct (destroy_type app Redis p1 Hwf1)
    as (p2 & Heq2 & Hwf2 & Htm2 & Hlt2 & Hoth2 & Hst2 & Hd2).
  cbv zeta in Heq2. rewrite Heq2. cbn [fst snd].
  assert (HwR : warm Redis p1 = warm Redis p) by by destruct (Hoth1 Redis).
  assert (HcR : cold Redis p1 = cold Redis p) by by destruct (Hoth1 Redis).
  rewrite HwR, HcR in Hd2. rewrite HwR, app_nil_r.
  change (warm MongoDB p0) with (warm MongoDB p) in *.
  change (cold MongoDB p0) with (cold MongoDB p) in *.
  change (dict p0) with (dict p) in *.
  exists p2. split_and!.
  - done.
  - by rewrite Htm2, Htm1.
  - by rewrite Hlt2, Hlt1.
  - intros [].
    + destruct (Hoth2 MongoDB) as [-> ->]; [done|]. exact Hst1.
    + rewrite <- HwR, <- HcR. exact Hst2.
  - intros n. by rewrite Hd2, Hd1.
Qed.

(** X13: The destructor stops the timer and, for each available type, empties
    both stacks: it closes every connection of the warm stack and removes
    every name of either stack from the dictionary.  The entries of all
    other names stay as they are, and the stacks of a type that is not
    available are not touched. *)
Theorem destructor_unregisters_pooled (app : TWebApplication) (p : Pool) :
  wellFormed p →
  ∃ p',
    destructor app p
    = (p', (if isKvsAvailable app MongoDB then map CloseCall (warm MongoDB p) else [])
           ++ (if isKvsAvailable app Redis then map CloseCall (warm Redis p) else []))
    ∧ timer p' = None
    ∧ lastCachedTime p' = lastCachedTime p
    ∧ (∀ type,
         if isKvsAvailable app type then warm type p' = [] ∧ cold type p' = []
         else warm type p' = warm type p ∧ cold type p' = cold type p)
    ∧ (∀ type name,
         isKvsAvailable app type = true →
         name ∈ warm type p ++ cold type p →
         dict p' !! name = None)
    ∧ (∀ name,
         (∀ type, isKvsAvailable app type = true →
                  name ∉ warm type p ++ cold type p) →
         dict p' !! name = dict p !! name).
Proof.
  intros Hwf.
  destruct (destructor_moves app p Hwf) as (p' & Heq & Htm & Hlt & Hst & Hd).
  exists p'. split_and!; try done.
  - intros type name Hav Hin. rewrite Hd.
    destruct type; rewrite Hav; cbn [andb].
    + rewrite (bool_decide_eq_true_2 _ Hin). by destruct (_ && _).
    + by rewrite (bool_decide_eq_true_2 _ Hin).
  - intros name Hout. rewrite Hd.
    destruct (isKvsAvailable app Redis) eqn:HR; cbn [andb].
    + rewrite bool_decide_eq_false_2 by by apply Hout.
      destruct (isKvsAvailable app MongoDB) eqn:HM; cbn [andb]; [|done].
      by rewrite bool_decide_eq_false_2 by by apply Hout.
    + destruct (isKvsAvailable app MongoDB) eqn:HM; cbn [andb]; [|done].
      by rewrite bool_decide_eq_false_2 by by apply Hout.
Qed.

(** X14: Destroying the pool that [init] built leaves the dictionary empty and
    closes nothing, as no connection was opened. *)
Theorem init_then_destructor_is_empty (app : TWebApplication) (garbage : Z) :
  ∃ p',
    destructor app (instance app garbage) = (p', [])
    ∧ dict p' = ∅
    ∧ timer p' = None
    ∧ ∀ type, warm type p' = [] ∧ cold type p' = [].
Proof.
  destruct (instance_built app garbage) as (Hwf & Hst & _ & _).
  destruct (destructor_moves app (instance app garbage) Hwf)
    as (p' & Heq & Htm & _ & Hstacks & Hd).
  exists p'. split_and!; [| |done|].
  - rewrite Heq. destruct (Hst MongoDB) as (-> & _). destruct (Hst Redis) as (-> & _).
    by destruct (isKvsAvailable app MongoDB), (isKvsAvailable app Redis).
  - apply map_empty. intros name. rewrite Hd.
    destruct (isKvsAvailable app Redis && _) eqn:HR; [done|].
    destruct (isKvsAvailable app MongoDB && _) eqn:HM; [done|].
    destruct (dict (instance app garbage) !! name) as [d|] eqn:Hdict; [|done].
    exfalso.
    apply instance_dict in Hdict as (type & Hname & _).
    pose proof Hname as Hav.
    apply elem_of_connNames_capacity in Hav as [Hav _].
    assert (Hin : name ∈ warm type (instance app garbage)
                         ++ cold type (instance app garbage)).
    { destruct (Hst type) as (_ & -> & _). apply elem_of_app. right.
      by apply elem_of_rev. }
    destruct type; rewrite Hav in *; cbn [andb] in *.
    + by rewrite (bool_decide_eq_true_2 _ Hin) in HM.
    + by rewrite (bool_decide_eq_true_2 _ Hin) in HR.
  - intros type. specialize (Hstacks type).
    destruct (isKvsAvailable app type) eqn:Hav; [done|].
    destruct Hstacks as [-> ->]. destruct (Hst type) as (-> & -> & _).
    unfold capacity. by rewrite Hav.
Qed.

(** X15: The destructor leaves alone what callers hold: a connection that is in
    use when the pool is destroyed is not closed and stays registered in
    the dictionary of [TKvsDatabase]. *)
Theorem destructor_spares_held (app : TWebApplication) (garbage : Z) (w : World)
    (db : TKvsDatabase.t) :
  reachable app garbage w →
  db ∈ inUse w →
  ∃ p' tr,
    destructor app (thePool w) = (p', tr)
    ∧ (CloseCall (connectionName db) ∉ tr)
    ∧ dict p' !! connectionName db = dict (thePool w) !! connectionName db
    ∧ TKvsDatabase.database (connectionName db) (dict p') = db
    ∧ isOpen db (dict p') = isOpen db (dict (thePool w)).
Proof.
  intros Hw Hin.
  destruct (reachable_invariant _ _ _ Hw) as ((Hwf & _ & Hheld) & Hnd & _).
  destruct (Hheld db Hin) as [_ Hdb].
  destruct (destructor_moves app (thePool w) Hwf) as (p' & Heq & _ & _ & _ & Hd).
  assert (Hnot : ∀ type, connectionName db
                         ∉ warm type (thePool w) ++ cold type (thePool w)).
  { intros type. by apply held_not_pooled. }
  assert (Hsame : dict p' !! connectionName db = dict (thePool w) !! connectionName db).
  { rewrite Hd. rewrite !bool_decide_eq_false_2 by apply Hnot.
    by rewrite !andb_false_r. }
  eexists p', _. split; [exact Heq|]. split_and!.
  - intros [Hc|Hc]%elem_of_app.
    + destruct (isKvsAvailable app MongoDB); [|by apply elem_of_nil in Hc].
      apply list_elem_of_fmap in Hc as (n & Heqn & Hn). injection Heqn as <-.
      apply (Hnot MongoDB), elem_of_app. by left.
    + destruct (isKvsAvailable app Redis); [|by apply elem_of_nil in Hc].
      apply list_elem_of_fmap in Hc as (n & Heqn & Hn). injection Heqn as <-.
      apply (Hnot Redis), elem_of_app. by left.
  - done.
  - unfold TKvsDatabase.database, connectionName in *. by rewrite Hsame.
  - unfold isOpen. unfold connectionName in Hsame. by rewrite Hsame.
Qed.

(** *** Runs *)

Lemma reachable_warmWorld :
  reachable Samples.app2 0 (mkWorld Samples.warmPool [Samples.redis1]).
Proof.
  eapply reachable_step; [apply reachable_heldWorld|].
  by apply (step_release Samples.app2 Samples.heldWorld [] Samples.redis0
              [Samples.redis1] 1000 invalid Samples.warmPool).
Qed.

Lemma database_spins_iff_empty_witness :
  wellFormed Samples.leakPool
  ∧ ∀ fuel, database Samples.app1 Redis false fuel Samples.leakPool = None.
Proof.
  assert (Hwf : wellFormed Samples.leakPool) by (repeat split).
  split; [exact Hwf|].
  pose proof (database_spins_iff_empty Samples.app1 Redis false Samples.leakPool Hwf)
    as Hspin.
  change (isKvsAvailable Samples.app1 Redis) with true in Hspin.
  destruct Hspin as [[_ Hspin] _]. apply Hspin. split; reflexivity.
Defined.

Lemma database_returns_open_or_invalid_witness :
  ∃ p',
    database Samples.app2 Redis true 1 Samples.pool2
    = Some (Samples.redis1, p', [OpenAttempt "kvs01_1"])
    ∧ isOpen Samples.redis1 (dict p') = true.
Proof.
  eexists. split; [reflexivity|].
  pose proof (database_returns_open_or_invalid Samples.app2 0 Samples.world2 Redis
                true 1 Samples.redis1 _ _ (reachable_init _ _) eq_refl) as Hdb.
  change (isValid Samples.redis1) with true in Hdb.
  destruct Hdb as (_ & Hopen & _). exact Hopen.
Defined.

Lemma cold_connections_are_closed_witness :
  isOpen (TKvsDatabase.database "kvs01_0" (dict Samples.pool2)) (dict Samples.pool2)
  = false.
Proof.
  destruct (cold_connections_are_closed Samples.app2 0 Samples.world2
              (reachable_init _ _)) as [Hclosed _].
  apply (Hclosed Redis "kvs01_0").
  change (cold Redis (thePool Samples.world2)) with ["kvs01_1"; "kvs01_0"].
  apply list_elem_of_further, list_elem_of_here.
Defined.

Lemma tick_spares_held_witness :
  ∃ p' tr,
    timerEvent Samples.app2 true 1031 Samples.warmPool = (p', tr)
    ∧ (CloseCall "kvs01_1" ∉ tr)
    ∧ isOpen Samples.redis1 (dict p') = isOpen Samples.redis1 (dict Samples.warmPool).
Proof.
  destruct (tick_spares_held Samples.app2 0 (mkWorld Samples.warmPool [Samples.redis1])
              1031 Samples.redis1 reachable_warmWorld)
    as (p' & tr & Htick & Hnot & Hopen & _).
  - apply list_elem_of_here.
  - exists p', tr. split; [exact Htick|]. split; [exact Hnot|exact Hopen].
Defined.

Lemma tick_twice_is_tick_once_witness :
  ∃ p' tr,
    timerEvent Samples.app2 true 1031 Samples.warmPool = (p', tr)
    ∧ timerEvent Samples.app2 true 1031 p' = (p', []).
Proof.
  apply (tick_twice_is_tick_once Samples.app2 1031 Samples.warmPool).
  repeat split.
Defined.

Lemma release_defers_reclaim_witness :
  ∃ p1 p2 tr,
    pool Samples.redis0 1000 Samples.heldPool = Returned (invalid, p1)
    ∧ timerEvent Samples.app2 true 1030 p1 = (p2, tr)
    ∧ warm Redis p2 = "kvs01_0" :: warm Redis Samples.heldPool.
Proof.
  destruct (release_defers_reclaim Samples.app2 Redis Samples.redis0 1000 1030
              Samples.heldPool)
    as (p1 & p2 & tr & Hpool & Htick & Hwarm & _).
  - repeat split.
  - reflexivity.
  - reflexivity.
  - split; [easy|reflexivity].
  - split; [easy|reflexivity].
  - easy.
  - exists p1, p2, tr. split; [exact Hpool|]. split; [exact Htick|exact Hwarm].
Defined.

Lemma exhausted_type_blocks_witness :
  length (inUseOf Redis (inUse Samples.heldWorld)) = capacity Samples.app2 Redis
  ∧ ∀ connects fuel,
      database Samples.app2 Redis connects fuel Samples.heldPool = None.
Proof.
  split; [reflexivity|].
  destruct (exhausted_type_blocks Samples.app2 0 Samples.heldWorld Redis)
    as [Hblocks _].
  - apply reachable_heldWorld.
  - reflexivity.
  - reflexivity.
  - exact Hblocks.
Defined.

Lemma held_handle_is_pool_connection_witness :
  ∃ p', pool Samples.redis0 1000 Samples.heldPool = Returned (invalid, p').
Proof.
  destruct (held_handle_is_pool_connection Samples.app2 0 Samples.heldWorld
              Samples.redis0 reachable_heldWorld)
    as (type & i & _ & _ & _ & Hpool).
  - apply list_elem_of_here.
  - exact (Hpool 1000%Z).
Defined.

Lemma first_connection_is_last_created_witness :
  ∃ p',
    database Samples.app2 Redis true 1 Samples.pool2
    = Some (Samples.redis1, p', [OpenAttempt "kvs01_1"])
    ∧ warm Redis p' = []
    ∧ cold Redis p' = ["kvs01_0"].
Proof.
  apply (first_connection_is_last_created Samples.app2 0 Redis 0).
  - reflexivity.
  - reflexivity.
Defined.

Lemma destructor_unregisters_pooled_witness :
  ∃ p',
    destructor Samples.app2 Samples.warmPool = (p', [CloseCall "kvs01_0"])
    ∧ dict p' !! "kvs01_0" = None
    ∧ dict p' !! "kvs01_1" = dict Samples.warmPool !! "kvs01_1".
Proof.
  destruct (destructor_unregisters_pooled Samples.app2 Samples.warmPool)
    as (p' & Heq & _ & _ & _ & Hin & Hout).
  - repeat split.
  - exists p'. split; [exact Heq|]. split.
    + apply (Hin Redis); [reflexivity|].
      change (warm Redis Samples.warmPool) with ["kvs01_0"].
      apply list_elem_of_here.
    + apply Hout. intros [] Hav; [discriminate Hav|].
      change (warm Redis Samples.warmPool ++ cold Redis Samples.warmPool)
        with ["kvs01_0"].
      intros Hin'%list_elem_of_singleton. discriminate Hin'.
Defined.

Lemma destructor_spares_held_witness :
  ∃ p' tr,
    destructor Samples.app2 Samples.warmPool = (p', tr)
    ∧ (CloseCall "kvs01_1" ∉ tr)
    ∧ TKvsDatabase.database "kvs01_1" (dict p') = Samples.redis1.
Proof.
  destruct (destructor_spares_held Samples.app2 0
              (mkWorld Samples.warmPool [Samples.redis1]) Samples.redis1
              reachable_warmWorld)
    as (p' & tr & Heq & Hnot & _ & Hdb & _).
  - apply list_elem_of_here.
  - exists p', tr. split; [exact Heq|]. split; [exact Hnot|exact Hdb].
Defined.

End PoolLifeCycle.

(** * The pool when a release and a tick of the timer overlap *)

Section PoolRaces.
Import TKvsDatabase TKvsDatabasePool PoolWorld Interleaving.





End PoolRaces.


(** * More properties of the thread dispatcher *)

Section DispatcherMore.
Import TThreadApplicationServer.

(** The idle and the running threads are, in some order, the threads that
    the constructor created. *)
Lemma reachable_threads_created settings s :
  reachable settings s →
  maxThreads s = maxThreads (construct settings)
  ∧ threadPool s ++ running s ≡ₚ seq 0 (Z.to_nat (maxThreads s)).
Proof.
  induction 1 as [|s s' Hs (Hmax & Hperm) Hstep].
  - destruct (construct_built settings) as [Hp Hr]. rewrite Hp, Hr, app_nil_r.
    split; [done|]. by rewrite <- Permutation_rev.
  - pose proof (reachable_threads settings s Hs) as (_ & Hnd & _).
    destruct Hstep as [thread s' Hin|thread Hrun].
    + unfold incomingConnection in Hin.
      destruct (threadPool s) as [|thread' rest] eqn:Hpool; [done|].
      simpl in Hin. injection Hin as -> <-. simpl in *.
      split; [done|]. by rewrite <- Permutation_middle.
    + simpl. split; [done|]. rewrite <- Hperm.
      apply NoDup_app in Hnd as (_ & _ & Hnd2).
      apply list_elem_of_split in Hrun as (r1 & r2 & Hr).
      assert (Hrem : remove Nat.eq_dec thread (running s) = r1 ++ r2).
      { rewrite Hr in Hnd2 |- *.
        apply NoDup_app in Hnd2 as (_ & Hd1 & Hd2).
        apply NoDup_cons in Hd2 as [Hn2 _].
        rewrite remove_app. simpl. destruct (Nat.eq_dec thread thread); [|done].
        rewrite !notin_remove; [done| |].
        - intros Hin%list_elem_of_In. done.
        - intros Hin%list_elem_of_In. apply (Hd1 thread Hin). apply list_elem_of_here. }
      rewrite Hrem, Hr. unfold TStack.push. solve_Permutation.
Qed.

(** X16: A new connection is given a thread that the constructor created and that
    is not running; it gets none exactly when every thread is running. *)
Theorem incoming_takes_idle_thread (settings : TAppSettings) (s : Server) :
  reachable settings s →
  (∀ thread s',
     incomingConnection s = Some (thread, s') →
     (thread ∉ running s)
     ∧ thread < Z.to_nat (maxThreads s)
     ∧ threadPool s = thread :: threadPool s'
     ∧ running s' = thread :: running s)
  ∧ (incomingConnection s = None ↔ length (running s) = Z.to_nat (maxThreads s)).
Proof.
  intros Hs.
  pose proof (reachable_threads settings s Hs) as (_ & Hnd & Hlen).
  pose proof (reachable_threads_created settings s Hs) as (_ & Hperm).
  split.
  - intros thread s' Hin. unfold incomingConnection in Hin.
    destruct (threadPool s) as [|thread' rest] eqn:Hpool; [done|].
    simpl in Hin. injection Hin as -> <-. simpl in *.
    apply NoDup_cons in Hnd as [Hnin _].
    split_and!; try done.
    + intros Hrun. apply Hnin, elem_of_app. by right.
    + assert (Hin : thread ∈ seq 0 (Z.to_nat (maxThreads s))).
      { rewrite <- Hperm. apply list_elem_of_here. }
      apply list_elem_of_In, in_seq in Hin. lia.
  - unfold incomingConnection. destruct (threadPool s) as [|thread rest]; simpl in *.
    + split; [lia|done].
    + split; [done|lia].
Qed.

(** X17: A thread that finishes is the next one to be started, and the server is
    then as it was before, up to the order of the running threads. *)
Theorem finished_thread_reused_first (settings : TAppSettings) (s : Server)
    (thread : TActionThread) :
  reachable settings s →
  thread ∈ running s →
  ∃ s',
    incomingConnection (finished thread s) = Some (thread, s')
    ∧ threadPool s' = threadPool s
    ∧ running s' ≡ₚ running s
    ∧ maxThreads s' = maxThreads s.
Proof.
  intros Hs Hrun. eexists. split; [reflexivity|]. simpl. split_and!; try done.
  pose proof (reachable_threads settings s Hs) as (_ & Hnd & _).
  apply NoDup_app in Hnd as (_ & _ & Hnd2).
  apply list_elem_of_split in Hrun as (r1 & r2 & Hr).
  rewrite Hr in Hnd2 |- *.
  apply NoDup_app in Hnd2 as (_ & Hd1 & Hd2).
  apply NoDup_cons in Hd2 as [Hn2 _].
  rewrite remove_app. simpl. destruct (Nat.eq_dec thread thread); [|done].
  rewrite !notin_remove.
  - by rewrite Permutation_middle.
  - intros Hin%list_elem_of_In. done.
  - intros Hin%list_elem_of_In. apply (Hd1 thread Hin). apply list_elem_of_here.
Qed.

(** X18: [start] on a server that listens does nothing and answers [true].
    On one that does not listen it first loads the libraries; it succeeds
    exactly when the libraries load or the mode is not debug, the descriptor
    is positive and the socket takes it, and then the server listens and the
    static initializer ran last.  When it fails the members are as they
    were and the static initializer did not run, but the libraries were
    loaded, and the socket was given the descriptor unless the start had
    stopped before. *)
Theorem start_listens (debugMode loadLibraries setSocketDescriptor : bool) (l : Listener) :
  (isListening l = true → start debugMode loadLibraries setSocketDescriptor l = (true, l, []))
  ∧ (isListening l = false →
     let '(ok, l', calls) := start debugMode loadLibraries setSocketDescriptor l in
     (ok = true ↔ (loadLibraries = true ∨ debugMode = false)
                  ∧ (0 < listenSocket l)%Z ∧ setSocketDescriptor = true)
     ∧ isListening l' = ok
     ∧ listenSocket l' = listenSocket l
     ∧ reloadTimer l' = reloadTimer l
     ∧ (ok = false → l' = l)
     ∧ calls = LoadLibraries
               :: (if negb loadLibraries && debugMode then []
                   else if (listenSocket l <=? 0)%Z then []
                   else SetSocketDescriptor (listenSocket l)
                        :: (if ok then [StaticInitialize] else []))
     ∧ (StaticInitialize ∈ calls ↔ ok = true)
     ∧ (∀ sd, SetSocketDescriptor sd ∈ calls →
          sd = listenSocket l ∧ (0 < sd)%Z)).
Proof.
  split; intros Hl; unfold start; rewrite Hl; [done|].
  assert (Hno : ∀ c, c ≠ StaticInitialize → StaticInitialize ∉ [LoadLibraries; c]).
  { intros c Hc Hin. apply elem_of_cons in Hin as [?|Hin]; [done|].
    apply elem_of_cons in Hin as [?|Hin]; [done|]. by apply elem_of_nil in Hin. }
  destruct (negb loadLibraries && debugMode) eqn:Hlib.
  { apply andb_true_iff in Hlib as [Hlib ->]. apply negb_true_iff in Hlib as ->.
    split_and!; try done.
    - split; [done|]. by intros ([?|?] & _).
    - split; [|done]. intros Hin%list_elem_of_singleton. done.
    - intros sd Hin%list_elem_of_singleton. done. }
  assert (Hlib' : loadLibraries = true ∨ debugMode = false).
  { destruct loadLibraries, debugMode; auto. }
  destruct (Z.leb_spec (listenSocket l) 0) as [Hsd|Hsd].
  { split_and!; try done.
    - split; [done|]. intros (_ & ? & _). lia.
    - split; [|done]. intros Hin%list_elem_of_singleton. done.
    - intros sd Hin%list_elem_of_singleton. done. }
  destruct setSocketDescriptor; simpl.
  - split_and!; try done.
    + split; [done|]. intros _. apply list_elem_of_further, list_elem_of_further.
      apply list_elem_of_here.
    + intros sd Hin. apply elem_of_cons in Hin as [?|Hin]; [done|].
      apply elem_of_cons in Hin as [Heq|Hin]; [by injection Heq as ->|].
      apply list_elem_of_singleton in Hin. done.
  - split_and!; try done.
    + split; [done|]. by intros (_ & _ & ?).
    + split; [|done]. intros Hin. by apply Hno in Hin.
    + intros sd Hin. apply elem_of_cons in Hin as [?|Hin]; [done|].
      apply list_elem_of_singleton in Hin. by injection Hin as ->.
Qed.

(** X19: [stop] on a server that does not listen does nothing.  On one that
    listens it closes the socket and sets the descriptor to zero, waits for
    the threads (once, up to 10000 ms) exactly when auto reloading is off,
    and runs the static release; after it [stop] does nothing more, and
    [start] fails whatever the libraries and the socket answer: it loads
    the libraries and gives up at the descriptor, without a call to the
    socket or to the static initializer. *)
Theorem stop_cannot_restart (l : Listener) :
  (isListening l = false → stop l = (l, []))
  ∧ (isListening l = true →
     let '(l', calls) := stop l in
     isListening l' = false
     ∧ listenSocket l' = 0%Z
     ∧ reloadTimer l' = reloadTimer l
     ∧ calls = [Close]
               ++ (if isAutoReloadingEnabled l then [] else [WaitForAllDone 10000])
               ++ [StaticRelease]
     ∧ stop l' = (l', [])
     ∧ ∀ debugMode loadLibraries setSocketDescriptor,
         start debugMode loadLibraries setSocketDescriptor l'
         = (false, l', [LoadLibraries])).
Proof.
  split; intros Hl; unfold stop; rewrite Hl; [done|]. simpl.
  split_and!; try done.
  - unfold isAutoReloadingEnabled. simpl. by destruct (reloadTimer l).
  - intros debugMode loadLibraries setSocketDescriptor. unfold start. simpl.
    by destruct (negb loadLibraries && debugMode).
Qed.

Lemma finished_thread_reused_first_witness :
  ∃ s',
    incomingConnection
      (finished 2 (mkServer 3 [1; 0] [2])) = Some (2, s')
    ∧ threadPool s' = [1; 0].
Proof.
  destruct (finished_thread_reused_first (mkSettings (Some 3%Z) None)
              (mkServer 3 [1; 0] [2]) 2) as (s' & Hin & Hpool & _).
  - eapply reachable_step; [apply reachable_construct|].
    by apply (step_incoming _ 2 (mkServer 3 [1; 0] [2])).
  - apply list_elem_of_here.
  - exists s'. split; [exact Hin|exact Hpool].
Defined.

Lemma incoming_takes_idle_thread_witness :
  incomingConnection (mkServer 3 [] [0; 1; 2]) = None.
Proof.
  destruct (incoming_takes_idle_thread (mkSettings (Some 3%Z) None)
              (mkServer 3 [] [0; 1; 2])) as [_ Hnone].
  - eapply reachable_step; [eapply reachable_step; [eapply reachable_step;
      [apply reachable_construct|]|]|].
    + by apply (step_incoming _ 2 (mkServer 3 [1; 0] [2])).
    + by apply (step_incoming _ 1 (mkServer 3 [0] [1; 2])).
    + by apply (step_incoming _ 0 (mkServer 3 [] [0; 1; 2])).
  - apply Hnone. reflexivity.
Defined.

End DispatcherMore.


(** * Properties of the cache entries *)

Section CacheEntries.
Import TCacheSQLiteStore.
Context (pagesFor : list Row → Z) (pagesGrown : Z → list Row → Z).

Lemma filter_all {A} (P : A → Prop) `{!∀ x, Decision (P x)} (l : list A) :
  (∀ x, x ∈ l → P x) → filter P l = l.
Proof.
  induction l as [|x l IH]; intros Hall; [done|].
  rewrite filter_cons_True by (apply Hall, list_elem_of_here).
  f_equal. apply IH. intros y Hy. by apply Hall, list_elem_of_further.
Qed.

Lemma rowOf_Some key rs r : rowOf key rs = Some r → r ∈ rs ∧ k r = key.
Proof.
  unfold rowOf. intros [Hin Hk]%find_some. split; [by apply list_elem_of_In|].
  by apply bool_decide_eq_true in Hk.
Qed.

Lemma rowOf_None key rs : rowOf key rs = None ↔ ∀ r, r ∈ rs → k r ≠ key.
Proof.
  unfold rowOf. split.
  - intros Hnone r Hin Hk. apply list_elem_of_In in Hin.
    pose proof (find_none _ _ Hnone r Hin) as Hf. simpl in Hf.
    by apply bool_decide_eq_false in Hf.
  - intros Hall. induction rs as [|r rs IH]; [done|]. simpl.
    rewrite bool_decide_false by (apply Hall, list_elem_of_here).
    apply IH. intros r' Hr'. by apply Hall, list_elem_of_further.
Qed.

Lemma rowOf_filter_eq key rs : rowOf key (filter (λ r, k r ≠ key) rs) = None.
Proof. apply rowOf_None. by intros r [? _]%list_elem_of_filter. Qed.

Lemma rowOf_filter_ne key key' rs :
  key' ≠ key → rowOf key' (filter (λ r, k r ≠ key) rs) = rowOf key' rs.
Proof.
  intros Hne. induction rs as [|r rs IH]; [done|].
  destruct (decide (k r = key)) as [Hk|Hk].
  - rewrite filter_cons_False by naive_solver. simpl.
    rewrite bool_decide_false by congruence. done.
  - rewrite filter_cons_True by done. simpl. by rewrite IH.
Qed.

Lemma rowOf_app key rs r :
  rowOf key (rs ++ [r])
  = match rowOf key rs with
    | Some r' => Some r'
    | None => if bool_decide (k r = key) then Some r else None
    end.
Proof.
  induction rs as [|x rs IH]; simpl; [done|].
  by destruct (bool_decide (k x = key)).
Qed.

Lemma maxRowid_ge rs r : r ∈ rs → (ROWID r ≤ maxRowid rs)%Z.
Proof.
  induction 1 as [r rs|r x rs _ IH]; simpl; lia.
Qed.

Lemma tableOk_filter (P : Row → Prop) `{!∀ r, Decision (P r)} rs :
  tableOk rs → tableOk (filter P rs).
Proof.
  intros [Hk Hr]. split.
  - eapply sublist_NoDup; [exact Hk|apply sublist_map, sublist_filter].
  - eapply sublist_NoDup; [exact Hr|apply sublist_map, sublist_filter].
Qed.

Lemma tableOk_insert rs key ts blob :
  tableOk rs → rowOf key rs = None →
  tableOk (rs ++ [mkRow (maxRowid rs + 1) key ts blob]).
Proof.
  intros [Hk Hr] Hnone. split; rewrite map_app; simpl.
  - apply NoDup_app. split_and!; [done| |apply NoDup_singleton].
    intros x (r & -> & Hin)%list_elem_of_fmap_1 Heq%list_elem_of_singleton.
    by apply (proj1 (rowOf_None _ _) Hnone r).
  - apply NoDup_app. split_and!; [done| |apply NoDup_singleton].
    intros x (r & -> & Hin)%list_elem_of_fmap_1 Heq%list_elem_of_singleton.
    pose proof (maxRowid_ge rs r Hin). lia.
Qed.

(** What [set] leaves: the store after a [set] that is accepted. *)
Lemma set_accepted key value msecs now s :
  key ≠ "" → (0 < msecs)%Z →
  ∃ s1,
    set pagesGrown key value msecs now s = (true, s1)
    ∧ rows s1 = filter (λ r, k r ≠ key) (rows s)
               ++ [mkRow (maxRowid (filter (λ r, k r ≠ key) (rows s)) + 1)
                         key (qint64 (now + msecs)) value]
    ∧ _thresholdFileSize s1 = _thresholdFileSize s
    ∧ page_size s1 = page_size s.
Proof.
  intros Hkey Hms. unfold set, remove, write.
  rewrite !bool_decide_false by done.
  destruct (Z.leb_spec msecs 0) as [?|_]; [lia|]. simpl.
  rewrite rowOf_filter_eq. eexists. split_and!; done.
Qed.

Lemma get_stored key now s r :
  key ≠ "" → rowOf key (rows s) = Some r →
  get key now s = if (t r <? now)%Z then ("", snd (remove key s)) else (b r, s).
Proof.
  intros Hkey Hrow. unfold get, read. rewrite bool_decide_false by done.
  by rewrite Hrow.
Qed.

Lemma get_absent key now s :
  rowOf key (rows s) = None →
  fst (get key now s) = "" ∧ rows (snd (get key now s)) = rows s.
Proof.
  intros Hrow. unfold get, read, remove.
  destruct (bool_decide (key = "")) eqn:Hkey; [done|]. rewrite Hrow.
  destruct (0 <? now)%Z; [|done]. split; [done|]. simpl.
  apply filter_all. intros r Hin. by apply (proj1 (rowOf_None _ _) Hrow).
Qed.

Lemma filter_key_length key rs r :
  NoDup (map k rs) → rowOf key rs = Some r →
  length (filter (λ r, k r ≠ key) rs) + 1 = length rs.
Proof.
  intros Hnd Hrow. induction rs as [|x rs IH]; [done|].
  simpl in Hrow, Hnd. apply NoDup_cons in Hnd as [Hx Hnd].
  destruct (bool_decide (k x = key)) eqn:Hk.
  - apply bool_decide_eq_true in Hk.
    rewrite filter_cons_False by naive_solver.
    rewrite filter_all; [simpl; lia|].
    intros r' Hr' Heq. apply Hx. rewrite Hk, <- Heq.
    by apply (list_elem_of_fmap_2 k).
  - apply bool_decide_eq_false in Hk.
    rewrite filter_cons_True by done. simpl. rewrite <- (IH Hnd Hrow). lia.
Qed.

(** A sum inside the range of [qint64] is the sum; one above it is the sum
    less [2 ^ 64]. *)
Lemma qint64_sum (z : Z) :
  ((- 2 ^ 63 ≤ z < 2 ^ 63)%Z → qint64 z = z)
  ∧ ((2 ^ 63 ≤ z < 2 ^ 64)%Z → qint64 z = (z - 2 ^ 64)%Z).
Proof.
  unfold qint64. split; intros Hz.
  - rewrite Z.mod_small by lia. lia.
  - replace (z + 2 ^ 63)%Z with ((z - 2 ^ 63) + 1 * 2 ^ 64)%Z by lia.
    rewrite Z.mod_add by lia. rewrite Z.mod_small by lia. lia.
Qed.

(** X20: An entry that [set] stored is returned by [get] up to and including the
    millisecond [now + msecs], and the [get] leaves the store as it is, when
    the sum [now + msecs] is within [qint64]; when the sum leaves the range
    the expiry time that is stored is negative, and a [get] at a clock
    reading that is not negative returns the empty value. *)
Theorem set_then_get key value msecs now now' s :
  key ≠ "" → (0 < msecs < 2 ^ 63)%Z → (- 2 ^ 63 ≤ now < 2 ^ 63)%Z →
  ∃ s1,
    set pagesGrown key value msecs now s = (true, s1)
    ∧ exists_ key s1 = true
    ∧ ((now + msecs < 2 ^ 63)%Z → (now' ≤ now + msecs)%Z →
       get key now' s1 = (value, s1))
    ∧ ((2 ^ 63 ≤ now + msecs)%Z → (0 ≤ now')%Z →
       fst (get key now' s1) = ""
       ∧ exists_ key (snd (get key now' s1)) = false).
Proof.
  intros Hkey Hms Hnow.
  destruct (set_accepted key value msecs now s Hkey) as (s1 & Hset & Hrows & _);
    [lia|].
  exists s1. split; [done|].
  assert (Hrow : rowOf key (rows s1)
                 = Some (mkRow (maxRowid (filter (λ r, k r ≠ key) (rows s)) + 1)
                               key (qint64 (now + msecs)) value)).
  { rewrite Hrows, rowOf_app, rowOf_filter_eq. simpl. by rewrite bool_decide_true. }
  destruct (qint64_sum (now + msecs)) as [Hin Hover].
  split_and!.
  - unfold exists_. by rewrite Hrow.
  - intros Hsum Hnow'. rewrite (get_stored _ _ _ _ Hkey Hrow). simpl.
    rewrite Hin by lia.
    destruct (Z.ltb_spec (now + msecs) now') as [?|_]; [lia|done].
  - intros Hsum Hnow'. rewrite (get_stored _ _ _ _ Hkey Hrow). simpl.
    rewrite Hover by lia.
    destruct (Z.ltb_spec (now + msecs - 2 ^ 64) now') as [_|?]; [|lia].
    split; [done|]. unfold exists_, remove. rewrite bool_decide_false by done.
    simpl. by rewrite rowOf_filter_eq.
Qed.

(** X21: Past the expiry time that [set] stored (the sum [now + msecs] in
    [qint64]) the entry is still in the table, and [exists] says so, until a
    [get] finds it: that [get] returns the empty value and deletes the row,
    and the other rows stay. *)
Theorem get_expired_deletes key value msecs now now' s :
  key ≠ "" → (0 < msecs)%Z → (qint64 (now + msecs) < now')%Z →
  ∃ s1 s2,
    set pagesGrown key value msecs now s = (true, s1)
    ∧ exists_ key s1 = true
    ∧ get key now' s1 = ("", s2)
    ∧ exists_ key s2 = false
    ∧ rows s2 = filter (λ r, k r ≠ key) (rows s).
Proof.
  intros Hkey Hms Hnow.
  destruct (set_accepted key value msecs now s Hkey Hms) as (s1 & Hset & Hrows & _).
  assert (Hrow : rowOf key (rows s1)
                 = Some (mkRow (maxRowid (filter (λ r, k r ≠ key) (rows s)) + 1)
                               key (qint64 (now + msecs)) value)).
  { rewrite Hrows, rowOf_app, rowOf_filter_eq. simpl. by rewrite bool_decide_true. }
  exists s1, (snd (remove key s1)). split_and!.
  - done.
  - unfold exists_. by rewrite Hrow.
  - rewrite (get_stored _ _ _ _ Hkey Hrow). simpl.
    by destruct (Z.ltb_spec (qint64 (now + msecs)) now') as [_|?]; [|lia].
  - unfold exists_, remove. rewrite bool_decide_false by done. simpl.
    by rewrite rowOf_filter_eq.
  - unfold remove. rewrite bool_decide_false by done. simpl.
    rewrite Hrows, filter_app. simpl.
    rewrite filter_cons_False by naive_solver. rewrite filter_nil, app_nil_r.
    apply filter_all. by intros r [? _]%list_elem_of_filter.
Qed.

(** X22: [set] is accepted exactly for a key that is not empty with a lifetime
    above zero, whether the key is stored already or not; a [set] that is
    refused leaves the store as it is. *)
Theorem set_accepted_iff key value msecs now s :
  (fst (set pagesGrown key value msecs now s) = true ↔ key ≠ "" ∧ (0 < msecs)%Z)
  ∧ (fst (set pagesGrown key value msecs now s) = false →
     snd (set pagesGrown key value msecs now s) = s).
Proof.
  destruct (decide (key = "")) as [->|Hkey].
  { unfold set. simpl. split; [|done]. split; [done|]. by intros [? _]. }
  destruct (Z.leb_spec msecs 0) as [Hms|Hms].
  - unfold set. rewrite bool_decide_false by done.
    destruct (Z.leb_spec msecs 0) as [_|?]; [|lia]. simpl.
    split; [|done]. split; [done|]. intros [_ ?]. lia.
  - destruct (set_accepted key value msecs now s Hkey Hms) as (s1 & -> & _).
    simpl. split; [|done]. done.
Qed.

(** X23: A [set] that is accepted touches no other key, and the table has one
    more row when the key is new and as many as before when it replaces a
    row. *)
Theorem set_other_keys key value msecs now s :
  key ≠ "" → (0 < msecs)%Z →
  tableOk (rows s) →
  let s1 := snd (set pagesGrown key value msecs now s) in
  (∀ key' now', key' ≠ key →
     rowOf key' (rows s1) = rowOf key' (rows s)
     ∧ fst (get key' now' s1) = fst (get key' now' s))
  ∧ count s1 = (if exists_ key s then count s else count s + 1)%Z
  ∧ tableOk (rows s1).
Proof.
  intros Hkey Hms Hok s1.
  destruct (set_accepted key value msecs now s Hkey Hms) as (s1' & Hset & Hrows & _).
  assert (Hs1 : s1 = s1') by (unfold s1; by rewrite Hset). rewrite Hs1. clear s1 Hs1.
  assert (Hother : ∀ key', key' ≠ key → rowOf key' (rows s1') = rowOf key' (rows s)).
  { intros key' Hne. rewrite Hrows, rowOf_app, rowOf_filter_ne by done.
    destruct (rowOf key' (rows s)); [done|]. simpl.
    by rewrite bool_decide_false. }
  split_and!.
  - intros key' now' Hne. split; [by apply Hother|].
    unfold get, read. rewrite (Hother key' Hne).
    destruct (bool_decide (key' = "")); [done|].
    destruct (rowOf key' (rows s)) as [r|]; [|by destruct (0 <? now')%Z].
    by destruct (t r <? now')%Z.
  - unfold count, exists_. rewrite Hrows, length_app. simpl.
    destruct (rowOf key (rows s)) as [r|] eqn:Hrow.
    + pose proof (filter_key_length key (rows s) r (proj1 Hok) Hrow). lia.
    + rewrite filter_all; [lia|].
      intros r Hin. by apply (proj1 (rowOf_None _ _) Hrow).
  - rewrite Hrows. apply tableOk_insert; [by apply tableOk_filter|].
    apply rowOf_filter_eq.
Qed.

(** X24: [get] returns a value that is not empty only for a row that is stored
    under the key and has not expired; it never changes a row of another
    key, and for a key that is not stored it returns the empty value and
    leaves every row. *)
Theorem get_only_live key now s :
  (∀ value, fst (get key now s) = value → value ≠ "" →
     ∃ r, rowOf key (rows s) = Some r ∧ b r = value ∧ (now ≤ t r)%Z
          ∧ snd (get key now s) = s)
  ∧ (∀ key', key' ≠ key →
       rowOf key' (rows (snd (get key now s))) = rowOf key' (rows s))
  ∧ (exists_ key s = false →
       fst (get key now s) = "" ∧ rows (snd (get key now s)) = rows s)
  ∧ (tableOk (rows s) → tableOk (rows (snd (get key now s)))).
Proof.
  split_and!.
  - intros value Hget Hne. unfold get, read in *.
    destruct (bool_decide (key = "")); [by simpl in Hget; subst|].
    destruct (rowOf key (rows s)) as [r|] eqn:Hrow.
    + destruct (Z.ltb_spec (t r) now) as [?|Hle]; [by simpl in Hget; subst|].
      exists r. simpl in *. done.
    + destruct (0 <? now)%Z; simpl in Hget; by subst.
  - intros key' Hne. unfold get, read, remove.
    destruct (bool_decide (key = "")); [done|].
    destruct (rowOf key (rows s)) as [r|].
    + destruct (t r <? now)%Z; [|done]. simpl. by apply rowOf_filter_ne.
    + destruct (0 <? now)%Z; [|done]. simpl. by apply rowOf_filter_ne.
  - unfold exists_. destruct (rowOf key (rows s)) eqn:Hrow; [done|].
    intros _. by apply get_absent.
  - intros Hok. unfold get, read, remove.
    destruct (bool_decide (key = "")); [done|].
    destruct (rowOf key (rows s)) as [r|].
    + destruct (t r <? now)%Z; [|done]. simpl. by apply tableOk_filter.
    + destruct (0 <? now)%Z; [|done]. simpl. by apply tableOk_filter.
Qed.

(** X25: [remove] refuses the empty key; for any other key it succeeds, stored or
    not, the key is gone afterwards, the rows of the other keys stay, and
    nothing changes when the key was not stored. *)
Theorem remove_key key s :
  (key = "" → remove key s = (false, s))
  ∧ (key ≠ "" →
     fst (remove key s) = true
     ∧ exists_ key (snd (remove key s)) = false
     ∧ (∀ key', key' ≠ key →
          rowOf key' (rows (snd (remove key s))) = rowOf key' (rows s))
     ∧ (exists_ key s = false → snd (remove key s) = s)
     ∧ (tableOk (rows s) → tableOk (rows (snd (remove key s))))).
Proof.
  split.
  - intros ->. done.
  - intros Hkey. unfold remove, exists_. rewrite bool_decide_false by done. simpl.
    split_and!.
    + done.
    + by rewrite rowOf_filter_eq.
    + intros key' Hne. by apply rowOf_filter_ne.
    + destruct (rowOf key (rows s)) eqn:Hrow; [done|]. intros _.
      destruct s as [th rs ps pc]. unfold setRows. simpl in *. f_equal.
      apply filter_all. intros r Hin. by apply (proj1 (rowOf_None _ _) Hrow).
    + intros Hok. by apply tableOk_filter.
Qed.

(** After [clear] the table is empty, no key is found, and the file has the
    size of an empty table. *)
Lemma clear_empties s :
  count (clear pagesFor s) = 0%Z
  ∧ (∀ key, exists_ key (clear pagesFor s) = false)
  ∧ (∀ key now, get key now (clear pagesFor s) = ("", clear pagesFor s))
  ∧ dbSize (clear pagesFor s) = (page_size s * pagesFor [])%Z
  ∧ fst (removeAll s) = count s.
Proof.
  split_and!; try done.
  intros key now. unfold get, read, remove. simpl.
  destruct (bool_decide (key = "")); [done|]. simpl.
  destruct (0 <? now)%Z; done.
Qed.

End CacheEntries.


(** A run on the cache of the samples: in a file that takes one more page
    for each row written. *)
Lemma set_then_get_witness :
  ∃ s1,
    TCacheSQLiteStore.set (λ n _, n + 1)%Z "a" "v" 10 1000 Samples.cache20 = (true, s1)
    ∧ TCacheSQLiteStore.get "a" 1010 s1 = ("v", s1).
Proof.
  destruct (set_then_get (λ n _, n + 1)%Z "a" "v" 10 1000 1010 Samples.cache20)
    as (s1 & Hset & _ & Hget & _).
  - discriminate.
  - split; reflexivity.
  - split; [discriminate|reflexivity].
  - exists s1. split; [exact Hset|]. apply Hget; [reflexivity|discriminate].
Defined.

Lemma get_expired_deletes_witness :
  ∃ s1 s2,
    TCacheSQLiteStore.set (λ n _, n + 1)%Z "a" "v" 10 1000 Samples.cache20 = (true, s1)
    ∧ TCacheSQLiteStore.get "a" 1011 s1 = ("", s2)
    ∧ TCacheSQLiteStore.exists_ "a" s2 = false.
Proof.
  destruct (get_expired_deletes (λ n _, n + 1)%Z "a" "v" 10 1000 1011 Samples.cache20)
    as (s1 & s2 & Hset & _ & Hget & Hgone & _).
  - discriminate.
  - reflexivity.
  - reflexivity.
  - exists s1, s2. split; [exact Hset|]. split; [exact Hget|exact Hgone].
Defined.

Lemma set_other_keys_witness :
  TCacheSQLiteStore.count
    (snd (TCacheSQLiteStore.set (λ n _, n + 1)%Z "a" "v" 10 1000 Samples.cache20))
  = 21%Z.
Proof.
  destruct (set_other_keys (λ n _, n + 1)%Z "a" "v" 10 1000 Samples.cache20)
    as (_ & Hcount & _).
  - discriminate.
  - reflexivity.
  - split; apply (bool_decide_unpack _); vm_compute; exact I.
  - exact Hcount.
Defined.


(** * Properties of the cleanup of the cache *)

Section CacheCleanup.
Import TCacheSQLiteStore.
Context (pagesFor : list Row → Z).


Lemma rows_gcRound s :
  rows (gcRound pagesFor s)
  = if (thirtyPercent (count s) <? 1)%Z then rows s
    else filter (λ r, ROWID r ∉ selectOldest (thirtyPercent (count s)) (rows s)) (rows s).
Proof. unfold gcRound, removeOlder. by destruct (_ <? 1)%Z. Qed.

Lemma rows_gcRound_sublist s : rows (gcRound pagesFor s) `sublist_of` rows s.
Proof. rewrite rows_gcRound. destruct (_ <? 1)%Z; [done|]. apply sublist_filter. Qed.

Lemma rows_iter_sublist n s :
  rows (Nat.iter n (gcRound pagesFor) s) `sublist_of` rows s.
Proof.
  induction n as [|n IH]; simpl; [done|].
  etrans; [apply rows_gcRound_sublist|exact IH].
Qed.

Lemma rows_afterExpiry now s :
  rows (afterExpiry pagesFor now s) = filter (λ r, ¬ (t r < now)%Z) (rows s).
Proof. done. Qed.

(** [gc] is the expiry sweep followed by zero to three rounds. *)
Lemma gc_rounds now s :
  ∃ n, n ≤ 3
    ∧ gc pagesFor now s = Nat.iter n (gcRound pagesFor) (afterExpiry pagesFor now s)
    ∧ ((_thresholdFileSize s ≤ 0)%Z
       ∨ (dbSize (afterExpiry pagesFor now s) ≤ _thresholdFileSize s)%Z → n = 0).
Proof.
  unfold gc.
  destruct (removeOlderThan now s) as [removed s1] eqn:Hexp.
  assert (Hs0 : afterExpiry pagesFor now s = vacuum pagesFor s1).
  { unfold afterExpiry. by rewrite Hexp. }
  rewrite <- Hs0.
  change (_thresholdFileSize (afterExpiry pagesFor now s)) with (_thresholdFileSize s).
  destruct (Z.ltb_spec 0 (_thresholdFileSize s)) as [Hpos|Hle]; cbn [andb].
  - destruct (Z.ltb_spec (_thresholdFileSize s) (dbSize (afterExpiry pagesFor now s)))
      as [Hbig|Hsmall].
    + destruct (gcLoop_rounds pagesFor 3 removed (afterExpiry pagesFor now s))
        as (n & Hn & Heq & _); [lia|].
      exists n. split_and!; [lia|done|]. intros [?|?]; lia.
    + exists 0. split_and!; [lia|done|done].
  - exists 0. split_and!; [lia|done|done].
Qed.

(** X26: After [gc] no row of the table has expired, and every row of the table
    was there before: [gc] adds and changes nothing. *)
Theorem gc_leaves_no_expired now s :
  (∀ r, r ∈ rows (gc pagesFor now s) → (now ≤ t r)%Z)
  ∧ rows (gc pagesFor now s) `sublist_of` rows s
  ∧ (tableOk (rows s) → tableOk (rows (gc pagesFor now s)))
  ∧ page_count (gc pagesFor now s) = pagesFor (rows (gc pagesFor now s)).
Proof.
  destruct (gc_rounds now s) as (n & _ & Heq & _). rewrite Heq.
  assert (Hsub : rows (Nat.iter n (gcRound pagesFor) (afterExpiry pagesFor now s))
                 `sublist_of` rows s).
  { etrans; [apply rows_iter_sublist|]. rewrite rows_afterExpiry. apply sublist_filter. }
  split_and!.
  - intros r Hin.
    pose proof (elem_of_sublist _ _ _ Hin (rows_iter_sublist n _)) as Hin0.
    rewrite rows_afterExpiry in Hin0.
    apply list_elem_of_filter in Hin0 as [Hlive _]. lia.
  - done.
  - intros [Hk Hr]. split.
    + eapply sublist_NoDup; [exact Hk|]. by apply sublist_map.
    + eapply sublist_NoDup; [exact Hr|]. by apply sublist_map.
  - by destruct n.
Qed.

(** X27: With the threshold off (zero or negative), or with the file within the
    threshold once the expired rows are gone, [gc] deletes the expired rows
    and no other. *)
Theorem gc_within_threshold now s :
  (_thresholdFileSize s ≤ 0)%Z
  ∨ (dbSize (afterExpiry pagesFor now s) ≤ _thresholdFileSize s)%Z →
  rows (gc pagesFor now s) = filter (λ r, ¬ (t r < now)%Z) (rows s)
  ∧ (∀ r, r ∈ rows s → (now ≤ t r)%Z → r ∈ rows (gc pagesFor now s)).
Proof.
  intros Hcase. destruct (gc_rounds now s) as (n & _ & Heq & Hzero).
  rewrite Heq, (Hzero Hcase). simpl. split; [done|].
  intros r Hin Hlive. apply list_elem_of_filter. split; [lia|done].
Qed.

Lemma round_keeps_newest s :
  NoDup (map ROWID (rows s)) →
  ∀ r r', r ∈ rows s → r ∉ rows (gcRound pagesFor s) →
          r' ∈ rows (gcRound pagesFor s) → (t r ≤ t r')%Z.
Proof.
  intros Hnd r r' Hin Hgone Hkept.
  destruct (Z.ltb_spec (thirtyPercent (count s)) 1) as [Hlt|Hge].
  - rewrite rows_gcRound in Hgone.
    destruct (Z.ltb_spec (thirtyPercent (count s)) 1) as [_|?]; [done|lia].
  - destruct (removeOlder_oldest (thirtyPercent (count s)) s Hge Hnd)
      as (_ & Hperm & _ & Hbefore & _).
    change (rows (removeOlder (thirtyPercent (count s)) s).2)
      with (rows (gcRound pagesFor s)) in Hperm, Hbefore.
    apply (Hbefore r r'); [|done].
    rewrite Hperm in Hin. apply elem_of_app in Hin as [?|?]; done.
Qed.

(** X28: [gc] evicts from the old end: every row it deletes expires no later than
    every row it keeps. *)
Theorem gc_keeps_newest now s :
  NoDup (map ROWID (rows s)) →
  ∀ r r', r ∈ rows s → r ∉ rows (gc pagesFor now s) →
          r' ∈ rows (gc pagesFor now s) → (t r ≤ t r')%Z.
Proof.
  intros Hnd. destruct (gc_rounds now s) as (n & _ & Heq & _). rewrite Heq. clear Heq.
  set (s0 := afterExpiry pagesFor now s).
  assert (Hnd0 : NoDup (map ROWID (rows s0))).
  { eapply sublist_NoDup; [exact Hnd|]. apply sublist_map.
    unfold s0. rewrite rows_afterExpiry. apply sublist_filter. }
  assert (Hiter : ∀ r r', r ∈ rows s0 → r ∉ rows (Nat.iter n (gcRound pagesFor) s0) →
            r' ∈ rows (Nat.iter n (gcRound pagesFor) s0) → (t r ≤ t r')%Z).
  { induction n as [|n IH]; [done|]. simpl. intros r r' Hin Hgone Hkept.
    set (sn := Nat.iter n (gcRound pagesFor) s0) in *.
    assert (Hndn : NoDup (map ROWID (rows sn))).
    { eapply sublist_NoDup; [exact Hnd0|]. apply sublist_map, rows_iter_sublist. }
    destruct (decide (r ∈ rows sn)) as [Hn|Hn].
    - by apply (round_keeps_newest sn Hndn r r').
    - apply (IH r r' Hin Hn).
      exact (elem_of_sublist _ _ _ Hkept (rows_gcRound_sublist sn)). }
  intros r r' Hin Hgone Hkept.
  destruct (decide (r ∈ rows s0)) as [H0|H0].
  - by apply Hiter.
  - pose proof (elem_of_sublist _ _ _ Hkept (rows_iter_sublist n s0)) as Hk0.
    unfold s0 in H0, Hk0. rewrite rows_afterExpiry in H0, Hk0.
    apply list_elem_of_filter in Hk0 as [Hlive _].
    assert (t r < now)%Z; [|lia].
    destruct (decide (t r < now)%Z) as [?|Hn]; [done|].
    exfalso. apply H0, list_elem_of_filter. done.
Qed.

End CacheCleanup.


Lemma gc_within_threshold_witness :
  TCacheSQLiteStore.rows
    (TCacheSQLiteStore.gc Samples.pagesFor 1011
       (TCacheSQLiteStore.mkStore 60000 (TCacheSQLiteStore.rows Samples.cache20)
          TCacheSQLiteStore.PAGESIZE 21))
  = filter (λ r, ¬ (TCacheSQLiteStore.t r < 1011)%Z)
      (TCacheSQLiteStore.rows Samples.cache20).
Proof.
  destruct (gc_within_threshold Samples.pagesFor 1011
              (TCacheSQLiteStore.mkStore 60000 (TCacheSQLiteStore.rows Samples.cache20)
                 TCacheSQLiteStore.PAGESIZE 21))
    as [Hrows _].
  - right. vm_compute. discriminate.
  - exact Hrows.
Defined.

Lemma gc_keeps_newest_witness :
  NoDup (map TCacheSQLiteStore.ROWID (TCacheSQLiteStore.rows Samples.cache20))
  ∧ ∀ r r',
      r ∈ TCacheSQLiteStore.rows Samples.cache20 →
      r ∉ TCacheSQLiteStore.rows
            (TCacheSQLiteStore.gc Samples.pagesFor 500 Samples.cache20) →
      r' ∈ TCacheSQLiteStore.rows
             (TCacheSQLiteStore.gc Samples.pagesFor 500 Samples.cache20) →
      (TCacheSQLiteStore.t r ≤ TCacheSQLiteStore.t r')%Z.
Proof.
  assert (Hnd : NoDup (map TCacheSQLiteStore.ROWID
                         (TCacheSQLiteStore.rows Samples.cache20))).
  { apply (bool_decide_unpack _). vm_compute. exact I. }
  split; [exact Hnd|].
  exact (gc_keeps_newest Samples.pagesFor 500 Samples.cache20 Hnd).
Defined.

(** * A server without threads *)

Section DispatcherEdge.
Import TThreadApplicationServer.

(** X30: With a number of threads that is not positive the constructor
    creates no thread; the server then never leaves the state the
    constructor built, and [incomingConnection] finds the stack empty every
    time: no connection is ever served. *)
Theorem no_thread_no_service (settings : TAppSettings) (s : Server) :
  (maxThreads (construct settings) ≤ 0)%Z →
  reachable settings s →
  s = construct settings
  ∧ threadPool s = []
  ∧ running s = []
  ∧ incomingConnection s = None.
Proof.
  intros Hmax Hs.
  assert (Hnone : threadPool (construct settings) = []
                  ∧ running (construct settings) = []).
  { destruct (construct_built settings) as [-> ->].
    replace (Z.to_nat (maxThreads (construct settings))) with 0 by lia. done. }
  destruct Hnone as [Hpool Hrun].
  assert (Heq : s = construct settings).
  { induction Hs as [|s s' _ IH Hstep]; [done|]. subst s.
    destruct Hstep as [thread s' Hin|thread Hin].
    - unfold incomingConnection in Hin. by rewrite Hpool in Hin.
    - rewrite Hrun in Hin. by apply elem_of_nil in Hin. }
  subst s. split_and!; try done.
  unfold incomingConnection. by rewrite Hpool.
Qed.

Lemma no_thread_no_service_witness :
  incomingConnection (construct (mkSettings (Some (-1)%Z) None)) = None.
Proof.
  destruct (no_thread_no_service (mkSettings (Some (-1)%Z) None)
              (construct (mkSettings (Some (-1)%Z) None)))
    as (_ & _ & _ & Hnone).
  - discriminate.
  - apply reachable_construct.
  - exact Hnone.
Defined.

End DispatcherEdge.
